(** * Trench-network synthesis of the FttH planner (trenches2.py)

    A shallow embedding of the geometric primitives, the corner
    synthesizer, the trench-edge synthesizer and the candidate resolver
    of [trenches2.py], with the properties of the specification stated
    and settled against it.

    Numbers.  The Python code computes on binary64 floats with
    [math.acos], [math.cos], [math.sin] and [round].  The embedding
    idealises every float as a real number: [+ - * /] are exact, [** 0.5]
    and [math.sqrt] are [sqrt], [math.hypot x y] is [sqrt (x*x + y*y)],
    [round(x, 7)] is rounding to the nearest multiple of 10^-7 (ties to
    even) and [hash] of a tuple of floats is the tuple itself.  Python
    exceptions are values of [PyExc] carried by the [result] monad.

    Containers.  A Python [dict] is an association list in insertion
    order, a [set] of corners a duplicate-free list (equality of corners
    is equality of coordinates, as [TrenchCorner.__eq__] has it) that is
    iterated in insertion order, and a mutable candidate list shared by
    [new_pp] and [point_edges] a cell of the store [new_pp] addressed by
    its index. *)

From Stdlib Require Import Reals Lra Lia ZArith List Bool Permutation Sorted.
Import ListNotations.

Open Scope R_scope.

(** ** Python exceptions and the error monad *)

Inductive PyExc : Type :=
| ZeroDivisionError
| ValueError
| KeyError
| TypeError
| IndexError
| LinesDoNotIntersect.   (* Exception('lines do not intersect') *)

Inductive result (A : Type) : Type :=
| Ok (a : A)
| Raise (e : PyExc).
Arguments Ok {A} a.
Arguments Raise {A} e.

Definition bind {A B : Type} (m : result A) (k : A -> result B) : result B :=
  match m with
  | Ok a => k a
  | Raise e => Raise e
  end.

Notation "x <- m ;; k" := (bind m (fun x => k))
  (at level 61, m at next level, right associativity).
Notation "' p <- m ;; k" := (bind m (fun x => match x with p => k end))
  (at level 61, p pattern, m at next level, right associativity).

(** Using [None] where a value is needed raises [TypeError]. *)
Definition need {A : Type} (o : option A) : result A :=
  match o with
  | Some a => Ok a
  | None => Raise TypeError
  end.

(** ** Comparisons of reals as booleans *)

Definition Rltb (a b : R) : bool := if Rlt_dec a b then true else false.
Definition Rgtb (a b : R) : bool := Rltb b a.
Definition Reqb (a b : R) : bool := if Req_dec_T a b then true else false.

(** Float division and [math.acos] with their exceptions. *)
Definition pydiv (a b : R) : result R :=
  if Reqb b 0 then Raise ZeroDivisionError else Ok (a / b).

Definition py_acos (x : R) : result R :=
  if Rltb x (-1) then Raise ValueError
  else if Rltb 1 x then Raise ValueError
  else Ok (acos x).

Definition hypot (x y : R) : R := sqrt (x * x + y * y).

(** ** Data model *)

(** A street segment identifier is [str(s)] for the sorted list
    [s = [u, v]] of the endpoint ids.  The variables that hold one start
    as [None] ([first_street_id], [last_street_id]) or as the empty
    string ([street_segment_id]). *)
Inductive StreetId : Type :=
| SidNone
| SidEmpty
| Sid (lo hi : Z).

Definition street_id_of (u v : Z) : StreetId := Sid (Z.min u v) (Z.max u v).

Definition StreetId_eqb (a b : StreetId) : bool :=
  match a, b with
  | SidNone, SidNone => true
  | SidEmpty, SidEmpty => true
  | Sid a1 a2, Sid b1 b2 => (a1 =? b1)%Z && (a2 =? b2)%Z
  | _, _ => false
  end.

(** Everything with an ['x'] and a ['y'] entry: graph nodes, the plain
    dicts built on the way and trench corners. *)
Class XY (A : Type) : Type := { getx : A -> R; gety : A -> R }.

Record Node : Type := mkNode {
  node_x : R;
  node_y : R;
  node_street_count : Z
}.

#[global] Instance XY_Node : XY Node := {| getx := node_x; gety := node_y |}.

Record TrenchCorner : Type := mkCorner {
  tc_x : R;
  tc_y : R;
  tc_trench_count : Z;
  tc_u : Z;
  tc_street_count : Z;
  tc_street_ids : list StreetId;
  tc_node_for_adding : option Z
}.

#[global] Instance XY_TrenchCorner : XY TrenchCorner :=
  {| getx := tc_x; gety := tc_y |}.

#[global] Instance XY_pair : XY (R * R) := {| getx := fst; gety := snd |}.

(** [TrenchCorner.__init__]: the set [street_ids] is given by its
    elements. *)
Definition set_of_ids (ids : list StreetId) : list StreetId :=
  match ids with
  | [a; b] => if StreetId_eqb a b then [a] else [a; b]
  | _ => ids
  end.

Definition new_TrenchCorner (x y : R) (trench_count u_node_id : Z)
    (street_ids : list StreetId) : TrenchCorner :=
  mkCorner x y trench_count u_node_id 1 (set_of_ids street_ids) None.

(** [TrenchCorner.__eq__]; [__hash__] is [hash((x, y))], modelled by
    the pair of coordinates: equal pairs have equal hashes, and the
    collisions of the integer hash between different pairs are left
    out. *)
Definition corner_eqb (a b : TrenchCorner) : bool :=
  Reqb (tc_x a) (tc_x b) && Reqb (tc_y a) (tc_y b).

Definition corner_hash (c : TrenchCorner) : R * R := (tc_x c, tc_y c).

(** ** Geometric primitives *)

Definition distance_from_center_of_road : R := 1 / 10000.

Definition point_distance_from_line {A B : Type} `{XY A} `{XY B}
    (line : A * A) (point : B) : R :=
  ((getx point - getx (fst line)) * (gety (snd line) - gety (fst line)))
  - ((gety point - gety (fst line)) * (getx (snd line) - getx (fst line))).

Definition node_distance {A B : Type} `{XY A} `{XY B}
    (node1 : A) (node2 : B) : R :=
  sqrt ((getx node2 - getx node1) ^ 2 + (gety node2 - gety node1) ^ 2).

Definition angle (vector1 vector2 : R * R) : result R :=
  let '(x1, y1) := vector1 in
  let '(x2, y2) := vector2 in
  let inner_product := x1 * x2 + y1 * y2 in
  let len1 := hypot x1 y1 in
  let len2 := hypot x2 y2 in
  if Rltb y2 y1 then
    q <- pydiv inner_product (len1 * len2) ;;
    a <- py_acos q ;;
    Ok (PI - a + PI)
  else
    q <- pydiv inner_product (len1 * len2) ;;
    py_acos q.

Definition point_on_circle {A : Type} `{XY A} (center : A) (radius radian : R)
    : R * R :=
  let x := getx center + (radius * cos radian) in
  let y := gety center + (radius * sin radian) in
  (x, y).

(** [round(x, ndigits)]: the nearest multiple of [10^-ndigits], a tie
    going to the even one. *)
Definition py_round (x : R) (ndigits : nat) : R :=
  let s := 10 ^ ndigits in
  let y := x * s in
  let n := Int_part y in
  let f := y - IZR n in
  let m := if Rltb f (1 / 2) then n
           else if Rltb (1 / 2) f then (n + 1)%Z
           else if Z.even n then n else (n + 1)%Z in
  IZR m / s.

Definition get_parallel_line_points (u_node v_node : Node)
    (vector_distance : R) (side_id : Z) : Node * Node :=
  let dx := node_x u_node - node_x v_node in
  let dy := node_y u_node - node_y v_node in
  let road_length := sqrt (dx ^ 2 + dy ^ 2) in
  let road_length := if Reqb road_length 0 then 1 / 100000 else road_length in
  let t := vector_distance / road_length in
  (* Perpendicular vector *)
  let '(dx1, dy1) := if (side_id =? 1)%Z then (-1 * dy, dx) else (dy, -1 * dx) in
  let xu1 := node_x u_node + dx1 in
  let yu1 := node_y u_node + dy1 in
  let xu1t := py_round ((1 - t) * node_x u_node + t * xu1) 7 in
  let yu1t := py_round ((1 - t) * node_y u_node + t * yu1) 7 in
  let xv1 := node_x v_node + dx1 in
  let yv1 := node_y v_node + dy1 in
  let xv1t := py_round ((1 - t) * node_x v_node + t * xv1) 7 in
  let yv1t := py_round ((1 - t) * node_y v_node + t * yv1) 7 in
  let new_u_node := mkNode xu1t yu1t (node_street_count u_node) in
  let new_v_node := mkNode xv1t yv1t (node_street_count v_node) in
  (new_u_node, new_v_node).

Definition det (a b : R * R) : R := fst a * snd b - snd a * fst b.

Definition Line : Type := (R * R) * (R * R).

Definition get_intersection_point (line1 line2 : Line) : result (R * R) :=
  let xdiff := (fst (fst line1) - fst (snd line1), fst (fst line2) - fst (snd line2)) in
  let ydiff := (snd (fst line1) - snd (snd line1), snd (fst line2) - snd (snd line2)) in
  let div := det xdiff ydiff in
  if Reqb div 0 then Raise LinesDoNotIntersect
  else
    let d := (det (fst line1) (snd line1), det (fst line2) (snd line2)) in
    let x := det d xdiff / div in
    let y := det d ydiff / div in
    Ok (x, y).

(** The loop
    [for corner in corners: if node_distance(corner, target) <
    shortest_distance: ...] shared by both snapping steps. *)
Fixpoint closest_corner {B : Type} `{XY B} (corners : list TrenchCorner)
    (target : B) (closest : option TrenchCorner) (shortest_distance : R)
    : option TrenchCorner * R :=
  match corners with
  | [] => (closest, shortest_distance)
  | corner :: rest =>
      let current_distance := node_distance corner target in
      if Rltb current_distance shortest_distance
      then closest_corner rest target (Some corner) current_distance
      else closest_corner rest target closest shortest_distance
  end.

(** The edge data of the road graph and of the edges added to it. *)
Inductive EdgeName : Type :=
| NameStreet                               (* a name of the road graph *)
| NameTrenchIds (ids : list StreetId)      (* f"trench {street_ids}" *)
| NameTrenchStreet (sid : StreetId)        (* f"trench {street_segment_id}" *)
| NameCurvedRoad.                          (* "Curved Road" *)

Record EdgeAttrs : Type := mkEdgeAttrs {
  e_highway : option bool;
  e_osmid : option Z;
  e_oneway : option bool;
  e_name : option EdgeName;
  e_length : option R;
  e_trench_crossing : option bool;
  e_geometry : option (list (R * R))
}.

(** The dict returned by [get_trench_linestring]. *)
Record CurvedTrench : Type := mkCurvedTrench {
  u_for_edge : TrenchCorner;
  v_for_edge : TrenchCorner;
  ct_geometry : list (R * R);
  ct_length : R;
  ct_name : EdgeName
}.

(** The variables of the walk of [get_trench_linestring]. *)
Record WalkState : Type := mkWalk {
  linestring : list (R * R);
  total_road_length : R;
  last_road_point : option (R * R);
  last_trench_point : option (R * R);
  last_line : option Line;
  closest_u_for_trench : option TrenchCorner
}.

Definition walk_step (u_side_corners : list TrenchCorner)
    (distance_from_center : R) (side_id : Z) (w : WalkState) (sub : R * R)
    : result WalkState :=
  let '(sub_x, sub_y) := sub in
  match last_road_point w with
  | Some lrp =>
      let '(new_u_node, new_v_node) :=
        get_parallel_line_points (mkNode (fst lrp) (snd lrp) 1)
                                 (mkNode sub_x sub_y 1)
                                 distance_from_center side_id in
      ' (x, y, closest_u) <-
        match last_line w with
        | Some ll =>
            (* Not first line *)
            ' (x, y) <- get_intersection_point ll
                          ((node_x new_u_node, node_y new_u_node),
                           (node_x new_v_node, node_y new_v_node)) ;;
            Ok (py_round x 7, py_round y 7, closest_u_for_trench w)
        | None =>
            (* First line: the trench corner closest to this point *)
            let closest := fst (closest_corner u_side_corners new_u_node None 10000000) in
            c <- need closest ;;
            Ok (tc_x c, tc_y c, closest)
        end ;;
      Ok {| linestring := linestring w ++ [(x, y)];
            total_road_length :=
              total_road_length w
              + sqrt ((x - node_x new_v_node) ^ 2 + (y - node_y new_v_node) ^ 2);
            last_road_point := Some (sub_x, sub_y);
            last_trench_point := Some (node_x new_v_node, node_y new_v_node);
            last_line := Some ((x, y), (node_x new_v_node, node_y new_v_node));
            closest_u_for_trench := closest_u |}
  | None =>
      Ok {| linestring := linestring w;
            total_road_length := total_road_length w;
            last_road_point := Some (sub_x, sub_y);
            last_trench_point := last_trench_point w;
            last_line := last_line w;
            closest_u_for_trench := closest_u_for_trench w |}
  end.

Fixpoint walk (u_side_corners : list TrenchCorner) (distance_from_center : R)
    (side_id : Z) (coords : list (R * R)) (w : WalkState) : result WalkState :=
  match coords with
  | [] => Ok w
  | sub :: rest =>
      w' <- walk_step u_side_corners distance_from_center side_id w sub ;;
      walk u_side_corners distance_from_center side_id rest w'
  end.

Definition walk_init : WalkState :=
  {| linestring := []; total_road_length := 0; last_road_point := None;
     last_trench_point := None; last_line := None;
     closest_u_for_trench := None |}.

(** [get_trench_linestring]; [geometry] is [street['geometry'].coords].
    The second snapping loop measures every corner against
    [{'x': last_trench_point[0], 'y': last_trench_point[0]}]. *)
Definition get_trench_linestring (u_side_corners v_side_corners : list TrenchCorner)
    (geometry : list (R * R)) (distance_from_center : R) (side_id : Z)
    : result CurvedTrench :=
  w <- walk u_side_corners distance_from_center side_id geometry walk_init ;;
  closest_v <-
    match v_side_corners with
    | [] => Ok None
    | _ =>
        ltp <- need (last_trench_point w) ;;
        Ok (fst (closest_corner v_side_corners (fst ltp, fst ltp) None 10000000))
    end ;;
  cv <- need closest_v ;;
  cu <- need (closest_u_for_trench w) ;;
  Ok {| u_for_edge := cu;
        v_for_edge := cv;
        ct_geometry := linestring w ++ [(tc_x cv, tc_y cv)];
        ct_length := total_road_length w;
        ct_name := NameCurvedRoad |}.

(** ** Containers *)

Section Dict.
Context {K V : Type} (eqb : K -> K -> bool).

Fixpoint dict_get (d : list (K * V)) (k : K) : option V :=
  match d with
  | [] => None
  | (k', v) :: rest => if eqb k' k then Some v else dict_get rest k
  end.

(** [k in d] *)
Definition dict_mem (d : list (K * V)) (k : K) : bool :=
  match dict_get d k with
  | Some _ => true
  | None => false
  end.

(** [d[k] = v]: an existing key keeps its place. *)
Fixpoint dict_set (d : list (K * V)) (k : K) (v : V) : list (K * V) :=
  match d with
  | [] => [(k, v)]
  | (k', v') :: rest =>
      if eqb k' k then (k', v) :: rest else (k', v') :: dict_set rest k v
  end.

(** [d[k]] *)
Definition getitem (d : list (K * V)) (k : K) : result V :=
  match dict_get d k with
  | Some v => Ok v
  | None => Raise KeyError
  end.

(** [if k not in d: d[k] = v] *)
Definition setdefault (d : list (K * V)) (k : K) (v : V) : list (K * V) :=
  if dict_mem d k then d else dict_set d k v.
End Dict.

Definition pair_eqb (a b : R * R) : bool :=
  Reqb (fst a) (fst b) && Reqb (snd a) (snd b).

(** [c in s] and [s.add(c)] for a set of corners. *)
Definition set_mem (c : TrenchCorner) (s : list TrenchCorner) : bool :=
  existsb (corner_eqb c) s.

Definition set_add (s : list TrenchCorner) (c : TrenchCorner) : list TrenchCorner :=
  if set_mem c s then s else s ++ [c].

(** [l.sort()] on floats. *)
Fixpoint insert_sorted (x : R) (l : list R) : list R :=
  match l with
  | [] => [x]
  | y :: rest => if Rltb x y then x :: y :: rest else y :: insert_sorted x rest
  end.

Definition sort_R (l : list R) : list R := fold_right insert_sorted [] l.

(** [l[i]] and [l[-i]] with their [IndexError]. *)
Definition index {A : Type} (l : list A) (i : nat) : result A :=
  match nth_error l i with
  | Some a => Ok a
  | None => Raise IndexError
  end.

Definition index_from_end {A : Type} (l : list A) (i : nat) : result A :=
  if (length l <? i)%nat then Raise IndexError else index l (length l - i).

(** ** The road graph *)

(** A [MultiDiGraph]: the nodes with their data and the edges
    [(u, v, key)] with their data, both in insertion order. *)
Record Network : Type := mkNetwork {
  net_nodes : list (Z * Node);
  net_edges : list ((Z * Z * Z) * EdgeAttrs)
}.

Definition edge_key_eqb (a b : Z * Z * Z) : bool :=
  let '(u1, v1, k1) := a in
  let '(u2, v2, k2) := b in
  (u1 =? u2)%Z && (v1 =? v2)%Z && (k1 =? k2)%Z.

Fixpoint nodup_Z (l : list Z) : list Z :=
  match l with
  | [] => []
  | a :: rest => a :: filter (fun b => negb (a =? b)%Z) (nodup_Z rest)
  end.

(** [network.neighbors(u)]: the successors of [u]. *)
Definition neighbors_of (network : Network) (u : Z) : list Z :=
  nodup_Z (map (fun e => snd (fst (fst e)))
               (filter (fun e => (fst (fst (fst e)) =? u)%Z) (net_edges network))).

(** [network.get_edge_data(u, v)[0]] *)
Definition get_edge_data0 (network : Network) (u v : Z) : result EdgeAttrs :=
  getitem edge_key_eqb (net_edges network) (u, v, 0%Z).

(** ** Corner synthesizer: [get_trench_corners] *)

Record CornerState : Type := mkCornerState {
  nodes : list ((R * R) * TrenchCorner);
  output_trench_corners : list (StreetId * list TrenchCorner);
  output_road_crossing : list (StreetId * list (Z * Z));
  node_id : Z
}.

(** The variables of the loop over the sorted angles. *)
Record LoopVars : Type := mkLoopVars {
  first_radian : option R;
  first_street_id : StreetId;
  last_radian : option R;
  last_street_id : StreetId;
  last_node_id : option Z;
  first_node_id : option Z;
  street_segment_id : StreetId
}.

Definition loop_vars_init : LoopVars :=
  {| first_radian := None; first_street_id := SidNone;
     last_radian := None; last_street_id := SidNone;
     last_node_id := None; first_node_id := None;
     street_segment_id := SidEmpty |}.

Definition with_node_for_adding (c : TrenchCorner) (id : Z) : TrenchCorner :=
  mkCorner (tc_x c) (tc_y c) (tc_trench_count c) (tc_u c) (tc_street_count c)
           (tc_street_ids c) (Some id).

(** [c['node_for_adding']] *)
Definition node_for_adding (c : TrenchCorner) : result Z :=
  match tc_node_for_adding c with
  | Some id => Ok id
  | None => Raise KeyError
  end.

(** The angle of the street from [u] towards [v].  A neighbour is a
    node of the graph, so [network.nodes[v]] does not fail; a neighbour
    without an entry in [net_nodes] has no attributes, and the
    [KeyError] comes with [neighbor['x']], which only a straight street
    reads. *)
Definition street_radian (network : Network) (u : Z) (current_node : Node) (v : Z)
    : result R :=
  street <- get_edge_data0 network u v ;;
  match e_geometry street with
  | None =>
      neighbor <- getitem Z.eqb (net_nodes network) v ;;
      angle (1, 0) (node_x neighbor - node_x current_node,
                    node_y neighbor - node_y current_node)
  | Some l =>
      l0 <- index l 0 ;;
      v1 <- (if pair_eqb l0 (node_x current_node, node_y current_node)
             then index l 1 else index_from_end l 2) ;;
      angle (1, 0) (fst v1 - node_x current_node, snd v1 - node_y current_node)
  end.

(** The loop [for v in network.neighbors(u)] filling [neighbors]. *)
Fixpoint collect_neighbors (network : Network) (u : Z) (current_node : Node)
    (vs : list Z) (neighbors : list (R * Z)) : result (list (R * Z)) :=
  match vs with
  | [] => Ok neighbors
  | v :: rest =>
      radian <- street_radian network u current_node v ;;
      collect_neighbors network u current_node rest (dict_set Reqb neighbors radian v)
  end.

(** [node not in output_trench_corners[first_street_id] and node not in
    output_trench_corners[last_street_id]] *)
Definition not_in_buckets (otc : list (StreetId * list TrenchCorner))
    (node : TrenchCorner) (first_id last_id : StreetId) : result bool :=
  bf <- getitem StreetId_eqb otc first_id ;;
  if negb (set_mem node bf) then
    bl <- getitem StreetId_eqb otc last_id ;;
    Ok (negb (set_mem node bl))
  else Ok false.

(** [output_trench_corners[sid].add(node)] *)
Definition bucket_add (otc : list (StreetId * list TrenchCorner)) (sid : StreetId)
    (node : TrenchCorner) : result (list (StreetId * list TrenchCorner)) :=
  b <- getitem StreetId_eqb otc sid ;;
  Ok (dict_set StreetId_eqb otc sid (set_add b node)).

(** [if sid not in output_road_crossing: output_road_crossing[sid] =
    list()] followed by [output_road_crossing[sid].append(crossing)] *)
Definition crossing_append (orc : list (StreetId * list (Z * Z))) (sid : StreetId)
    (crossing : Z * Z) : result (list (StreetId * list (Z * Z))) :=
  let orc := setdefault StreetId_eqb orc sid [] in
  l <- getitem StreetId_eqb orc sid ;;
  Ok (dict_set StreetId_eqb orc sid (l ++ [crossing])).

(** The body of [for radian in sorted_vs].  [last_node_id] and
    [first_node_id] are integers wherever they are read: a corner
    computed before always left its id in both. *)
Definition corner_step (u : Z) (current_node : Node) (neighbors : list (R * Z))
    (st : CornerState * LoopVars) (radian : R) : result (CornerState * LoopVars) :=
  let '(cs, lv) := st in
  v <- getitem Reqb neighbors radian ;;
  let street_segment_id := street_id_of u v in
  match last_radian lv with
  | Some last_rad =>
      (* Find an angle between the two other angles *)
      let between_radian := radian - (Rabs (radian - last_rad) / 2) in
      let '(x, y) := point_on_circle current_node distance_from_center_of_road
                                     between_radian in
      let node := new_TrenchCorner x y 2 u [street_segment_id; last_street_id lv] in
      let otc := setdefault StreetId_eqb (output_trench_corners cs) street_segment_id [] in
      is_new <- not_in_buckets otc node (first_street_id lv) (last_street_id lv) ;;
      cs1 <-
        (if is_new : bool then
           let node_id' := (node_id cs + 1)%Z in
           let node := with_node_for_adding node node_id' in
           otc <- bucket_add otc street_segment_id node ;;
           otc <- bucket_add otc (last_street_id lv) node ;;
           Ok {| nodes := dict_set pair_eqb (nodes cs) (corner_hash node) node;
                 output_trench_corners := otc;
                 output_road_crossing := output_road_crossing cs;
                 node_id := node_id' |}
         else
           known <- getitem pair_eqb (nodes cs) (corner_hash node) ;;
           id <- node_for_adding known ;;
           Ok {| nodes := nodes cs;
                 output_trench_corners := otc;
                 output_road_crossing := output_road_crossing cs;
                 node_id := id |}) ;;
      match last_node_id lv with
      | Some last_id =>
          orc <- crossing_append (output_road_crossing cs1) (last_street_id lv)
                                 (last_id, node_id cs1) ;;
          Ok ({| nodes := nodes cs1;
                 output_trench_corners := output_trench_corners cs1;
                 output_road_crossing := orc;
                 node_id := node_id cs1 |},
              {| first_radian := first_radian lv;
                 first_street_id := first_street_id lv;
                 last_radian := Some radian;
                 last_street_id := street_segment_id;
                 last_node_id := Some (node_id cs1);
                 first_node_id := first_node_id lv;
                 street_segment_id := street_segment_id |})
      | None =>
          Ok (cs1,
              {| first_radian := first_radian lv;
                 first_street_id := first_street_id lv;
                 last_radian := Some radian;
                 last_street_id := street_segment_id;
                 last_node_id := Some (node_id cs1);
                 first_node_id := Some (node_id cs1);
                 street_segment_id := street_segment_id |})
      end
  | None =>
      Ok ({| nodes := nodes cs;
             output_trench_corners :=
               setdefault StreetId_eqb (output_trench_corners cs) street_segment_id [];
             output_road_crossing := output_road_crossing cs;
             node_id := node_id cs |},
          {| first_radian := Some radian;
             first_street_id := street_segment_id;
             last_radian := Some radian;
             last_street_id := street_segment_id;
             last_node_id := last_node_id lv;
             first_node_id := first_node_id lv;
             street_segment_id := street_segment_id |})
  end.

Fixpoint corner_loop (u : Z) (current_node : Node) (neighbors : list (R * Z))
    (sorted_vs : list R) (st : CornerState * LoopVars)
    : result (CornerState * LoopVars) :=
  match sorted_vs with
  | [] => Ok st
  | radian :: rest =>
      st' <- corner_step u current_node neighbors st radian ;;
      corner_loop u current_node neighbors rest st'
  end.

(** The corner between the last vector and the first vector. *)
Definition wrap_around (u : Z) (current_node : Node) (st : CornerState * LoopVars)
    : result CornerState :=
  let '(cs, lv) := st in
  fr <- need (first_radian lv) ;;
  let first_rad := fr + (2 * PI) in
  last_rad <- need (last_radian lv) ;;
  let between_radian := first_rad - (Rabs (first_rad - last_rad) / 2) in
  let '(x, y) := point_on_circle current_node distance_from_center_of_road
                                 between_radian in
  let node := new_TrenchCorner x y 2 u [first_street_id lv; last_street_id lv] in
  is_new <- not_in_buckets (output_trench_corners cs) node
                           (first_street_id lv) (last_street_id lv) ;;
  if is_new : bool then
    let node_id' := (node_id cs + 1)%Z in
    let node := with_node_for_adding node node_id' in
    otc <- bucket_add (output_trench_corners cs) (first_street_id lv) node ;;
    otc <- bucket_add otc (last_street_id lv) node ;;
    last_id <- need (last_node_id lv) ;;
    orc <- crossing_append (output_road_crossing cs) (last_street_id lv)
                           (last_id, node_id') ;;
    first_id <- need (first_node_id lv) ;;
    orc <- crossing_append orc (first_street_id lv) (node_id', first_id) ;;
    Ok {| nodes := nodes cs;
          output_trench_corners := otc;
          output_road_crossing := orc;
          node_id := node_id' |}
  else Ok cs.

(** One arm of the "T" of a dead end: the corner at
    [first_radian + math.pi * factor]. *)
Definition dead_end_corner (u : Z) (current_node : Node) (lv : LoopVars)
    (factor : R) (cs : CornerState) : result (TrenchCorner * CornerState) :=
  fr <- need (first_radian lv) ;;
  let between_radian := fr + PI * factor in
  let '(x, y) := point_on_circle current_node distance_from_center_of_road
                                 between_radian in
  let node := new_TrenchCorner x y 2 u [street_segment_id lv] in
  is_new <- not_in_buckets (output_trench_corners cs) node
                           (first_street_id lv) (last_street_id lv) ;;
  if is_new : bool then
    let node_id' := (node_id cs + 1)%Z in
    let node := with_node_for_adding node node_id' in
    otc <- bucket_add (output_trench_corners cs) (first_street_id lv) node ;;
    Ok (node,
        {| nodes := nodes cs;
           output_trench_corners := otc;
           output_road_crossing :=
             setdefault StreetId_eqb (output_road_crossing cs) (first_street_id lv) [];
           node_id := node_id' |})
  else Ok (node, cs).

Definition dead_end (u : Z) (current_node : Node) (st : CornerState * LoopVars)
    : result CornerState :=
  let '(cs, lv) := st in
  ' (node1, cs) <- dead_end_corner u current_node lv (5 / 10) cs ;;
  ' (node2, cs) <- dead_end_corner u current_node lv (15 / 10) cs ;;
  l <- getitem StreetId_eqb (output_road_crossing cs) (first_street_id lv) ;;
  id1 <- node_for_adding node1 ;;
  id2 <- node_for_adding node2 ;;
  Ok {| nodes := nodes cs;
        output_trench_corners := output_trench_corners cs;
        output_road_crossing :=
          dict_set StreetId_eqb (output_road_crossing cs) (first_street_id lv)
                   (l ++ [(id1, id2)]);
        node_id := node_id cs |}.

(** The body of [for u, current_node in network.nodes(data=True)]. *)
Definition process_intersection (network : Network) (cs : CornerState)
    (u : Z) (current_node : Node) : result CornerState :=
  neighbors <- collect_neighbors network u current_node (neighbors_of network u) [] ;;
  let sorted_vs := sort_R (map fst neighbors) in
  st <- corner_loop u current_node neighbors sorted_vs (cs, loop_vars_init) ;;
  if (1 <? length sorted_vs)%nat then wrap_around u current_node st
  else if (length sorted_vs =? 1)%nat then dead_end u current_node st
  else Ok (fst st).

Fixpoint process_intersections (network : Network) (ns : list (Z * Node))
    (cs : CornerState) : result CornerState :=
  match ns with
  | [] => Ok cs
  | (u, current_node) :: rest =>
      cs' <- process_intersection network cs u current_node ;;
      process_intersections network rest cs'
  end.

Definition corner_state_init : CornerState :=
  {| nodes := []; output_trench_corners := []; output_road_crossing := [];
     node_id := 400000000 |}.

Definition get_trench_corners_state (network : Network) : result CornerState :=
  process_intersections network (net_nodes network) corner_state_init.

Definition get_trench_corners (network : Network)
    : result (list (StreetId * list TrenchCorner) * list (StreetId * list (Z * Z))) :=
  cs <- get_trench_corners_state network ;;
  Ok (output_trench_corners cs, output_road_crossing cs).

(** ** Trench-edge synthesizer *)

Definition is_between (a b c : R * R) : bool :=
  let crossproduct :=
    (snd c - snd a) * (fst b - fst a) - (fst c - fst a) * (snd b - snd a) in
  if Rgtb (Rabs crossproduct) (5 / 100000000) then false
  else
    let dotproduct :=
      (fst c - fst a) * (fst b - fst a) + (snd c - snd a) * (snd b - snd a) in
    if Rltb dotproduct 0 then false
    else
      let squaredlengthba :=
        (fst b - fst a) * (fst b - fst a) + (snd b - snd a) * (snd b - snd a) in
      if Rgtb dotproduct squaredlengthba then false else true.

Definition intersection_between_points {A B : Type} `{XY A} `{XY B}
    (l1 : A * A) (l2 : B * B) : bool :=
  let line1 := ((getx (fst l1), gety (fst l1)), (getx (snd l1), gety (snd l1))) in
  let line2 := ((getx (fst l2), gety (fst l2)), (getx (snd l2), gety (snd l2))) in
  let xdiff := (fst (fst line1) - fst (snd line1), fst (fst line2) - fst (snd line2)) in
  let ydiff := (snd (fst line1) - snd (snd line1), snd (fst line2) - snd (snd line2)) in
  let div := det xdiff ydiff in
  if Reqb div 0 then false
  else
    let d := (det (fst line1) (snd line1), det (fst line2) (snd line2)) in
    let x := det d xdiff / div in
    let y := det d ydiff / div in
    if is_between (fst line1) (snd line1) (x, y) then true else false.

(** A trench candidate [[corner, corner]]; marking it as not to be used
    overwrites both entries with [None]. *)
Definition Candidate : Type := TrenchCorner * TrenchCorner.

(** [hash((xs[0], xs[1], ys[0], ys[1]))] *)
Definition CandHash : Type := R * R * R * R.

Definition CandHash_eqb (a b : CandHash) : bool :=
  let '(a1, a2, a3, a4) := a in
  let '(b1, b2, b3, b4) := b in
  Reqb a1 b1 && Reqb a2 b2 && Reqb a3 b3 && Reqb a4 b4.

Definition trench_candidate_hash_of (c : Candidate) : CandHash :=
  let xs := (Rmin (tc_x (fst c)) (tc_x (snd c)), Rmax (tc_x (fst c)) (tc_x (snd c))) in
  let ys := (Rmin (tc_y (fst c)) (tc_y (snd c)), Rmax (tc_y (fst c)) (tc_y (snd c))) in
  (fst xs, snd xs, fst ys, snd ys).

(** The state of the loop over the edges of the road graph.  A
    candidate is a cell of [new_pp]; [point_edges] refers to it by its
    index there. *)
Record EdgeLoopState : Type := mkEdgeLoopState {
  point_edges : list (StreetId * list (CandHash * (list nat * list nat)));
  new_pp : list (option Candidate);
  new_curved_pp : list CurvedTrench
}.

Definition edge_loop_init : EdgeLoopState :=
  {| point_edges := []; new_pp := []; new_curved_pp := [] |}.

(** [itertools.combinations(l, 2)] *)
Fixpoint combinations2 {A : Type} (l : list A) : list (A * A) :=
  match l with
  | [] => []
  | a :: rest => map (pair a) rest ++ combinations2 rest
  end.

(** [for corner in corners: if keep(corner): filtered.add(corner)] *)
Definition filter_set (keep : TrenchCorner -> bool) (corners : list TrenchCorner)
    : list TrenchCorner :=
  fold_left (fun acc corner => if keep corner then set_add acc corner else acc)
            corners [].

(** The two lists [street_sides[0]] and [street_sides[1]]. *)
Definition split_sides {A : Type} `{XY A} (line : A * A) (corners : list TrenchCorner)
    : list TrenchCorner * list TrenchCorner :=
  (filter (fun corner => negb (Rgtb (point_distance_from_line line corner) 0)) corners,
   filter (fun corner => Rgtb (point_distance_from_line line corner) 0) corners).

Definition side_of {A : Type} (sides : list A * list A) (side_id : Z) : list A :=
  if (side_id =? 0)%Z then fst sides else snd sides.

(** [point_edges[street_segment_id][trench_candidate_hash][side_id]
    .append(trench_candidate)] after the two [if ... not in ...]
    initialisations. *)
Definition record_candidate
    (pe : list (StreetId * list (CandHash * (list nat * list nat))))
    (sid : StreetId) (h : CandHash) (side_id : Z) (ref : nat)
    : list (StreetId * list (CandHash * (list nat * list nat))) :=
  let inner := match dict_get StreetId_eqb pe sid with Some i => i | None => [] end in
  let sides := match dict_get CandHash_eqb inner h with
               | Some s => s
               | None => ([], [])
               end in
  let sides := if (side_id =? 0)%Z then (fst sides ++ [ref], snd sides)
               else (fst sides, snd sides ++ [ref]) in
  dict_set StreetId_eqb pe sid (dict_set CandHash_eqb inner h sides).

(** The body of [for point_pair1 in itertools.combinations(side_corners, 2)]. *)
Definition consider_pair (u_node v_node : Node) (sid : StreetId) (side_id : Z)
    (st : list CandHash * EdgeLoopState) (point_pair1 : TrenchCorner * TrenchCorner)
    : list CandHash * EdgeLoopState :=
  let '(added_trenches, es) := st in
  if negb (tc_u (fst point_pair1) =? tc_u (snd point_pair1))%Z then
    let trench_candidate : Candidate := (fst point_pair1, snd point_pair1) in
    let h := trench_candidate_hash_of trench_candidate in
    if negb (intersection_between_points (u_node, v_node) trench_candidate)
       && negb (existsb (CandHash_eqb h) added_trenches)
    then
      (added_trenches ++ [h],
       {| point_edges := record_candidate (point_edges es) sid h side_id
                                          (length (new_pp es));
          new_pp := new_pp es ++ [Some trench_candidate];
          new_curved_pp := new_curved_pp es |})
    else st
  else st.

(** The straight-street branch for the edge [(u, v)]. *)
Definition straight_street (u v : Z) (u_node v_node : Node) (sid : StreetId)
    (corners : list TrenchCorner) (es : EdgeLoopState) : EdgeLoopState :=
  let filtered_corners :=
    filter_set (fun corner => (tc_u corner =? u)%Z || (tc_u corner =? v)%Z) corners in
  let street_sides := split_sides (u_node, v_node) filtered_corners in
  let st0 : list CandHash * EdgeLoopState := ([], es) in
  let st1 := fold_left (consider_pair u_node v_node sid 0) 
                       (combinations2 (side_of street_sides 0)) st0 in
  let st2 := fold_left (consider_pair u_node v_node sid 1)
                       (combinations2 (side_of street_sides 1)) st1 in
  snd st2.

(** One side of a curved street. *)
Definition curved_side (u_street_sides v_street_sides : list TrenchCorner * list TrenchCorner)
    (geometry : list (R * R)) (es : EdgeLoopState) (side_id : Z)
    : result EdgeLoopState :=
  let u_side_corners := side_of u_street_sides side_id in
  let v_side_corners := side_of v_street_sides side_id in
  if (0 <? length u_side_corners)%nat && (0 <? length v_side_corners)%nat then
    curved_trench <- get_trench_linestring u_side_corners v_side_corners geometry
                       distance_from_center_of_road side_id ;;
    Ok {| point_edges := point_edges es;
          new_pp := new_pp es;
          new_curved_pp := new_curved_pp es ++ [curved_trench] |}
  else Ok es.   (* print(f"Can't find side corners {street}") *)

(** The curved-street branch for the edge [(u, v)]. *)
Definition curved_street (u v : Z) (u_node v_node : Node)
    (corners : list TrenchCorner) (curved_line : list (R * R)) (es : EdgeLoopState)
    : result EdgeLoopState :=
  let u_filtered_corners := filter_set (fun corner => (tc_u corner =? u)%Z) corners in
  let v_filtered_corners := filter_set (fun corner => (tc_u corner =? v)%Z) corners in
  c0 <- index curved_line 0 ;;
  ' (first_segment, last_segment) <-
    (if Reqb (fst c0) (node_x u_node) && Reqb (snd c0) (node_y u_node) then
       c1 <- index curved_line 1 ;;
       c2 <- index_from_end curved_line 2 ;;
       Ok (((node_x u_node, node_y u_node), c1), (c2, (node_x v_node, node_y v_node)))
     else
       c2 <- index_from_end curved_line 2 ;;
       c1 <- index curved_line 1 ;;
       Ok (((node_x u_node, node_y u_node), c2), (c1, (node_x v_node, node_y v_node)))) ;;
  let u_street_sides := split_sides (first_segment : (R * R) * (R * R)) u_filtered_corners in
  let v_street_sides := split_sides (last_segment : (R * R) * (R * R)) v_filtered_corners in
  es <- curved_side u_street_sides v_street_sides curved_line es 0 ;;
  curved_side u_street_sides v_street_sides curved_line es 1.

(** The body of [for u, v, key, street in G_box.edges(keys=True,
    data=True)]; [g_nodes] is [G_box.nodes]. *)
Definition process_edge (g_nodes : list (Z * Node))
    (trench_corners : list (StreetId * list TrenchCorner))
    (es : EdgeLoopState) (edge : (Z * Z * Z) * EdgeAttrs) : result EdgeLoopState :=
  let '((u, v, key), street) := edge in
  u_node <- getitem Z.eqb g_nodes u ;;
  v_node <- getitem Z.eqb g_nodes v ;;
  let sid := street_id_of u v in
  match dict_get StreetId_eqb trench_corners sid with
  | Some corners =>
      match e_geometry street with
      | None => Ok (straight_street u v u_node v_node sid corners es)
      | Some curved_line => curved_street u v u_node v_node corners curved_line es
      end
  | None => Ok es
  end.

Fixpoint process_edges (g_nodes : list (Z * Node))
    (trench_corners : list (StreetId * list TrenchCorner))
    (edges : list ((Z * Z * Z) * EdgeAttrs)) (es : EdgeLoopState)
    : result EdgeLoopState :=
  match edges with
  | [] => Ok es
  | edge :: rest =>
      es' <- process_edge g_nodes trench_corners es edge ;;
      process_edges g_nodes trench_corners rest es'
  end.

(** ** Candidate resolver *)

(** [shortest_pair[0] = None; shortest_pair[1] = None] on the cell
    [ref] of the store. *)
Fixpoint invalidate (store : list (option Candidate)) (ref : nat)
    : list (option Candidate) :=
  match store, ref with
  | [], _ => []
  | _ :: rest, O => None :: rest
  | c :: rest, S ref' => c :: invalidate rest ref'
  end.

(** [for trench_candidate in side: ...] *)
Fixpoint resolve_side_loop (side : list nat) (store : list (option Candidate))
    (shortest_pair : option nat) (shortest_distance : R)
    : list (option Candidate) :=
  match side with
  | [] => store
  | ref :: rest =>
      match nth_error store ref with
      | Some (Some trench_candidate) =>
          let new_dist := node_distance (fst trench_candidate) (snd trench_candidate) in
          if Rltb new_dist shortest_distance then
            let store :=
              match shortest_pair with
              | Some sp => invalidate store sp   (* Mark trench to not be used *)
              | None => store
              end in
            resolve_side_loop rest store (Some ref) new_dist
          else resolve_side_loop rest store shortest_pair shortest_distance
      | _ => resolve_side_loop rest store shortest_pair shortest_distance
      end
  end.

(** [if len(side) > 1: ...] *)
Definition resolve_side (store : list (option Candidate)) (side : list nat)
    : list (option Candidate) :=
  if (1 <? length side)%nat then resolve_side_loop side store None 1000000
  else store.

(** [for trench_candidate_hash, sides in streets.items(): for side in
    sides: ...] *)
Definition resolve_streets (store : list (option Candidate))
    (streets : list (CandHash * (list nat * list nat))) : list (option Candidate) :=
  fold_left (fun store entry =>
               resolve_side (resolve_side store (fst (snd entry))) (snd (snd entry)))
            streets store.

(** [for street_segment_id, streets in point_edges.items(): ...] *)
Definition resolve_candidates
    (pe : list (StreetId * list (CandHash * (list nat * list nat))))
    (store : list (option Candidate)) : list (option Candidate) :=
  fold_left (fun store entry => resolve_streets store (snd entry)) pe store.

(** ** Adding the trenches to the network *)

(** The nodes of the output graph: ids, and the corner dicts that the
    curved trenches pass as [u_for_edge] and [v_for_edge]. *)
Inductive NodeKey : Type :=
| NodeId (n : Z)
| NodeCorner (c : TrenchCorner).

Definition NodeKey_eqb (a b : NodeKey) : bool :=
  match a, b with
  | NodeId x, NodeId y => (x =? y)%Z
  | NodeCorner c, NodeCorner d => corner_eqb c d
  | _, _ => false
  end.

Definition EdgeKey : Type := NodeKey * NodeKey * Z.

Definition EdgeKey_eqb (a b : EdgeKey) : bool :=
  let '(u1, v1, k1) := a in
  let '(u2, v2, k2) := b in
  NodeKey_eqb u1 u2 && NodeKey_eqb v1 v2 && (k1 =? k2)%Z.

(** A node without data is a node added by [add_edge]. *)
Record TrenchGraph : Type := mkTrenchGraph {
  tg_nodes : list (NodeKey * option Node);
  tg_edges : list (EdgeKey * EdgeAttrs)
}.

Definition or_else {A : Type} (new old : option A) : option A :=
  match new with
  | Some a => Some a
  | None => old
  end.

(** [datadict.update(attr)] *)
Definition update_attrs (old attr : EdgeAttrs) : EdgeAttrs :=
  {| e_highway := or_else (e_highway attr) (e_highway old);
     e_osmid := or_else (e_osmid attr) (e_osmid old);
     e_oneway := or_else (e_oneway attr) (e_oneway old);
     e_name := or_else (e_name attr) (e_name old);
     e_length := or_else (e_length attr) (e_length old);
     e_trench_crossing := or_else (e_trench_crossing attr) (e_trench_crossing old);
     e_geometry := or_else (e_geometry attr) (e_geometry old) |}.

Definition no_attrs : EdgeAttrs :=
  {| e_highway := None; e_osmid := None; e_oneway := None; e_name := None;
     e_length := None; e_trench_crossing := None; e_geometry := None |}.

(** [G.add_edge(u_for_edge, v_for_edge, key, **attr)] *)
Definition add_edge (g : TrenchGraph) (u v : NodeKey) (key : Z) (attr : EdgeAttrs)
    : TrenchGraph :=
  let ns := setdefault NodeKey_eqb (tg_nodes g) u None in
  let ns := setdefault NodeKey_eqb ns v None in
  let old := match dict_get EdgeKey_eqb (tg_edges g) (u, v, key) with
             | Some a => a
             | None => no_attrs
             end in
  {| tg_nodes := ns;
     tg_edges := dict_set EdgeKey_eqb (tg_edges g) (u, v, key) (update_attrs old attr) |}.

Definition trench_length : R := 225493 / 1000.

Definition straight_trench_attrs (c : Candidate) : EdgeAttrs :=
  {| e_highway := None; e_osmid := Some 8945376%Z; e_oneway := Some false;
     e_name := Some (NameTrenchIds (tc_street_ids (fst c)));
     e_length := Some trench_length;
     e_trench_crossing := None; e_geometry := None |}.

Definition curved_trench_attrs (t : CurvedTrench) : EdgeAttrs :=
  {| e_highway := None; e_osmid := Some 8945376%Z; e_oneway := Some false;
     e_name := Some (ct_name t);
     e_length := Some (ct_length t);
     e_trench_crossing := None; e_geometry := Some (ct_geometry t) |}.

Definition crossing_attrs (sid : StreetId) : EdgeAttrs :=
  {| e_highway := None; e_osmid := Some 8945376%Z; e_oneway := Some false;
     e_name := Some (NameTrenchStreet sid);
     e_length := Some trench_length;
     e_trench_crossing := Some true; e_geometry := None |}.

(** [for trench_candidate in new_pp: if trench_candidate[0] is not
    None: G_box.add_edge(...)] *)
Fixpoint add_straight_trenches (store : list (option Candidate)) (g : TrenchGraph)
    : result TrenchGraph :=
  match store with
  | [] => Ok g
  | None :: rest => add_straight_trenches rest g
  | Some c :: rest =>
      id0 <- node_for_adding (fst c) ;;
      id1 <- node_for_adding (snd c) ;;
      add_straight_trenches rest
        (add_edge g (NodeId id0) (NodeId id1) 1 (straight_trench_attrs c))
  end.

(** [for curved_trench in new_curved_pp]: [G_box.add_edge] with the
    entries of [curved_trench] as keyword arguments. *)
Definition add_curved_trenches (ts : list CurvedTrench) (g : TrenchGraph) : TrenchGraph :=
  fold_left (fun g t => add_edge g (NodeCorner (u_for_edge t)) (NodeCorner (v_for_edge t))
                                 1 (curved_trench_attrs t))
            ts g.

(** [for street_segment_id, crossings in road_crossing.items(): for
    crossing in crossings: G_box.add_edge(...)] *)
Definition add_crossings (road_crossing : list (StreetId * list (Z * Z)))
    (g : TrenchGraph) : TrenchGraph :=
  fold_left (fun g entry =>
               fold_left (fun g crossing =>
                            add_edge g (NodeId (fst crossing)) (NodeId (snd crossing))
                                     1 (crossing_attrs (fst entry)))
                         (snd entry) g)
            road_crossing g.

(** [for osmid, corners in trench_corners.items(): for corner in
    corners]: [G_box.add_node] with the entries of [corner] as keyword
    arguments. *)
Definition add_corner_nodes (trench_corners : list (StreetId * list TrenchCorner))
    (g_nodes : list (Z * Node)) : result (list (Z * Node)) :=
  fold_left (fun acc entry =>
               fold_left (fun acc corner =>
                            ns <- acc ;;
                            id <- match tc_node_for_adding corner with
                                  | Some id => Ok id
                                  | None => Raise TypeError
                                  end ;;
                            Ok (dict_set Z.eqb ns id
                                  (mkNode (tc_x corner) (tc_y corner)
                                          (tc_street_count corner))))
                         (snd entry) acc)
            trench_corners (Ok g_nodes).

Definition graph_of (g_nodes : list (Z * Node)) (edges : list ((Z * Z * Z) * EdgeAttrs))
    : TrenchGraph :=
  {| tg_nodes := map (fun n => (NodeId (fst n), Some (snd n))) g_nodes;
     tg_edges := map (fun e => let '((u, v, k), a) := e in
                               ((NodeId u, NodeId v, k), a)) edges |}.

(** The module-level script, from the road graph [G_box] to the road
    graph with the trench network merged into it. *)
Definition trench_network (G_box : Network) : result TrenchGraph :=
  ' (trench_corners, road_crossing) <- get_trench_corners G_box ;;
  g_nodes <- add_corner_nodes trench_corners (net_nodes G_box) ;;
  es <- process_edges g_nodes trench_corners (net_edges G_box) edge_loop_init ;;
  let store := resolve_candidates (point_edges es) (new_pp es) in
  g <- add_straight_trenches store (graph_of g_nodes (net_edges G_box)) ;;
  let g := add_curved_trenches (new_curved_pp es) g in
  Ok (add_crossings road_crossing g).

(** ** Concrete inputs *)

(** A placed corner: coordinates, owning intersection and node id. *)
Definition placed_corner (x y : R) (u : Z) (sid : StreetId) (id : Z) : TrenchCorner :=
  mkCorner x y 2 u 1 [sid] (Some id).

(** Three candidates of one street side, of lengths 5, 2 and 8, in the
    order in which they were collected. *)
Definition cand_len5 : Candidate :=
  (placed_corner 0 1 1 (Sid 1 2) 400000001, placed_corner 5 1 2 (Sid 1 2) 400000002).
Definition cand_len2 : Candidate :=
  (placed_corner 3 1 1 (Sid 1 2) 400000003, placed_corner 5 1 2 (Sid 1 2) 400000002).
Definition cand_len8 : Candidate :=
  (placed_corner (-3) 1 1 (Sid 1 2) 400000004, placed_corner 5 1 2 (Sid 1 2) 400000002).

Definition three_candidates : list (option Candidate) :=
  [Some cand_len5; Some cand_len2; Some cand_len8].

Definition three_candidates_group
    : list (StreetId * list (CandHash * (list nat * list nat))) :=
  [(Sid 1 2, [(trench_candidate_hash_of cand_len5, ([], [0%nat; 1%nat; 2%nat]))])].


(** A street with two collinear sub-segments, from (0, 0) over (1, 0)
    to (2, 0), that dead-ends at both intersections 1 and 2; the
    corners of the dead ends on side 0. *)
Definition collinear_geometry : list (R * R) := [(0, 0); (1, 0); (2, 0)].

Definition collinear_u_corner : TrenchCorner :=
  mkCorner 0 distance_from_center_of_road 2 1 1 [Sid 1 2] (Some 400000001%Z).

Definition collinear_v_corner : TrenchCorner :=
  mkCorner 2 distance_from_center_of_road 2 2 1 [Sid 1 2] (Some 400000004%Z).


(** A street from (0, 0) to (4, 0) and the corners of its side 1: one
    at intersection 1, two at intersection 2, each at the offset
    distance from its intersection. *)
Definition snap_geometry : list (R * R) := [(0, 0); (4, 0)].

Definition snap_u_corner : TrenchCorner :=
  mkCorner 0 (- distance_from_center_of_road) 2 1 1 [Sid 1 2] (Some 400000002%Z).

Definition snap_v_near : TrenchCorner :=
  mkCorner 4 (- distance_from_center_of_road) 2 2 1 [Sid 1 2] (Some 400000003%Z).

Definition snap_v_far : TrenchCorner :=
  mkCorner (4 + 8 / 10 * distance_from_center_of_road)
           (- (6 / 10) * distance_from_center_of_road) 2 2 1 [Sid 1 2; Sid 2 3]
           (Some 400000004%Z).


(** ** Observations on the output graph *)

(** The [length] attribute of the edge [k] of the graph, if there is
    such an edge and it has one. *)
Definition edge_length (g : TrenchGraph) (k : EdgeKey) : option R :=
  match dict_get EdgeKey_eqb (tg_edges g) k with
  | Some a => e_length a
  | None => None
  end.


(** ** Geometry of a crossing *)

(** [p] lies on the line through [a] and [b]. *)
Definition on_line (a b p : R * R) : Prop :=
  (fst p - fst a) * (snd b - snd a) - (snd p - snd a) * (fst b - fst a) = 0.

(** [p] lies on the segment between [a] and [b]. *)
Definition on_segment (a b p : R * R) : Prop :=
  exists t, 0 <= t <= 1
            /\ fst p = fst a + t * (fst b - fst a)
            /\ snd p = snd a + t * (snd b - snd a).

(** The lines through [a1], [b1] and through [a2], [b2] have the same
    direction. *)
Definition parallel_lines (a1 b1 a2 b2 : R * R) : Prop :=
  (fst a1 - fst b1) * (snd a2 - snd b2) - (snd a1 - snd b1) * (fst a2 - fst b2) = 0.

Definition xy_of {A : Type} `{XY A} (a : A) : R * R := (getx a, gety a).

(** The line through the pair of corners crosses the street segment
    between [u_node] and [v_node]: the two lines meet in one point, and
    that point lies between the two intersections. *)
Definition crosses_street (u_node v_node : Node) (c : Candidate) : Prop :=
  ~ parallel_lines (xy_of u_node) (xy_of v_node) (xy_of (fst c)) (xy_of (snd c))
  /\ exists p, on_line (xy_of (fst c)) (xy_of (snd c)) p
               /\ on_segment (xy_of u_node) (xy_of v_node) p.


(** A plain street of the road graph, straight or with a geometry. *)
Definition straight_street_data : EdgeAttrs :=
  {| e_highway := Some true; e_osmid := None; e_oneway := None;
     e_name := Some NameStreet; e_length := None; e_trench_crossing := None;
     e_geometry := None |}.

Definition curved_street_data (coords : list (R * R)) : EdgeAttrs :=
  {| e_highway := Some true; e_osmid := None; e_oneway := None;
     e_name := Some NameStreet; e_length := None; e_trench_crossing := None;
     e_geometry := Some coords |}.

(** The number of streets that leave the intersection [u]. *)
Definition degree (network : Network) (u : Z) : nat :=
  length (neighbors_of network u).

(** All the corners of the index, bucket after bucket, and all the
    crossing edges. *)
Definition all_corners (cs : CornerState) : list TrenchCorner :=
  concat (map snd (output_trench_corners cs)).

Definition all_crossings (cs : CornerState) : list (Z * Z) :=
  concat (map snd (output_road_crossing cs)).

(** The identifiers of the corners of a list, each once. *)
Definition corner_ids (l : list TrenchCorner) : list Z :=
  nodup_Z (flat_map (fun c => match tc_node_for_adding c with
                              | Some id => [id]
                              | None => []
                              end) l).

(** Intersection 1 at the origin with three straight streets that all
    leave it eastwards, to the intersections 2, 3 and 4. *)
Definition fan_network : Network :=
  {| net_nodes := [(1%Z, mkNode 0 0 3); (2%Z, mkNode 1 0 1);
                   (3%Z, mkNode 2 0 1); (4%Z, mkNode 3 0 1)];
     net_edges := [((1, 2, 0)%Z, straight_street_data);
                   ((1, 3, 0)%Z, straight_street_data);
                   ((1, 4, 0)%Z, straight_street_data)] |}.


(** An out-and-back street that leaves the origin northwards and
    comes back from the north. *)
Definition stub_geometry : list (R * R) := [(0, 0); (0, 1); (1, 1); (0, 1); (0, 0)].

(** Two intersections 1 and 2 at the same coordinates, joined by the
    out-and-back street; each has a straight street eastwards to the
    intersection 3. *)
Definition twin_network : Network :=
  {| net_nodes := [(1%Z, mkNode 0 0 2); (2%Z, mkNode 0 0 2); (3%Z, mkNode 1 0 2)];
     net_edges := [((1, 3, 0)%Z, straight_street_data);
                   ((1, 2, 0)%Z, curved_street_data stub_geometry);
                   ((2, 3, 0)%Z, straight_street_data);
                   ((2, 1, 0)%Z, curved_street_data stub_geometry)] |}.

(** The same two intersections, each with a straight street westwards
    to the intersection 3, and the second one with another straight
    street southwards to the intersection 4. *)
Definition twin_network_west : Network :=
  {| net_nodes := [(1%Z, mkNode 0 0 2); (2%Z, mkNode 0 0 3);
                   (3%Z, mkNode (-1) 0 2); (4%Z, mkNode 0 (-1) 1)];
     net_edges := [((1, 2, 0)%Z, curved_street_data stub_geometry);
                   ((1, 3, 0)%Z, straight_street_data);
                   ((2, 1, 0)%Z, curved_street_data stub_geometry);
                   ((2, 3, 0)%Z, straight_street_data);
                   ((2, 4, 0)%Z, straight_street_data)] |}.


(** The corners that [get_trench_corners] computes on [twin_network]:
    the corner between the two streets of intersection 1, the one
    opposite to it, and the corner between the two streets of
    intersection 2, which has the coordinates of the first. *)
Definition twin_corner_1 : TrenchCorner :=
  mkCorner (0 + distance_from_center_of_road * (1 / sqrt 2))
           (0 + distance_from_center_of_road * (1 / sqrt 2))
           2 1 1 [Sid 1 2; Sid 1 3] (Some 400000001%Z).

Definition twin_corner_2 : TrenchCorner :=
  mkCorner (0 + distance_from_center_of_road * (-1 / sqrt 2))
           (0 + distance_from_center_of_road * (-1 / sqrt 2))
           2 1 1 [Sid 1 3; Sid 1 2] (Some 400000002%Z).

Definition twin_corner_3 : TrenchCorner :=
  mkCorner (0 + distance_from_center_of_road * (1 / sqrt 2))
           (0 + distance_from_center_of_road * (1 / sqrt 2))
           2 2 1 [Sid 1 2; Sid 2 3] (Some 400000003%Z).

Definition twin_state : CornerState :=
  {| nodes := [(corner_hash twin_corner_1, twin_corner_3)];
     output_trench_corners :=
       [(Sid 1 3, [twin_corner_1; twin_corner_2]);
        (Sid 1 2, [twin_corner_1; twin_corner_2]);
        (Sid 2 3, [twin_corner_3])];
     output_road_crossing :=
       [(Sid 1 2, [(400000001, 400000002)%Z]);
        (Sid 1 3, [(400000002, 400000001)%Z])];
     node_id := 400000003 |}.

(** The corners that [get_trench_corners] computes on
    [twin_network_west]: two at intersection 1, and two new ones at
    intersection 2, where the corner between the first two streets is
    found in the index. *)
Definition west_corner_1 : TrenchCorner :=
  mkCorner (0 + distance_from_center_of_road * (-1 / sqrt 2))
           (0 + distance_from_center_of_road * (1 / sqrt 2))
           2 1 1 [Sid 1 3; Sid 1 2] (Some 400000001%Z).

Definition west_corner_2 : TrenchCorner :=
  mkCorner (0 + distance_from_center_of_road * (1 / sqrt 2))
           (0 + distance_from_center_of_road * (-1 / sqrt 2))
           2 1 1 [Sid 1 2; Sid 1 3] (Some 400000002%Z).

Definition west_corner_3 : TrenchCorner :=
  mkCorner (0 + distance_from_center_of_road * (-1 / sqrt 2))
           (0 + distance_from_center_of_road * (-1 / sqrt 2))
           2 2 1 [Sid 2 4; Sid 2 3] (Some 400000002%Z).

Definition west_corner_4 : TrenchCorner :=
  mkCorner (0 + distance_from_center_of_road * 1)
           (0 + distance_from_center_of_road * 0)
           2 2 1 [Sid 1 2; Sid 2 4] (Some 400000003%Z).

Definition west_state : CornerState :=
  {| nodes := [(corner_hash west_corner_1, west_corner_1);
               (corner_hash west_corner_3, west_corner_3)];
     output_trench_corners :=
       [(Sid 1 2, [west_corner_1; west_corner_2; west_corner_4]);
        (Sid 1 3, [west_corner_1; west_corner_2]);
        (Sid 2 3, [west_corner_3]);
        (Sid 2 4, [west_corner_3; west_corner_4])];
     output_road_crossing :=
       [(Sid 1 3, [(400000001, 400000002)%Z]);
        (Sid 1 2, [(400000002, 400000001)%Z; (400000003, 400000001)%Z]);
        (Sid 2 3, [(400000001, 400000002)%Z]);
        (Sid 2 4, [(400000002, 400000003)%Z])];
     node_id := 400000003 |}.


(** The index after intersection 1 of [twin_network]. *)
Definition twin_state_1 : CornerState :=
  {| nodes := [(corner_hash twin_corner_1, twin_corner_1)];
     output_trench_corners :=
       [(Sid 1 3, [twin_corner_1; twin_corner_2]);
        (Sid 1 2, [twin_corner_1; twin_corner_2])];
     output_road_crossing :=
       [(Sid 1 2, [(400000001, 400000002)%Z]);
        (Sid 1 3, [(400000002, 400000001)%Z])];
     node_id := 400000002 |}.

(** The index after intersection 1 of [twin_network_west]. *)
Definition west_state_1 : CornerState :=
  {| nodes := [(corner_hash west_corner_1, west_corner_1)];
     output_trench_corners :=
       [(Sid 1 2, [west_corner_1; west_corner_2]);
        (Sid 1 3, [west_corner_1; west_corner_2])];
     output_road_crossing :=
       [(Sid 1 3, [(400000001, 400000002)%Z]);
        (Sid 1 2, [(400000002, 400000001)%Z])];
     node_id := 400000002 |}.


(** ** The corners and crossings that an intersection should get *)

(** The identifiers handed out after the counter stood at [x]. *)
Definition new_ids (x : Z) (m : nat) : list Z :=
  map (fun i => (x + Z.of_nat i)%Z) (seq 1 m).

(** The edges that join each identifier of a list to the next one. *)
Fixpoint path_edges (ids : list Z) : list (Z * Z) :=
  match ids with
  | a :: (b :: _) as rest => (a, b) :: path_edges rest
  | _ => []
  end.

(** The same with the edge from the last identifier back to the first:
    the crossing edges around an intersection, wrap-around pair
    included. *)
Definition ring_edges (ids : list Z) : list (Z * Z) :=
  match ids with
  | first :: _ :: _ => path_edges ids ++ [(last ids first, first)]
  | _ => []
  end.

(** The corner lies on the circle around [center], at the angle
    [theta]. *)
Definition at_angle (center : Node) (theta : R) (c : TrenchCorner) : Prop :=
  (tc_x c, tc_y c) = point_on_circle center distance_from_center_of_road theta.

(** No two corners of the list have the same coordinates. *)
Definition distinct_corners (l : list TrenchCorner) : Prop :=
  ForallOrdPairs (fun a b => corner_eqb a b = false) l.


(** The state of the loop over the sorted angles of an intersection
    that met no known corner so far: [a1] is the first angle, [ak] the
    one just handled, [made] the corners made on the way, starting from
    the index [cs0]. *)
Record loop_inv (u : Z) (current_node : Node) (cs0 : CornerState) (a1 ak : R)
    (made : list TrenchCorner) (st : CornerState * LoopVars) : Prop :=
  mkLoopInv {
  inv_order : a1 <= ak;
  inv_first : first_radian (snd st) = Some a1;
  inv_last : last_radian (snd st) = Some ak;
  inv_first_bucket :
    dict_mem StreetId_eqb (output_trench_corners (fst st))
             (first_street_id (snd st)) = true;
  inv_last_bucket :
    dict_mem StreetId_eqb (output_trench_corners (fst st))
             (last_street_id (snd st)) = true;
  inv_counter : node_id (fst st) = (node_id cs0 + Z.of_nat (length made))%Z;
  inv_last_node :
    last_node_id (snd st)
    = match made with [] => None | _ => Some (node_id (fst st)) end;
  inv_first_node :
    first_node_id (snd st)
    = match made with [] => None | _ => Some (node_id cs0 + 1)%Z end;
  inv_corners :
    forall c, In c (all_corners (fst st)) <-> In c (all_corners cs0) \/ In c made;
  inv_ids :
    map tc_node_for_adding made = map Some (new_ids (node_id cs0) (length made));
  inv_made :
    Forall (fun c => tc_u c = u
                     /\ exists theta, a1 < theta < ak /\ at_angle current_node theta c)
           made;
  inv_distinct : distinct_corners made;
  inv_crossings :
    Permutation (all_crossings (fst st))
                (all_crossings cs0 ++ path_edges (new_ids (node_id cs0) (length made)))
}.

(** No corner of the index lies on the circle around [current_node]
    on which its corners are placed. *)
Definition none_on_circle (current_node : Node) (cs : CornerState) : Prop :=
  forall c, In c (all_corners cs) ->
            node_distance c current_node <> distance_from_center_of_road.


(** The bucket of the street [1, 2] of the snapping example and the
    trench that the curved path builds on its side 1. *)
Definition snap_bucket : list TrenchCorner := [snap_u_corner; snap_v_near; snap_v_far].

Definition snap_u_node : Node := mkNode 0 0 1.
Definition snap_v_node : Node := mkNode 4 0 3.

(** What the straight path leaves on the street of the snapping
    example: two candidates on side 1, each under its own key. *)
Definition snap_straight_state : EdgeLoopState :=
  {| point_edges :=
       [(Sid 1 2,
         [(trench_candidate_hash_of (snap_u_corner, snap_v_near), ([], [0%nat]));
          (trench_candidate_hash_of (snap_u_corner, snap_v_far), ([], [1%nat]))])];
     new_pp := [Some (snap_u_corner, snap_v_near); Some (snap_u_corner, snap_v_far)];
     new_curved_pp := [] |}.

Definition snap_trench : CurvedTrench :=
  {| u_for_edge := snap_u_corner;
     v_for_edge := snap_v_far;
     ct_geometry := [(tc_x snap_u_corner, tc_y snap_u_corner);
                     (tc_x snap_v_far, tc_y snap_v_far)];
     ct_length := 0 + sqrt ((0 - 4) ^ 2
                            + (- distance_from_center_of_road
                               - - distance_from_center_of_road) ^ 2);
     ct_name := NameCurvedRoad |}.

(** ** Comparing the two construction paths *)

(** The curved trench joins the two corners of the straight candidate
    by the segment between them. *)
Definition same_trench (c : Candidate) (t : CurvedTrench) : Prop :=
  (u_for_edge t = fst c /\ v_for_edge t = snd c
   /\ ct_geometry t = [xy_of (fst c); xy_of (snd c)])
  \/ (u_for_edge t = snd c /\ v_for_edge t = fst c
      /\ ct_geometry t = [xy_of (snd c); xy_of (fst c)]).

(** The curved-street path produced the same trench geometry as the
    straight-street path: every valid straight candidate has its curved
    trench and every curved trench its straight candidate. *)
Definition paths_agree (store : list (option Candidate)) (ts : list CurvedTrench) : Prop :=
  (forall c, In (Some c) store -> exists t, In t ts /\ same_trench c t)
  /\ (forall t, In t ts -> exists c, In (Some c) store /\ same_trench c t).


(** Both coordinates of the point are at most [bound] in absolute
    value. *)
Definition in_range {A : Type} `{XY A} (bound : R) (a : A) : Prop :=
  Rabs (getx a) <= bound /\ Rabs (gety a) <= bound.

(** The trench that joins the corner [cu] to the corner [cv] along the
    offset of the segment from [u_node] to [v_node]. *)
Definition two_point_trench (cu cv : TrenchCorner) (u_node v_node : Node) (side_id : Z)
    : CurvedTrench :=
  let new_v_node :=
    snd (get_parallel_line_points (mkNode (node_x u_node) (node_y u_node) 1)
                                  (mkNode (node_x v_node) (node_y v_node) 1)
                                  distance_from_center_of_road side_id) in
  {| u_for_edge := cu;
     v_for_edge := cv;
     ct_geometry := [xy_of cu; xy_of cv];
     ct_length := 0 + sqrt ((tc_x cu - node_x new_v_node) ^ 2
                            + (tc_y cu - node_y new_v_node) ^ 2);
     ct_name := NameCurvedRoad |}.


(** A street from (0, 0) to (4, 0) between two dead ends and its
    bucket: the two arms of the "T" of each end, in the order in which
    they are placed. *)
Definition lone_u_node : Node := mkNode 0 0 1.
Definition lone_v_node : Node := mkNode 4 0 1.

Definition lone_u_0 : TrenchCorner :=
  placed_corner 0 distance_from_center_of_road 1 (Sid 1 2) 400000001.
Definition lone_u_1 : TrenchCorner :=
  placed_corner 0 (- distance_from_center_of_road) 1 (Sid 1 2) 400000002.
Definition lone_v_1 : TrenchCorner :=
  placed_corner 4 (- distance_from_center_of_road) 2 (Sid 1 2) 400000003.
Definition lone_v_0 : TrenchCorner :=
  placed_corner 4 distance_from_center_of_road 2 (Sid 1 2) 400000004.

Definition lone_bucket : list TrenchCorner := [lone_u_0; lone_u_1; lone_v_1; lone_v_0].

Definition lone_geometry : list (R * R) := [(0, 0); (4, 0)].

(** A street as short as the offset distance, from the dead end 1 at
    (0, 0) to the intersection 2 at (1/10000, 0), and its bucket.
    Every corner is at the offset distance from its intersection: the
    corners of 1 at the right angle to the street, the corners of 2 on
    the bisectors towards streets that leave 2 backwards. *)
Definition short_u_node : Node := mkNode 0 0 1.
Definition short_v_node : Node := mkNode (1 / 10000) 0 3.

Definition short_geometry : list (R * R) := [(0, 0); (1 / 10000, 0)].

Definition short_u_0 : TrenchCorner :=
  placed_corner 0 (1 / 10000) 1 (Sid 1 2) 400000001.
Definition short_u_1 : TrenchCorner :=
  placed_corner 0 (- (1 / 10000)) 1 (Sid 1 2) 400000002.
Definition short_v_1 : TrenchCorner :=
  mkCorner (2 / 100000) (- (6 / 100000)) 2 2 2 [Sid 2 3; Sid 1 2] (Some 400000003%Z).
Definition short_v_0 : TrenchCorner :=
  mkCorner (2 / 100000) (6 / 100000) 2 2 2 [Sid 1 2; Sid 2 4] (Some 400000005%Z).

Definition short_bucket : list TrenchCorner := [short_u_0; short_u_1; short_v_1; short_v_0].

(** What the curved path leaves on the short street. *)
Definition short_curved_state : EdgeLoopState :=
  {| point_edges := [];
     new_pp := [];
     new_curved_pp := [two_point_trench short_u_0 short_v_0 short_u_node short_v_node 0;
                       two_point_trench short_u_1 short_v_1 short_u_node short_v_node 1] |}.


(** ** What every synthesized corner satisfies *)

(** The corner has an identifier above the start of the counter, the
    counts that the synthesizer gives, and lies at the offset distance
    from the intersection of the network that owns it. *)
Definition placed (network : Network) (c : TrenchCorner) : Prop :=
  (exists id, tc_node_for_adding c = Some id /\ (400000000 < id)%Z)
  /\ tc_trench_count c = 2%Z
  /\ tc_street_count c = 1%Z
  /\ exists node, In (tc_u c, node) (net_nodes network)
                  /\ node_distance c node = distance_from_center_of_road.

(** The index of the synthesizer holds placed corners only, crossing
    edges between identifiers of corners only, and a counter that is
    not below its start. *)
Record placed_index (network : Network) (cs : CornerState) : Prop := mkPlacedIndex {
  placed_corners : forall c, In c (all_corners cs) -> placed network c;
  placed_nodes : forall k c, In (k, c) (nodes cs) -> placed network c;
  placed_crossings : forall a b, In (a, b) (all_crossings cs) ->
                                 (400000000 < a)%Z /\ (400000000 < b)%Z;
  placed_counter : (400000000 <= node_id cs)%Z
}.

Definition placed_vars (lv : LoopVars) : Prop :=
  (forall id, last_node_id lv = Some id -> (400000000 < id)%Z)
  /\ (forall id, first_node_id lv = Some id -> (400000000 < id)%Z).


(** The index after the dead end 1 at the origin of a street that
    leaves eastwards, and the loop variables of a second dead end at
    the same place on the same street. *)
Definition dead_end_index : CornerState :=
  {| nodes := [];
     output_trench_corners := [(Sid 1 2, [lone_u_0; lone_u_1])];
     output_road_crossing := [(Sid 1 2, [(400000001, 400000002)%Z])];
     node_id := 400000002 |}.

Definition dead_end_vars : LoopVars :=
  {| first_radian := Some 0; first_street_id := Sid 1 2;
     last_radian := Some 0; last_street_id := Sid 1 2;
     last_node_id := None; first_node_id := None;
     street_segment_id := Sid 1 2 |}.


(** ** What the resolver may change *)

(** All the cells that the groups of [point_edges] refer to. *)
Definition group_refs (pe : list (StreetId * list (CandHash * (list nat * list nat))))
    : list nat :=
  flat_map (fun entry =>
              flat_map (fun group => fst (snd group) ++ snd (snd group)) (snd entry))
           pe.

(** [store'] is [store] with some of the cells of [refs] set to
    [None]. *)
Definition cleared_at (refs : list nat) (store store' : list (option Candidate)) : Prop :=
  length store' = length store
  /\ forall i, nth_error store' i = nth_error store i
               \/ (In i refs /\ nth_error store' i = Some None).


(** ** What merging the trenches keeps of a graph *)

(** [g'] has every node of [g] with the data it had, every edge of
    [g], and the edges with another key than 1 exactly as [g] has
    them. *)
Definition graph_kept (g g' : TrenchGraph) : Prop :=
  (forall n data, dict_get NodeKey_eqb (tg_nodes g) n = Some data ->
                  dict_get NodeKey_eqb (tg_nodes g') n = Some data)
  /\ (forall k, dict_mem EdgeKey_eqb (tg_edges g) k = true ->
                dict_mem EdgeKey_eqb (tg_edges g') k = true)
  /\ (forall u v key, key <> 1%Z ->
        dict_get EdgeKey_eqb (tg_edges g') (u, v, key)
        = dict_get EdgeKey_eqb (tg_edges g) (u, v, key)).

(** ** The length along the geometry *)







(** * Properties *)

(** ** Deciding comparisons *)

Lemma Rltb_true_iff (a b : R) : Rltb a b = true <-> a < b.
Proof. unfold Rltb. destruct (Rlt_dec a b); split; intros; (assumption || discriminate || reflexivity || contradiction). Qed.

Lemma Rltb_false_iff (a b : R) : Rltb a b = false <-> b <= a.
Proof.
  unfold Rltb. destruct (Rlt_dec a b); split; intros; try discriminate; try reflexivity; lra.
Qed.

Lemma Reqb_true_iff (a b : R) : Reqb a b = true <-> a = b.
Proof. unfold Reqb. destruct (Req_dec_T a b); split; intros; (assumption || discriminate || reflexivity || contradiction). Qed.

Lemma Reqb_false_iff (a b : R) : Reqb a b = false <-> a <> b.
Proof. unfold Reqb. destruct (Req_dec_T a b); split; intros; (assumption || discriminate || reflexivity || contradiction). Qed.

Lemma Reqb_refl (a : R) : Reqb a a = true.
Proof. now apply Reqb_true_iff. Qed.

Lemma Rltb_lt (a b : R) : a < b -> Rltb a b = true.
Proof. apply Rltb_true_iff. Qed.

Lemma Rltb_ge (a b : R) : b <= a -> Rltb a b = false.
Proof. apply Rltb_false_iff. Qed.

Lemma Reqb_eq (a b : R) : a = b -> Reqb a b = true.
Proof. apply Reqb_true_iff. Qed.

Lemma Reqb_neq (a b : R) : a <> b -> Reqb a b = false.
Proof. apply Reqb_false_iff. Qed.

(** Settles every comparison of the goal that linear arithmetic over
    the hypotheses decides. *)
Ltac decide_R :=
  repeat match goal with
  | |- context [Rltb ?a ?b] =>
      first [ rewrite (Rltb_lt a b) by lra | rewrite (Rltb_ge a b) by lra ]
  | |- context [Reqb ?a ?b] =>
      first [ rewrite (Reqb_eq a b) by lra | rewrite (Reqb_neq a b) by lra ]
  end.

Lemma hypot_0_l (y : R) : 0 <= y -> hypot 0 y = y.
Proof.
  intros Hy. unfold hypot. replace (0 * 0 + y * y) with (y * y) by ring.
  now apply sqrt_square.
Qed.

Lemma hypot_0_r (x : R) : 0 <= x -> hypot x 0 = x.
Proof.
  intros Hx. unfold hypot. replace (x * x + 0 * 0) with (x * x) by ring.
  now apply sqrt_square.
Qed.

Lemma hypot_nonneg (x y : R) : 0 <= hypot x y.
Proof. apply sqrt_pos. Qed.

Lemma hypot_pos (x y : R) : (x, y) <> (0, 0) -> 0 < hypot x y.
Proof.
  intros Hne. unfold hypot. apply sqrt_lt_R0.
  destruct (Req_dec_T x 0) as [-> | Hx].
  - assert (y <> 0) by (intros ->; now apply Hne). nra.
  - nra.
Qed.

Lemma hypot_sqr (x y : R) : hypot x y * hypot x y = x * x + y * y.
Proof. unfold hypot. apply sqrt_sqrt. nra. Qed.

(** ** The angle function *)

Lemma hypot_1_1 (x : R) : x * x = 1 -> hypot x 1 = sqrt 2.
Proof. intros H. unfold hypot. f_equal. lra. Qed.

Lemma angle_north_diagonal (x : R) :
  x * x = 1 -> angle (0, 1) (x, 1) = Ok (PI / 4).
Proof.
  intros Hx. pose proof sqrt2_neq_0 as Hs. pose proof PI_RGT_0 as Hpi.
  assert (Hs1 : 1 <= sqrt 2).
  { rewrite <- sqrt_1 at 1. apply sqrt_le_1; lra. }
  assert (Hq : 0 < / sqrt 2 <= 1).
  { split; [apply Rinv_0_lt_compat; lra|].
    rewrite <- Rinv_1. apply Rinv_le_contravar; lra. }
  unfold angle. rewrite (Rltb_ge 1 1) by lra.
  rewrite hypot_0_l by lra. rewrite (hypot_1_1 x Hx).
  unfold pydiv. rewrite (Reqb_neq (1 * sqrt 2) 0) by lra. cbn [bind].
  replace ((0 * x + 1 * 1) / (1 * sqrt 2)) with (1 / sqrt 2) by (field; exact Hs).
  unfold py_acos.
  rewrite (Rltb_ge (1 / sqrt 2) (-1)) by lra.
  rewrite (Rltb_ge 1 (1 / sqrt 2)) by lra.
  rewrite <- cos_PI4, acos_cos by lra. reflexivity.
Qed.

(** C6, evaluated: for the nonzero vectors (0, 1) and (0, 1/2), which
    point the same way, [angle] takes the branch of [y2 < y1] and
    returns 2*PI, a value outside [0, 2*PI) where the angle from the
    first to the second is 0; and for (0, 1) it returns PI/4 both to
    (1, 1) and to (-1, 1), which lie at that angle on the two different
    sides of (0, 1), so the value is not measured in one sense of
    rotation. *)
Theorem angle_same_direction_is_full_turn :
  (angle (0, 1) (0, 1 / 2) = Ok (2 * PI) /\ ~ (2 * PI < 2 * PI))
  /\ angle (0, 1) (1, 1) = Ok (PI / 4)
  /\ angle (0, 1) (-1, 1) = Ok (PI / 4).
Proof.
  split; [| split; apply angle_north_diagonal; lra].
  split; [| lra].
  unfold angle. rewrite (Rltb_lt (1 / 2) 1) by lra.
  rewrite !hypot_0_l by lra.
  unfold pydiv. rewrite (Reqb_neq (1 * (1 / 2)) 0) by lra. cbn [bind].
  replace ((0 * 0 + 1 * (1 / 2)) / (1 * (1 / 2))) with 1 by field.
  unfold py_acos. decide_R. cbn [bind]. rewrite acos_1. f_equal. ring.
Qed.

Lemma cos_full_turn_minus (a : R) : cos (PI - a + PI) = cos a.
Proof.
  replace (PI - a + PI) with (2 * PI - a) by ring.
  rewrite cos_minus, cos_2PI, sin_2PI. ring.
Qed.

Lemma sin_full_turn_minus (a : R) : sin (PI - a + PI) = - sin a.
Proof.
  replace (PI - a + PI) with (2 * PI - a) by ring.
  rewrite sin_minus, cos_2PI, sin_2PI. ring.
Qed.

Lemma sin_cos_sqr (a : R) : sin a * sin a + cos a * cos a = 1.
Proof. generalize (sin2_cos2 a). unfold Rsqr. tauto. Qed.

(** The quotient that [angle] hands to [math.acos] is a cosine. *)
Lemma quotient_bounds (x y : R) :
  (x, y) <> (0, 0) -> -1 <= x / hypot x y <= 1.
Proof.
  intros Hne. pose proof (hypot_pos x y Hne) as Hh.
  pose proof (hypot_sqr x y) as Hs.
  assert (Hle : - hypot x y <= x <= hypot x y) by nra.
  split.
  - apply Rmult_le_reg_r with (hypot x y); [assumption|].
    unfold Rdiv. rewrite Rmult_assoc, Rinv_l by lra. lra.
  - apply Rmult_le_reg_r with (hypot x y); [assumption|].
    unfold Rdiv. rewrite Rmult_assoc, Rinv_l by lra. lra.
Qed.

(** From the vector (1, 0), as every caller has it, [angle] is the
    polar angle of the second vector: it lies in [0, 2*PI), and
    [point_on_circle] at that angle points along the vector.  The branch
    that adds PI twice is taken exactly when [y < 0]. *)
Lemma angle_from_x_axis (x y : R) :
  (x, y) <> (0, 0) ->
  exists a, angle (1, 0) (x, y) = Ok a
            /\ 0 <= a < 2 * PI
            /\ x = hypot x y * cos a /\ y = hypot x y * sin a
            /\ (y < 0 -> a = PI - acos (x / hypot x y) + PI)
            /\ (0 <= y -> a = acos (x / hypot x y)).
Proof.
  intros Hne. pose proof (hypot_pos x y Hne) as Hh.
  pose proof (hypot_sqr x y) as Hs.
  pose proof (quotient_bounds x y Hne) as Hq.
  pose proof PI_RGT_0 as Hpi.
  set (h := hypot x y) in *. set (q := x / h) in *.
  assert (Hxq : x = h * q) by (unfold q; field; lra).
  pose proof (cos_acos q Hq) as Hc.
  pose proof (acos_bound q) as Hb.
  pose proof (sin_ge_0 (acos q) (proj1 Hb) (proj2 Hb)) as Hsin.
  pose proof (sin_cos_sqr (acos q)) as Hsc. rewrite Hc in Hsc.
  assert (Hy2 : (y + h * sin (acos q)) * (y - h * sin (acos q)) = 0).
  { replace ((y + h * sin (acos q)) * (y - h * sin (acos q)))
      with (y * y - h * h * (sin (acos q) * sin (acos q))) by ring.
    replace (sin (acos q) * sin (acos q)) with (1 - q * q) by lra.
    rewrite Hxq in Hs. nra. }
  assert (Hhs : 0 <= h * sin (acos q)) by (apply Rmult_le_pos; lra).
  assert (Hdiv : pydiv (1 * x + 0 * y) (hypot 1 0 * h) = Ok q).
  { unfold pydiv. rewrite hypot_0_r by lra.
    rewrite (Reqb_neq (1 * h) 0) by lra. f_equal. unfold q. field. lra. }
  assert (Hacos : py_acos q = Ok (acos q)).
  { unfold py_acos. now decide_R. }
  destruct (Rlt_dec y 0) as [Hy | Hy].
  - exists (PI - acos q + PI).
    unfold angle. fold h. rewrite (Rltb_lt y 0) by assumption.
    rewrite Hdiv. cbn [bind]. rewrite Hacos. cbn [bind].
    split; [reflexivity|].
    assert (Hpos : acos q <> 0).
    { intros H0. rewrite H0, cos_0 in Hc. rewrite H0, sin_0 in Hsc. nra. }
    split; [lra|].
    rewrite cos_full_turn_minus, sin_full_turn_minus, Hc.
    split; [assumption|].
    split; [destruct (Rmult_integral _ _ Hy2); lra |].
    split; [reflexivity | lra].
  - exists (acos q).
    unfold angle. fold h. rewrite (Rltb_ge y 0) by lra.
    rewrite Hdiv. cbn [bind]. rewrite Hacos.
    split; [reflexivity|]. split; [lra|]. rewrite Hc.
    split; [assumption|].
    split; [destruct (Rmult_integral _ _ Hy2); lra |].
    split; [lra | reflexivity].
Qed.

(** ** Candidate resolver *)

Lemma node_distance_eq {A B : Type} `{XY A} `{XY B} (a : A) (b : B) (d : R) :
  0 <= d ->
  (getx b - getx a) * (getx b - getx a) + (gety b - gety a) * (gety b - gety a) = d * d ->
  node_distance a b = d.
Proof.
  intros Hd Heq. unfold node_distance. apply sqrt_lem_1; try assumption.
  - nra.
  - rewrite <- Heq. ring.
Qed.

Lemma cand_len5_distance : node_distance (fst cand_len5) (snd cand_len5) = 5.
Proof. apply node_distance_eq; [lra | cbn; ring]. Qed.

Lemma cand_len2_distance : node_distance (fst cand_len2) (snd cand_len2) = 2.
Proof. apply node_distance_eq; [lra | cbn; ring]. Qed.

Lemma cand_len8_distance : node_distance (fst cand_len8) (snd cand_len8) = 8.
Proof. apply node_distance_eq; [lra | cbn; ring]. Qed.


(** ** Rounding and parallel offsets *)

Lemma Int_part_IZR (k : Z) : Int_part (IZR k) = k.
Proof. symmetry. apply Int_part_spec. lra. Qed.

Lemma py_round_exact (x : R) (k : Z) (n : nat) :
  x * 10 ^ n = IZR k -> py_round x n = x.
Proof.
  intros Hk. unfold py_round. rewrite Hk, Int_part_IZR.
  replace (IZR k - IZR k) with 0 by ring.
  rewrite (Rltb_lt 0 (1 / 2)) by lra.
  rewrite <- Hk. field. apply pow_nonzero. lra.
Qed.

Lemma py_round_IZR (k : Z) (n : nat) : py_round (IZR k) n = IZR k.
Proof.
  apply (py_round_exact _ (k * 10 ^ Z.of_nat n)).
  rewrite mult_IZR. f_equal.
  rewrite <- pow_IZR. reflexivity.
Qed.

Lemma py_round_offset : py_round distance_from_center_of_road 7 = distance_from_center_of_road.
Proof. apply (py_round_exact _ 1000). unfold distance_from_center_of_road. simpl. lra. Qed.

(** The offset on side 0 of a sub-segment that runs east along the
    x axis between two integer abscissas. *)
Lemma parallel_line_east (a b : Z) :
  (a < b)%Z ->
  get_parallel_line_points (mkNode (IZR a) 0 1) (mkNode (IZR b) 0 1)
                           distance_from_center_of_road 0
  = (mkNode (IZR a) distance_from_center_of_road 1,
     mkNode (IZR b) distance_from_center_of_road 1).
Proof.
  intros Hab. apply IZR_lt in Hab.
  unfold get_parallel_line_points. cbn [node_x node_y node_street_count Z.eqb].
  replace ((IZR a - IZR b) ^ 2 + (0 - 0) ^ 2) with ((IZR b - IZR a) * (IZR b - IZR a)) by ring.
  rewrite sqrt_square by lra.
  rewrite (Reqb_neq (IZR b - IZR a) 0) by lra.
  set (t := distance_from_center_of_road / (IZR b - IZR a)).
  assert (Ht : t * (IZR b - IZR a) = distance_from_center_of_road)
    by (unfold t; field; lra).
  replace ((1 - t) * IZR a + t * (IZR a + (0 - 0))) with (IZR a) by ring.
  replace ((1 - t) * IZR b + t * (IZR b + (0 - 0))) with (IZR b) by ring.
  replace ((1 - t) * 0 + t * (0 + -1 * (IZR a - IZR b)))
    with distance_from_center_of_road by (rewrite <- Ht; ring).
  rewrite !py_round_IZR, py_round_offset. reflexivity.
Qed.

(** ** Degenerate geometry in the curved walk *)

Lemma get_intersection_point_raises (line1 line2 : Line) :
  det (fst (fst line1) - fst (snd line1), fst (fst line2) - fst (snd line2))
      (snd (fst line1) - snd (snd line1), snd (fst line2) - snd (snd line2)) = 0 ->
  get_intersection_point line1 line2 = Raise LinesDoNotIntersect.
Proof.
  intros Hdet. unfold get_intersection_point. rewrite Hdet, Reqb_refl. reflexivity.
Qed.

Lemma closest_corner_single {B : Type} `{XY B} (c : TrenchCorner) (target : B) (bound : R) :
  node_distance c target < bound ->
  closest_corner [c] target None bound = (Some c, node_distance c target).
Proof. intros Hlt. cbn [closest_corner]. now rewrite (Rltb_lt _ _ Hlt). Qed.

Lemma collinear_linestring :
  get_trench_linestring [collinear_u_corner] [collinear_v_corner]
                        collinear_geometry distance_from_center_of_road 0
  = Raise LinesDoNotIntersect.
Proof.
  unfold get_trench_linestring, collinear_geometry.
  cbn [walk walk_step walk_init last_road_point bind fst snd].
  rewrite (parallel_line_east 0 1) by lia.
  cbn [last_line last_road_point bind fst snd node_x node_y].
  rewrite closest_corner_single.
  2:{ rewrite (node_distance_eq _ _ 0); [lra | lra | cbn; ring]. }
  cbn [fst snd need bind tc_x tc_y collinear_u_corner walk_init last_road_point
       last_line closest_u_for_trench last_trench_point linestring
       total_road_length].
  rewrite (parallel_line_east 1 2) by lia.
  cbn [node_x node_y bind].
  rewrite get_intersection_point_raises; [reflexivity|].
  unfold det. cbn [fst snd]. ring.
Qed.

(** The exception of the miter computation leaves the curved-street
    branch: nothing between [get_intersection_point] and the loop over
    the edges of the road graph catches it. *)
Lemma collinear_curved_street :
  curved_street 1 2 (mkNode 0 0 1) (mkNode 2 0 1) [collinear_u_corner; collinear_v_corner]
                collinear_geometry edge_loop_init
  = Raise LinesDoNotIntersect.
Proof.
  pose proof collinear_linestring as Hraise.
  unfold curved_street, filter_set, collinear_geometry.
  cbn [fold_left tc_u collinear_u_corner collinear_v_corner Z.eqb Pos.eqb set_add set_mem
       existsb app index index_from_end nth_error length Nat.ltb Nat.leb Nat.sub bind
       fst snd node_x node_y].
  rewrite !Reqb_refl. cbn [andb bind].
  unfold split_sides, point_distance_from_line, Rgtb.
  cbn [filter fst snd getx gety XY_pair XY_TrenchCorner tc_x tc_y
       collinear_u_corner collinear_v_corner].
  unfold distance_from_center_of_road at 1 2 3 4. decide_R. cbn [negb].
  unfold curved_side. cbn [side_of Z.eqb fst snd length Nat.ltb Nat.leb andb].
  fold collinear_geometry. rewrite Hraise. reflexivity.
Qed.


(** C2, evaluated: on a curved street whose two sub-segments are
    collinear the two offset lines are parallel, the determinant of the
    miter computation is zero, and [get_trench_linestring] ends with
    the exception of [get_intersection_point]: there is no fallback to
    nearest-corner snapping, and the exception ends the curved-street
    branch of the loop over the edges as well. *)
Theorem collinear_street_raises :
  get_trench_linestring [collinear_u_corner] [collinear_v_corner]
                        collinear_geometry distance_from_center_of_road 0
  = Raise LinesDoNotIntersect
  /\ curved_street 1 2 (mkNode 0 0 1) (mkNode 2 0 1)
                   [collinear_u_corner; collinear_v_corner]
                   collinear_geometry edge_loop_init
     = Raise LinesDoNotIntersect.
Proof. split; [exact collinear_linestring | exact collinear_curved_street]. Qed.

(** ** Snapping the ends of a curved trench *)

Lemma py_round_neg_offset :
  py_round (- distance_from_center_of_road) 7 = - distance_from_center_of_road.
Proof. apply (py_round_exact _ (-1000)). unfold distance_from_center_of_road. simpl. lra. Qed.

Lemma parallel_line_east_side1 (a b : Z) :
  (a < b)%Z ->
  get_parallel_line_points (mkNode (IZR a) 0 1) (mkNode (IZR b) 0 1)
                           distance_from_center_of_road 1
  = (mkNode (IZR a) (- distance_from_center_of_road) 1,
     mkNode (IZR b) (- distance_from_center_of_road) 1).
Proof.
  intros Hab. apply IZR_lt in Hab.
  unfold get_parallel_line_points. cbn [node_x node_y node_street_count Z.eqb Pos.eqb].
  replace ((IZR a - IZR b) ^ 2 + (0 - 0) ^ 2) with ((IZR b - IZR a) * (IZR b - IZR a)) by ring.
  rewrite sqrt_square by lra.
  rewrite (Reqb_neq (IZR b - IZR a) 0) by lra.
  set (t := distance_from_center_of_road / (IZR b - IZR a)).
  assert (Ht : t * (IZR b - IZR a) = distance_from_center_of_road)
    by (unfold t; field; lra).
  replace ((1 - t) * IZR a + t * (IZR a + -1 * (0 - 0))) with (IZR a) by ring.
  replace ((1 - t) * IZR b + t * (IZR b + -1 * (0 - 0))) with (IZR b) by ring.
  replace ((1 - t) * 0 + t * (0 + (IZR a - IZR b)))
    with (- distance_from_center_of_road) by (rewrite <- Ht; ring).
  rewrite !py_round_IZR, py_round_neg_offset. reflexivity.
Qed.

Lemma node_distance_lt {A B : Type} `{XY A} `{XY B} (a : A) (b : B) (bound : R) :
  0 < bound ->
  (getx b - getx a) * (getx b - getx a) + (gety b - gety a) * (gety b - gety a)
    < bound * bound ->
  node_distance a b < bound.
Proof.
  intros Hb Hlt. unfold node_distance.
  rewrite <- (sqrt_square bound) by lra.
  set (dx := getx b - getx a) in *. set (dy := gety b - gety a) in *.
  replace (dx ^ 2 + dy ^ 2) with (dx * dx + dy * dy) by ring.
  pose proof (Rle_0_sqr dx) as Hx. pose proof (Rle_0_sqr dy) as Hy.
  unfold Rsqr in Hx, Hy.
  apply sqrt_lt_1; lra.
Qed.

Lemma node_distance_nonneg {A B : Type} `{XY A} `{XY B} (a : A) (b : B) :
  0 <= node_distance a b.
Proof. apply sqrt_pos. Qed.

Lemma snap_linestring :
  get_trench_linestring [snap_u_corner] [snap_v_near; snap_v_far]
                        snap_geometry distance_from_center_of_road 1
  = Ok snap_trench.
Proof.
  pose proof (parallel_line_east_side1 0 4 ltac:(lia)) as Hpar.
  assert (Hnear : node_distance snap_v_near (4, 4) = 4 + distance_from_center_of_road).
  { apply node_distance_eq; cbn; unfold distance_from_center_of_road; [lra | field]. }
  assert (Hfar : node_distance snap_v_far (4, 4) < 4 + distance_from_center_of_road).
  { apply node_distance_lt; cbn; unfold distance_from_center_of_road; lra. }
  unfold get_trench_linestring, snap_geometry.
  cbn [walk walk_step walk_init last_road_point last_line bind fst snd].
  rewrite Hpar. cbn [node_x node_y].
  rewrite closest_corner_single.
  2:{ rewrite (node_distance_eq _ _ 0); [lra | lra | cbn; ring]. }
  cbn [fst snd need bind last_trench_point closest_corner].
  rewrite Hnear.
  rewrite (Rltb_lt (4 + distance_from_center_of_road) 10000000)
    by (unfold distance_from_center_of_road; lra).
  rewrite (Rltb_lt _ _ Hfar).
  reflexivity.
Qed.

(** C5, evaluated: the last point of the polyline is the corner nearest
    to the point whose two coordinates are both the abscissa of the
    final offset point, here (4, 4), and not the corner nearest to the
    final offset point (4, -1/10000) itself. *)
Theorem last_point_snaps_to_the_wrong_corner :
  get_trench_linestring [snap_u_corner] [snap_v_near; snap_v_far]
                        snap_geometry distance_from_center_of_road 1
  = Ok snap_trench
  /\ v_for_edge snap_trench = snap_v_far
  /\ last (ct_geometry snap_trench) (0, 0) = (tc_x snap_v_far, tc_y snap_v_far)
  /\ (let final_offset_point :=
        snd (get_parallel_line_points (mkNode 0 0 1) (mkNode 4 0 1)
                                      distance_from_center_of_road 1) in
      node_distance snap_v_near final_offset_point
      < node_distance snap_v_far final_offset_point).
Proof.
  split; [exact snap_linestring|]. split; [reflexivity|]. split; [reflexivity|].
  rewrite (parallel_line_east_side1 0 4) by lia. cbn [snd].
  rewrite (node_distance_eq snap_v_near _ 0); [| lra | cbn; ring].
  assert (0 <= node_distance snap_v_far (mkNode 4 (- distance_from_center_of_road) 1))
    by apply node_distance_nonneg.
  destruct (Req_dec_T (node_distance snap_v_far
                         (mkNode 4 (- distance_from_center_of_road) 1)) 0) as [H0 | H0];
    [| lra].
  exfalso. unfold node_distance in H0. apply sqrt_eq_0 in H0.
  - cbn in H0. unfold distance_from_center_of_road in H0. lra.
  - cbn. nra.
Qed.

(** ** Dictionaries *)

Section DictFacts.
Context {K V : Type} (eqb : K -> K -> bool).
Hypothesis eqb_refl : forall k, eqb k k = true.
Hypothesis eqb_compat : forall a b c, eqb a b = true -> eqb a c = eqb b c.

Lemma dict_get_set_eqb (d : list (K * V)) (k k2 : K) (v : V) :
  eqb k k2 = true -> dict_get eqb (dict_set eqb d k v) k2 = Some v.
Proof.
  intros Hk. induction d as [| [k' v'] rest IH]; cbn [dict_set dict_get].
  - now rewrite Hk.
  - destruct (eqb k' k) eqn:Ek; cbn [dict_get].
    + now rewrite (eqb_compat k' k k2 Ek), Hk.
    + destruct (eqb k' k2) eqn:Ek2; [| exact IH].
      exfalso.
      pose proof (eqb_compat k' k2 k Ek2) as H1.
      pose proof (eqb_compat k k2 k Hk) as H2.
      rewrite eqb_refl in H2. congruence.
Qed.

Lemma dict_get_set_other (d : list (K * V)) (k k2 : K) (v : V) :
  eqb k k2 = false -> dict_get eqb (dict_set eqb d k v) k2 = dict_get eqb d k2.
Proof.
  intros Hk. induction d as [| [k' v'] rest IH]; cbn [dict_set dict_get].
  - now rewrite Hk.
  - destruct (eqb k' k) eqn:Ek; cbn [dict_get].
    + now rewrite (eqb_compat k' k k2 Ek), Hk.
    + destruct (eqb k' k2); [reflexivity | exact IH].
Qed.
End DictFacts.

(** ** Lengths of the merged edges *)

Lemma Reqb_compat (a b c : R) : Reqb a b = true -> Reqb a c = Reqb b c.
Proof. intros H. apply Reqb_true_iff in H. now subst. Qed.

Lemma corner_eqb_refl (c : TrenchCorner) : corner_eqb c c = true.
Proof. unfold corner_eqb. now rewrite !Reqb_refl. Qed.

Lemma corner_eqb_true_iff (a b : TrenchCorner) :
  corner_eqb a b = true <-> tc_x a = tc_x b /\ tc_y a = tc_y b.
Proof.
  unfold corner_eqb. rewrite andb_true_iff, !Reqb_true_iff. tauto.
Qed.

Lemma corner_eqb_compat (a b c : TrenchCorner) :
  corner_eqb a b = true -> corner_eqb a c = corner_eqb b c.
Proof.
  intros H. apply corner_eqb_true_iff in H. destruct H as [Hx Hy].
  unfold corner_eqb. now rewrite Hx, Hy.
Qed.

Lemma NodeKey_eqb_refl (k : NodeKey) : NodeKey_eqb k k = true.
Proof. destruct k; cbn; [apply Z.eqb_refl | apply corner_eqb_refl]. Qed.

Lemma NodeKey_eqb_compat (a b c : NodeKey) :
  NodeKey_eqb a b = true -> NodeKey_eqb a c = NodeKey_eqb b c.
Proof.
  destruct a, b, c; cbn; intros H; try discriminate; try reflexivity.
  - apply Z.eqb_eq in H. now subst.
  - now apply corner_eqb_compat.
Qed.

Lemma EdgeKey_eqb_refl (k : EdgeKey) : EdgeKey_eqb k k = true.
Proof.
  destruct k as [[u v] key]. cbn.
  now rewrite !NodeKey_eqb_refl, Z.eqb_refl.
Qed.

Lemma EdgeKey_eqb_compat (a b c : EdgeKey) :
  EdgeKey_eqb a b = true -> EdgeKey_eqb a c = EdgeKey_eqb b c.
Proof.
  destruct a as [[u1 v1] k1], b as [[u2 v2] k2], c as [[u3 v3] k3]. cbn.
  rewrite !andb_true_iff. intros [[Hu Hv] Hk].
  apply Z.eqb_eq in Hk. subst.
  now rewrite (NodeKey_eqb_compat _ _ _ Hu), (NodeKey_eqb_compat _ _ _ Hv).
Qed.

(** [add_edge] writes the length it is given and leaves the length of
    every other edge alone. *)
Lemma edge_length_add_edge (g : TrenchGraph) (u v : NodeKey) (key : Z)
    (attr : EdgeAttrs) (len : R) (k : EdgeKey) :
  e_length attr = Some len ->
  edge_length (add_edge g u v key attr) k
  = if EdgeKey_eqb (u, v, key) k then Some len else edge_length g k.
Proof.
  intros Hlen. unfold edge_length, add_edge. cbn [tg_edges].
  destruct (EdgeKey_eqb (u, v, key) k) eqn:Ek.
  - rewrite (dict_get_set_eqb EdgeKey_eqb EdgeKey_eqb_refl EdgeKey_eqb_compat) by exact Ek.
    cbn [update_attrs e_length]. now rewrite Hlen.
  - now rewrite (dict_get_set_other EdgeKey_eqb EdgeKey_eqb_compat) by exact Ek.
Qed.

Lemma add_edge_keeps_length (g : TrenchGraph) (u v : NodeKey) (key : Z)
    (attr : EdgeAttrs) (len : R) (k : EdgeKey) :
  e_length attr = Some len ->
  edge_length g k = Some len ->
  edge_length (add_edge g u v key attr) k = Some len.
Proof.
  intros Hlen Hk. rewrite (edge_length_add_edge _ _ _ _ _ len) by exact Hlen.
  now destruct (EdgeKey_eqb (u, v, key) k).
Qed.



Lemma crossings_of_street_keep_length (sid : StreetId) (crossings : list (Z * Z))
    (g : TrenchGraph) (k : EdgeKey) :
  edge_length g k = Some trench_length ->
  edge_length
    (fold_left (fun g crossing =>
                  add_edge g (NodeId (fst crossing)) (NodeId (snd crossing)) 1
                           (crossing_attrs sid)) crossings g) k
  = Some trench_length.
Proof.
  revert g. induction crossings as [| c rest IH]; intros g Hk; [exact Hk|].
  cbn [fold_left]. apply IH. now apply add_edge_keeps_length.
Qed.

Lemma crossings_keep_length (rc : list (StreetId * list (Z * Z))) (g : TrenchGraph)
    (k : EdgeKey) :
  edge_length g k = Some trench_length ->
  edge_length (add_crossings rc g) k = Some trench_length.
Proof.
  revert g. induction rc as [| [sid crossings] rest IH]; intros g Hk; [exact Hk|].
  cbn [add_crossings fold_left]. fold (add_crossings rest).
  apply IH. now apply crossings_of_street_keep_length.
Qed.



Lemma crossings_set_length (rc : list (StreetId * list (Z * Z))) (g : TrenchGraph)
    (sid : StreetId) (crossings : list (Z * Z)) (crossing : Z * Z) :
  In (sid, crossings) rc -> In crossing crossings ->
  edge_length (add_crossings rc g) (NodeId (fst crossing), NodeId (snd crossing), 1%Z)
  = Some trench_length.
Proof.
  revert g. induction rc as [| [sid' crossings'] rest IH]; intros g Hin Hc.
  - destruct Hin.
  - cbn [add_crossings fold_left]. fold (add_crossings rest).
    destruct Hin as [[= -> ->] | Hin]; [| now apply IH].
    apply crossings_keep_length. cbn [fst snd]. clear IH.
    revert g. induction crossings as [| c more IHc]; intros g; [destruct Hc|].
    cbn [fold_left]. destruct Hc as [-> | Hc]; [| now apply IHc].
    apply crossings_of_street_keep_length.
    rewrite (edge_length_add_edge _ _ _ _ _ trench_length) by reflexivity.
    now rewrite EdgeKey_eqb_refl.
Qed.


(** ** The rejection test of the straight streets *)

Lemma is_between_on_segment (a b : R * R) (t : R) :
  0 <= t <= 1 ->
  is_between a b (fst a + t * (fst b - fst a), snd a + t * (snd b - snd a)) = true.
Proof.
  intros Ht. unfold is_between, Rgtb. cbn [fst snd].
  set (dx := fst b - fst a). set (dy := snd b - snd a).
  replace ((snd a + t * dy - snd a) * dx - (fst a + t * dx - fst a) * dy) with 0 by ring.
  rewrite Rabs_R0. rewrite (Rltb_ge (5 / 100000000) 0) by lra.
  replace ((fst a + t * dx - fst a) * dx + (snd a + t * dy - snd a) * dy)
    with (t * (dx * dx + dy * dy)) by ring.
  pose proof (Rle_0_sqr dx) as Hx. pose proof (Rle_0_sqr dy) as Hy. unfold Rsqr in Hx, Hy.
  rewrite (Rltb_ge (t * (dx * dx + dy * dy)) 0) by nra.
  rewrite (Rltb_ge (dx * dx + dy * dy) (t * (dx * dx + dy * dy))) by nra.
  reflexivity.
Qed.

(** The test accepts exactly what it should reject when the line of the
    pair meets the street segment in one point. *)
Lemma intersection_between_points_crossing (u_node v_node : Node) (c : Candidate) :
  crosses_street u_node v_node c ->
  intersection_between_points (u_node, v_node) c = true.
Proof.
  intros [Hnp (p & Hline & (t & Ht & Hpx & Hpy))].
  unfold parallel_lines, on_line, xy_of in *. cbn [fst snd getx gety XY_Node XY_TrenchCorner] in *.
  unfold intersection_between_points, det.
  cbn [fst snd getx gety XY_Node XY_TrenchCorner].
  destruct c as [c0 c1]. cbn [fst snd] in *.
  set (ux := node_x u_node) in *. set (uy := node_y u_node) in *.
  set (vx := node_x v_node) in *. set (vy := node_y v_node) in *.
  set (ax := tc_x c0) in *. set (ay := tc_y c0) in *.
  set (bx := tc_x c1) in *. set (by_ := tc_y c1) in *.
  set (div := (ux - vx) * (ay - by_) - (ax - bx) * (uy - vy)).
  assert (Hdiv : div <> 0).
  { intros H0. apply Hnp. rewrite <- H0. unfold div. ring. }
  rewrite (Reqb_neq div 0) by exact Hdiv.
  rewrite Hpx, Hpy in Hline.
  assert (Htd : t * div = (ux - ax) * (ay - by_) - (uy - ay) * (ax - bx)).
  { unfold div. lra. }
  assert (Hx : ((ux * vy - uy * vx) * (ax - bx) - (ax * by_ - ay * bx) * (ux - vx)) / div
               = ux + t * (vx - ux)).
  { apply Rmult_eq_reg_r with div; [| exact Hdiv].
    unfold Rdiv. rewrite Rmult_assoc, Rinv_l, Rmult_1_r by exact Hdiv.
    replace ((ux + t * (vx - ux)) * div) with (ux * div + (vx - ux) * (t * div)) by ring.
    rewrite Htd. unfold div. ring. }
  assert (Hy : ((ux * vy - uy * vx) * (ay - by_) - (ax * by_ - ay * bx) * (uy - vy)) / div
               = uy + t * (vy - uy)).
  { apply Rmult_eq_reg_r with div; [| exact Hdiv].
    unfold Rdiv. rewrite Rmult_assoc, Rinv_l, Rmult_1_r by exact Hdiv.
    replace ((uy + t * (vy - uy)) * div) with (uy * div + (vy - uy) * (t * div)) by ring.
    rewrite Htd. unfold div. ring. }
  rewrite Hx, Hy.
  pose proof (is_between_on_segment (ux, uy) (vx, vy) t Ht) as Hb.
  cbn [fst snd] in Hb. now rewrite Hb.
Qed.

Lemma consider_pair_new_pp (u_node v_node : Node) (sid : StreetId) (side_id : Z)
    (st : list CandHash * EdgeLoopState) (pair : TrenchCorner * TrenchCorner) :
  exists added,
    new_pp (snd (consider_pair u_node v_node sid side_id st pair))
    = new_pp (snd st) ++ map Some added
    /\ Forall (fun c => intersection_between_points (u_node, v_node) c = false) added.
Proof.
  destruct st as [added_trenches es]. unfold consider_pair.
  destruct (negb (tc_u (fst pair) =? tc_u (snd pair))%Z).
  - destruct (intersection_between_points (u_node, v_node) (fst pair, snd pair)) eqn:Ecross;
      cbn [negb andb].
    + exists []. cbn. now rewrite app_nil_r.
    + destruct (negb (existsb _ added_trenches)).
      * exists [(fst pair, snd pair)]. cbn [snd new_pp map]. split; [reflexivity|].
        constructor; [exact Ecross | constructor].
      * exists []. cbn. now rewrite app_nil_r.
  - exists []. cbn. now rewrite app_nil_r.
Qed.

Lemma consider_pairs_new_pp (u_node v_node : Node) (sid : StreetId) (side_id : Z)
    (pairs : list (TrenchCorner * TrenchCorner)) (st : list CandHash * EdgeLoopState) :
  exists added,
    new_pp (snd (fold_left (consider_pair u_node v_node sid side_id) pairs st))
    = new_pp (snd st) ++ map Some added
    /\ Forall (fun c => intersection_between_points (u_node, v_node) c = false) added.
Proof.
  revert st. induction pairs as [| pair rest IH]; intros st.
  - exists []. cbn. now rewrite app_nil_r.
  - cbn [fold_left].
    destruct (consider_pair_new_pp u_node v_node sid side_id st pair) as (a1 & E1 & F1).
    destruct (IH (consider_pair u_node v_node sid side_id st pair)) as (a2 & E2 & F2).
    exists (a1 ++ a2). rewrite E2, E1, map_app, app_assoc. split; [reflexivity|].
    apply Forall_app. now split.
Qed.

Lemma straight_street_new_pp (u v : Z) (u_node v_node : Node) (sid : StreetId)
    (corners : list TrenchCorner) (es : EdgeLoopState) :
  exists added,
    new_pp (straight_street u v u_node v_node sid corners es)
    = new_pp es ++ map Some added
    /\ Forall (fun c => intersection_between_points (u_node, v_node) c = false) added.
Proof.
  unfold straight_street.
  set (sides := split_sides _ _).
  destruct (consider_pairs_new_pp u_node v_node sid 0
              (combinations2 (side_of sides 0)) ([], es)) as (a1 & E1 & F1).
  destruct (consider_pairs_new_pp u_node v_node sid 1
              (combinations2 (side_of sides 1))
              (fold_left (consider_pair u_node v_node sid 0)
                         (combinations2 (side_of sides 0)) ([], es)))
    as (a2 & E2 & F2).
  exists (a1 ++ a2). rewrite E2, E1, map_app, app_assoc. split; [reflexivity|].
  apply Forall_app. now split.
Qed.

(** The resolver only ever marks candidates as not to be used. *)
Lemma invalidate_only_invalidates (store : list (option Candidate)) (ref i : nat)
    (c : Candidate) :
  nth_error (invalidate store ref) i = Some (Some c) ->
  nth_error store i = Some (Some c).
Proof.
  revert ref i. induction store as [| x rest IH]; intros ref i H.
  - destruct ref; exact H.
  - destruct ref as [| ref']; cbn [invalidate] in H.
    + destruct i; [discriminate | exact H].
    + destruct i; [exact H | cbn [nth_error] in *; now apply (IH ref')].
Qed.

Lemma resolve_side_loop_only_invalidates (side : list nat)
    (store : list (option Candidate)) (sp : option nat) (sd : R) (i : nat)
    (c : Candidate) :
  nth_error (resolve_side_loop side store sp sd) i = Some (Some c) ->
  nth_error store i = Some (Some c).
Proof.
  revert store sp sd. induction side as [| ref rest IH]; intros store sp sd H.
  - exact H.
  - cbn [resolve_side_loop] in H.
    destruct (nth_error store ref) as [[cand |] |]; try (now apply IH in H).
    destruct (Rltb _ sd); [| now apply IH in H].
    apply IH in H. destruct sp as [sp |]; [| exact H].
    now apply invalidate_only_invalidates in H.
Qed.

Lemma resolve_side_only_invalidates (store : list (option Candidate)) (side : list nat)
    (i : nat) (c : Candidate) :
  nth_error (resolve_side store side) i = Some (Some c) ->
  nth_error store i = Some (Some c).
Proof.
  unfold resolve_side. destruct (1 <? length side)%nat; [| easy].
  apply resolve_side_loop_only_invalidates.
Qed.

Lemma resolve_streets_only_invalidates
    (streets : list (CandHash * (list nat * list nat)))
    (store : list (option Candidate)) (i : nat) (c : Candidate) :
  nth_error (resolve_streets store streets) i = Some (Some c) ->
  nth_error store i = Some (Some c).
Proof.
  revert store. induction streets as [| entry rest IH]; intros store H; [exact H|].
  unfold resolve_streets in H. cbn [fold_left] in H. fold (resolve_streets) in H.
  apply IH in H. now apply resolve_side_only_invalidates in H;
    apply resolve_side_only_invalidates in H.
Qed.

Lemma resolve_candidates_only_invalidates
    (pe : list (StreetId * list (CandHash * (list nat * list nat))))
    (store : list (option Candidate)) (i : nat) (c : Candidate) :
  nth_error (resolve_candidates pe store) i = Some (Some c) ->
  nth_error store i = Some (Some c).
Proof.
  revert store. induction pe as [| entry rest IH]; intros store H; [exact H|].
  unfold resolve_candidates in H. cbn [fold_left] in H. fold (resolve_candidates) in H.
  apply IH in H. now apply resolve_streets_only_invalidates in H.
Qed.

(** C7: whatever the straight-street branch adds to the candidates for
    the street between [u_node] and [v_node] passed the rejection test,
    and the line through such a pair of corners does not cross the
    street segment; the candidates that are valid after the resolver
    has run are among them. *)
Theorem straight_candidates_do_not_cross (u v : Z) (u_node v_node : Node)
    (sid : StreetId) (corners : list TrenchCorner) (es : EdgeLoopState) :
  let es' := straight_street u v u_node v_node sid corners es in
  exists added,
    new_pp es' = new_pp es ++ map Some added
    /\ (forall c, In c added -> ~ crosses_street u_node v_node c)
    /\ (forall pe i c,
          (length (new_pp es) <= i)%nat ->
          nth_error (resolve_candidates pe (new_pp es')) i = Some (Some c) ->
          In c added /\ ~ crosses_street u_node v_node c).
Proof.
  intros es'. subst es'.
  destruct (straight_street_new_pp u v u_node v_node sid corners es) as (added & E & F).
  exists added. split; [exact E|].
  assert (Hnc : forall c, In c added -> ~ crosses_street u_node v_node c).
  { intros c Hin Hcross. rewrite Forall_forall in F.
    specialize (F c Hin).
    rewrite (intersection_between_points_crossing _ _ _ Hcross) in F.
    discriminate. }
  split; [exact Hnc|].
  intros pe i c Hi Hnth.
  apply resolve_candidates_only_invalidates in Hnth.
  rewrite E in Hnth. rewrite nth_error_app2 in Hnth by exact Hi.
  apply nth_error_In in Hnth. apply in_map_iff in Hnth.
  destruct Hnth as (c' & [= ->] & Hin). split; [exact Hin | now apply Hnc].
Qed.

(** ** Angles of the streets of the examples *)

Lemma angle_east (x y : R) : 0 < x -> y = 0 -> angle (1, 0) (x, y) = Ok 0.
Proof.
  intros Hx ->. unfold angle. rewrite (Rltb_ge 0 0) by lra.
  rewrite !hypot_0_r by lra. unfold pydiv. rewrite (Reqb_neq (1 * x) 0) by lra.
  cbn [bind]. replace ((1 * x + 0 * 0) / (1 * x)) with 1 by (field; lra).
  unfold py_acos. decide_R. now rewrite acos_1.
Qed.

Lemma angle_north (x y : R) : x = 0 -> 0 < y -> angle (1, 0) (x, y) = Ok (PI / 2).
Proof.
  intros -> Hy. unfold angle. rewrite (Rltb_ge y 0) by lra.
  rewrite hypot_0_r, hypot_0_l by lra. unfold pydiv. rewrite (Reqb_neq (1 * y) 0) by lra.
  cbn [bind]. replace ((1 * 0 + 0 * y) / (1 * y)) with 0 by (field; lra).
  unfold py_acos. decide_R. now rewrite acos_0.
Qed.

Lemma acos_minus_1 : acos (-1) = PI.
Proof.
  replace (acos (-1)) with (acos (Ropp 1)) by (f_equal; lra).
  rewrite acos_opp, acos_1. ring.
Qed.

Lemma angle_west (x y : R) : x < 0 -> y = 0 -> angle (1, 0) (x, y) = Ok PI.
Proof.
  intros Hx ->. unfold angle. rewrite (Rltb_ge 0 0) by lra.
  rewrite hypot_0_r by lra.
  assert (Hh : hypot x 0 = - x).
  { unfold hypot. replace (x * x + 0 * 0) with ((- x) * (- x)) by ring.
    apply sqrt_square. lra. }
  rewrite Hh. unfold pydiv. rewrite (Reqb_neq (1 * - x) 0) by lra.
  cbn [bind]. replace ((1 * x + 0 * 0) / (1 * - x)) with (-1) by (field; lra).
  unfold py_acos. decide_R. now rewrite acos_minus_1.
Qed.

Lemma angle_south (x y : R) :
  x = 0 -> y < 0 -> angle (1, 0) (x, y) = Ok (3 * (PI / 2)).
Proof.
  intros -> Hy. unfold angle. rewrite (Rltb_lt y 0) by lra.
  rewrite hypot_0_r by lra.
  assert (Hh : hypot 0 y = - y).
  { unfold hypot. replace (0 * 0 + y * y) with ((- y) * (- y)) by ring.
    apply sqrt_square. lra. }
  rewrite Hh. unfold pydiv. rewrite (Reqb_neq (1 * - y) 0) by lra.
  cbn [bind]. replace ((1 * 0 + 0 * y) / (1 * - y)) with 0 by (field; lra).
  unfold py_acos. decide_R. cbn [bind]. rewrite acos_0. f_equal. field.
Qed.

Lemma fan_neighbors : neighbors_of fan_network 1 = [2; 3; 4]%Z.
Proof. reflexivity. Qed.

Lemma fan_collect :
  collect_neighbors fan_network 1 (mkNode 0 0 3) [2; 3; 4]%Z [] = Ok [(0, 4%Z)].
Proof.
  cbn [collect_neighbors street_radian fan_network net_nodes net_edges getitem dict_get
       Z.eqb Pos.eqb get_edge_data0 edge_key_eqb andb bind e_geometry
       straight_street_data node_x node_y].
  rewrite (angle_east (1 - 0) (0 - 0)) by lra. cbn [bind dict_set].
  rewrite (angle_east (2 - 0) (0 - 0)) by lra. cbn [bind dict_set].
  rewrite Reqb_refl.
  rewrite (angle_east (3 - 0) (0 - 0)) by lra. cbn [bind dict_set].
  rewrite Reqb_refl. reflexivity.
Qed.

(** ** Evaluating the corner synthesizer *)

Lemma getitem_head {K V : Type} (eqb : K -> K -> bool) (k : K) (v : V)
    (rest : list (K * V)) (k2 : K) :
  eqb k k2 = true -> getitem eqb ((k, v) :: rest) k2 = Ok v.
Proof. intros H. unfold getitem. cbn [dict_get]. now rewrite H. Qed.

Lemma getitem_skip {K V : Type} (eqb : K -> K -> bool) (k : K) (v : V)
    (rest : list (K * V)) (k2 : K) :
  eqb k k2 = false -> getitem eqb ((k, v) :: rest) k2 = getitem eqb rest k2.
Proof. intros H. unfold getitem. cbn [dict_get]. now rewrite H. Qed.

Lemma corner_eqb_neq_x (a b : TrenchCorner) : tc_x a <> tc_x b -> corner_eqb a b = false.
Proof. intros H. unfold corner_eqb. now rewrite (Reqb_neq _ _ H). Qed.

Lemma corner_eqb_neq_y (a b : TrenchCorner) : tc_y a <> tc_y b -> corner_eqb a b = false.
Proof. intros H. unfold corner_eqb. rewrite (Reqb_neq _ _ H). apply andb_false_r. Qed.

Lemma corner_eqb_eq (a b : TrenchCorner) :
  tc_x a = tc_x b -> tc_y a = tc_y b -> corner_eqb a b = true.
Proof. intros Hx Hy. apply corner_eqb_true_iff. now split. Qed.

Lemma cos_quarter (r : R) : cos (r + PI * (5 / 10)) = - sin r.
Proof.
  replace (PI * (5 / 10)) with (PI / 2) by field.
  rewrite cos_plus, cos_PI2, sin_PI2. ring.
Qed.

Lemma sin_quarter (r : R) : sin (r + PI * (5 / 10)) = cos r.
Proof.
  replace (PI * (5 / 10)) with (PI / 2) by field.
  rewrite sin_plus, cos_PI2, sin_PI2. ring.
Qed.

Lemma cos_three_quarters (r : R) : cos (r + PI * (15 / 10)) = sin r.
Proof.
  replace (PI * (15 / 10)) with (3 * (PI / 2)) by field.
  rewrite cos_plus, cos_3PI2, sin_3PI2. ring.
Qed.

Lemma sin_three_quarters (r : R) : sin (r + PI * (15 / 10)) = - cos r.
Proof.
  replace (PI * (15 / 10)) with (3 * (PI / 2)) by field.
  rewrite sin_plus, cos_3PI2, sin_3PI2. ring.
Qed.

(** Unfolds the synthesizer on the part of the state that is known. *)
Ltac eval_corners :=
  cbn [bind map fst snd sort_R fold_right insert_sorted corner_loop corner_step
       process_intersections
       loop_vars_init corner_state_init last_radian first_radian first_street_id
       last_street_id last_node_id first_node_id street_segment_id
       nodes output_trench_corners output_road_crossing node_id
       getitem dict_get dict_set dict_mem setdefault
       length Nat.ltb Nat.leb Nat.eqb street_id_of Z.min Z.max Z.compare
       Pos.compare Pos.compare_cont
       wrap_around dead_end dead_end_corner need point_on_circle
       getx gety XY_Node node_x node_y
       new_TrenchCorner set_of_ids not_in_buckets StreetId_eqb Z.eqb Pos.eqb
       andb orb negb set_mem existsb
       with_node_for_adding tc_x tc_y tc_trench_count tc_u tc_street_count
       tc_street_ids tc_node_for_adding
       bucket_add set_add app crossing_append node_for_adding corner_hash
       Z.add Pos.add Pos.succ Pos.add_carry].

Ltac trig_values :=
  rewrite ?cos_quarter, ?sin_quarter, ?cos_three_quarters, ?sin_three_quarters,
          ?cos_0, ?sin_0, ?cos_PI2, ?sin_PI2, ?cos_PI, ?sin_PI.

Ltac corners_differ :=
  first [ rewrite corner_eqb_neq_x
            by (cbn [tc_x with_node_for_adding new_TrenchCorner]; trig_values;
                unfold distance_from_center_of_road; lra)
        | rewrite corner_eqb_neq_y
            by (cbn [tc_y with_node_for_adding new_TrenchCorner]; trig_values;
                unfold distance_from_center_of_road; lra) ].

Lemma set_add_new (s : list TrenchCorner) (c : TrenchCorner) :
  set_mem c s = false -> set_add s c = s ++ [c].
Proof. intros H. unfold set_add. now rewrite H. Qed.

Lemma set_add_known (s : list TrenchCorner) (c : TrenchCorner) :
  set_mem c s = true -> set_add s c = s.
Proof. intros H. unfold set_add. now rewrite H. Qed.

Ltac not_member := cbn [set_mem existsb]; repeat corners_differ; reflexivity.

Lemma process_intersection_no_neighbors (network : Network) (cs : CornerState)
    (u : Z) (current_node : Node) :
  neighbors_of network u = [] ->
  process_intersection network cs u current_node = Ok cs.
Proof. intros H. unfold process_intersection. rewrite H. reflexivity. Qed.

(** C3: the synthesizer does not make a corner for each pair of
    adjacent streets.  The three streets of intersection 1 of
    [fan_network] leave it in one direction, the dict [neighbors], keyed
    by the angle, keeps the last of them, and the branch for
    [len(sorted_vs) == 1] treats the intersection of degree 3 as a dead
    end: 2 corners and 1 crossing edge, where the claim has 3 and 3. *)
Lemma fan_intersection_is_treated_as_dead_end :
  exists cs,
    get_trench_corners_state fan_network = Ok cs
    /\ degree fan_network 1 = 3%nat
    /\ length (corner_ids (all_corners cs)) = 2%nat
    /\ length (all_crossings cs) = 1%nat.
Proof.
  unfold get_trench_corners_state.
  cbn [process_intersections fan_network net_nodes].
  change (mkNetwork _ _) with fan_network.
  unfold process_intersection at 1. rewrite fan_neighbors, fan_collect.
  eval_corners. rewrite getitem_head by (apply Reqb_eq; lra). eval_corners.
  corners_differ. eval_corners. rewrite set_add_new by not_member. eval_corners.
  rewrite !process_intersection_no_neighbors by reflexivity. cbn [bind].
  eexists. split; [reflexivity|]. repeat split.
Qed.

Lemma pair_eqb_refl (p : R * R) : pair_eqb p p = true.
Proof. unfold pair_eqb. now rewrite !Reqb_refl. Qed.

Lemma pair_eqb_eq (p q : R * R) : fst p = fst q -> snd p = snd q -> pair_eqb p q = true.
Proof. intros H1 H2. unfold pair_eqb. now rewrite H1, H2, !Reqb_refl. Qed.

Lemma pair_eqb_neq_x (p q : R * R) : fst p <> fst q -> pair_eqb p q = false.
Proof. intros H. unfold pair_eqb. now rewrite (Reqb_neq _ _ H). Qed.

Lemma pair_eqb_neq_y (p q : R * R) : snd p <> snd q -> pair_eqb p q = false.
Proof. intros H. unfold pair_eqb. rewrite (Reqb_neq _ _ H). apply andb_false_r. Qed.

Lemma sort_two (a b : R) : a < b -> sort_R [a; b] = [a; b].
Proof. intros H. cbn. now rewrite (Rltb_lt a b H). Qed.

Lemma sort_three (a b c : R) : a < b -> b < c -> sort_R [a; b; c] = [a; b; c].
Proof.
  intros Hab Hbc. cbn. rewrite (Rltb_lt b c Hbc). cbn.
  now rewrite (Rltb_lt a b Hab).
Qed.

Lemma inv_sqrt2_pos : 0 < / sqrt 2.
Proof. apply Rinv_0_lt_compat, sqrt_lt_R0. lra. Qed.

Lemma cos_7PI4 : cos (7 * (PI / 4)) = 1 / sqrt 2.
Proof.
  replace (7 * (PI / 4)) with (PI - PI / 4 + PI) by field.
  rewrite cos_full_turn_minus. apply cos_PI4.
Qed.

Lemma sin_7PI4 : sin (7 * (PI / 4)) = -1 / sqrt 2.
Proof.
  replace (7 * (PI / 4)) with (PI - PI / 4 + PI) by field.
  rewrite sin_full_turn_minus, sin_PI4. field.
  apply Rgt_not_eq, sqrt_lt_R0. lra.
Qed.

Ltac eval_streets :=
  cbn [collect_neighbors street_radian twin_network twin_network_west net_nodes
       net_edges getitem dict_get Z.eqb Pos.eqb get_edge_data0 edge_key_eqb andb
       bind e_geometry straight_street_data curved_street_data node_x node_y
       stub_geometry index index_from_end nth_error length Nat.ltb Nat.leb
       Nat.sub fst snd].

Ltac quarter_values :=
  rewrite ?cos_PI4, ?sin_PI4, ?cos_3PI4, ?sin_3PI4, ?cos_5PI4, ?sin_5PI4,
          ?cos_7PI4, ?sin_7PI4, ?cos_2PI, ?sin_2PI.

Ltac coords := cbn; unfold distance_from_center_of_road; lra.

Ltac decide_corners :=
  repeat first [ rewrite corner_eqb_neq_x by coords
               | rewrite corner_eqb_neq_y by coords
               | rewrite corner_eqb_eq by coords ].

Ltac decide_member := cbn [set_mem existsb]; decide_corners; reflexivity.

Ltac decide_sets :=
  repeat first [ rewrite set_add_known by decide_member
               | rewrite set_add_new by decide_member ].

Ltac decide_keys :=
  repeat first [ rewrite getitem_head by (apply pair_eqb_eq; coords)
               | rewrite getitem_skip
                   by (first [apply pair_eqb_neq_x; coords | apply pair_eqb_neq_y; coords])
               | rewrite pair_eqb_eq by coords
               | rewrite pair_eqb_neq_x by coords
               | rewrite pair_eqb_neq_y by coords ].

Ltac first_key := rewrite getitem_head by (apply Reqb_eq; lra).
Ltac next_key := rewrite getitem_skip by (apply Reqb_neq; lra).

Ltac run_corners :=
  repeat (progress (eval_corners; decide_sets; decide_corners; decide_keys)).

(** ** Two intersections at the same coordinates *)

Lemma twin_collect_1 :
  collect_neighbors twin_network 1 (mkNode 0 0 2) [3; 2]%Z []
  = Ok [(0, 3%Z); (PI / 2, 2%Z)].
Proof.
  pose proof PI_RGT_0.
  eval_streets.
  rewrite (angle_east (1 - 0) (0 - 0)) by lra. cbn [bind dict_set].
  rewrite pair_eqb_refl. eval_streets.
  rewrite (angle_north (0 - 0) (1 - 0)) by lra. cbn [bind dict_set].
  rewrite (Reqb_neq 0 (PI / 2)) by lra. reflexivity.
Qed.

Lemma twin_collect_2 :
  collect_neighbors twin_network 2 (mkNode 0 0 2) [3; 1]%Z []
  = Ok [(0, 3%Z); (PI / 2, 1%Z)].
Proof.
  pose proof PI_RGT_0.
  eval_streets.
  rewrite (angle_east (1 - 0) (0 - 0)) by lra. cbn [bind dict_set].
  rewrite pair_eqb_refl. eval_streets.
  rewrite (angle_north (0 - 0) (1 - 0)) by lra. cbn [bind dict_set].
  rewrite (Reqb_neq 0 (PI / 2)) by lra. reflexivity.
Qed.

Lemma twin_angles :
  PI / 2 - Rabs (PI / 2 - 0) / 2 = PI / 4
  /\ 0 + 2 * PI - Rabs (0 + 2 * PI - PI / 2) / 2 = 5 * (PI / 4).
Proof.
  pose proof PI_RGT_0. split; rewrite Rabs_pos_eq by lra; field.
Qed.

Lemma twin_intersection_1 :
  process_intersection twin_network corner_state_init 1 (mkNode 0 0 2)
  = Ok twin_state_1.
Proof.
  pose proof PI_RGT_0 as Hpi. pose proof inv_sqrt2_pos as Hs.
  destruct twin_angles as [A1 A2].
  unfold process_intersection.
  replace (neighbors_of twin_network 1) with [3; 2]%Z by reflexivity.
  rewrite twin_collect_1. cbn [bind map fst]. rewrite sort_two by lra.
  eval_corners. first_key. eval_corners. next_key. first_key.
  eval_corners. rewrite ?A1, ?A2. quarter_values.
  run_corners. reflexivity.
Qed.

Lemma twin_intersection_2 :
  process_intersection twin_network twin_state_1 2 (mkNode 0 0 2) = Ok twin_state.
Proof.
  pose proof PI_RGT_0 as Hpi. pose proof inv_sqrt2_pos as Hs.
  destruct twin_angles as [A1 A2].
  unfold process_intersection.
  replace (neighbors_of twin_network 2) with [3; 1]%Z by reflexivity.
  rewrite twin_collect_2. cbn [bind map fst]. rewrite sort_two by lra.
  eval_corners. first_key. eval_corners. next_key. first_key.
  unfold twin_state_1. eval_corners. rewrite ?A1, ?A2. quarter_values.
  run_corners. reflexivity.
Qed.

(** C4, evaluated: at intersection 2 of [twin_network] the corner
    between the street to 3 and the street to 1 is computed with the
    coordinates of a corner that the bucket of the street [1, 2], one of
    its two streets, already holds with the id 400000001.  The
    buckets looked at are those of the first and of the previous street
    of the intersection, both [2, 3]; the corner is allocated again, with
    the id 400000003, and the index ends with two corners of equal
    coordinates and different ids. *)
Theorem equal_corner_is_allocated_twice :
  get_trench_corners_state twin_network = Ok twin_state
  /\ dict_get StreetId_eqb (output_trench_corners twin_state) (Sid 1 2)
     = Some [twin_corner_1; twin_corner_2]
  /\ dict_get StreetId_eqb (output_trench_corners twin_state) (Sid 2 3)
     = Some [twin_corner_3]
  /\ In (Sid 1 2) (tc_street_ids twin_corner_3)
  /\ corner_eqb twin_corner_3 twin_corner_1 = true
  /\ tc_node_for_adding twin_corner_1 = Some 400000001%Z
  /\ tc_node_for_adding twin_corner_3 = Some 400000003%Z.
Proof.
  split.
  - unfold get_trench_corners_state.
    cbn [process_intersections twin_network net_nodes].
    change (mkNetwork _ _) with twin_network.
    rewrite twin_intersection_1. cbn [bind].
    rewrite twin_intersection_2. cbn [bind].
    now rewrite process_intersection_no_neighbors by reflexivity.
  - repeat split; try reflexivity.
    + cbn. now left.
    + apply corner_eqb_eq; reflexivity.
Qed.

Lemma west_collect_1 :
  collect_neighbors twin_network_west 1 (mkNode 0 0 2) [2; 3]%Z []
  = Ok [(PI / 2, 2%Z); (PI, 3%Z)].
Proof.
  pose proof PI_RGT_0.
  eval_streets. rewrite pair_eqb_refl. eval_streets.
  rewrite (angle_north (0 - 0) (1 - 0)) by lra. cbn [bind dict_set].
  rewrite (angle_west (-1 - 0) (0 - 0)) by lra. cbn [bind dict_set].
  rewrite (Reqb_neq (PI / 2) PI) by lra. reflexivity.
Qed.

Lemma west_collect_2 :
  collect_neighbors twin_network_west 2 (mkNode 0 0 3) [1; 3; 4]%Z []
  = Ok [(PI / 2, 1%Z); (PI, 3%Z); (3 * (PI / 2), 4%Z)].
Proof.
  pose proof PI_RGT_0.
  eval_streets. rewrite pair_eqb_refl. eval_streets.
  rewrite (angle_north (0 - 0) (1 - 0)) by lra. cbn [bind dict_set].
  rewrite (angle_west (-1 - 0) (0 - 0)) by lra. cbn [bind dict_set].
  rewrite (Reqb_neq (PI / 2) PI) by lra.
  rewrite (angle_south (0 - 0) (-1 - 0)) by lra. cbn [bind dict_set].
  rewrite (Reqb_neq (PI / 2) (3 * (PI / 2))) by lra.
  rewrite (Reqb_neq PI (3 * (PI / 2))) by lra. reflexivity.
Qed.

Lemma west_angles :
  PI - Rabs (PI - PI / 2) / 2 = 3 * (PI / 4)
  /\ PI / 2 + 2 * PI - Rabs (PI / 2 + 2 * PI - PI) / 2 = 7 * (PI / 4)
  /\ 3 * (PI / 2) - Rabs (3 * (PI / 2) - PI) / 2 = 5 * (PI / 4)
  /\ PI / 2 + 2 * PI - Rabs (PI / 2 + 2 * PI - 3 * (PI / 2)) / 2 = 2 * PI.
Proof.
  pose proof PI_RGT_0. repeat split; rewrite Rabs_pos_eq by lra; field.
Qed.

Lemma west_intersection_1 :
  process_intersection twin_network_west corner_state_init 1 (mkNode 0 0 2)
  = Ok west_state_1.
Proof.
  pose proof PI_RGT_0 as Hpi. pose proof inv_sqrt2_pos as Hs.
  destruct west_angles as (A1 & A2 & A3 & A4).
  unfold process_intersection.
  replace (neighbors_of twin_network_west 1) with [2; 3]%Z by reflexivity.
  rewrite west_collect_1. cbn [bind map fst]. rewrite sort_two by lra.
  eval_corners. first_key. eval_corners. next_key. first_key.
  eval_corners. rewrite ?A1, ?A2, ?A3, ?A4. quarter_values.
  run_corners. reflexivity.
Qed.

Lemma west_intersection_2 :
  process_intersection twin_network_west west_state_1 2 (mkNode 0 0 3)
  = Ok west_state.
Proof.
  pose proof PI_RGT_0 as Hpi. pose proof inv_sqrt2_pos as Hs.
  destruct west_angles as (A1 & A2 & A3 & A4).
  unfold process_intersection.
  replace (neighbors_of twin_network_west 2) with [1; 3; 4]%Z by reflexivity.
  rewrite west_collect_2. cbn [bind map fst]. rewrite sort_three by lra.
  eval_corners. first_key. eval_corners. next_key. first_key.
  unfold west_state_1. eval_corners. rewrite ?A1, ?A2, ?A3, ?A4. quarter_values.
  run_corners. cbn [node_for_adding tc_node_for_adding west_corner_1 bind].
  eval_corners. next_key. next_key. first_key.
  eval_corners. rewrite ?A1, ?A2, ?A3, ?A4. quarter_values.
  run_corners. rewrite ?A1, ?A2, ?A3, ?A4. quarter_values.
  run_corners. reflexivity.
Qed.

(** C9, evaluated: at intersection 2 of [twin_network_west] the corner
    between the first two streets is found in the index, and the
    counter is set back to its id, 400000001.  The next corner of the intersection, which is
    new, gets the id 400000002, the id of a corner of intersection 1
    that lies elsewhere. *)
Theorem reused_corner_resets_the_counter :
  get_trench_corners_state twin_network_west = Ok west_state
  /\ In west_corner_2 (all_corners west_state)
  /\ In west_corner_3 (all_corners west_state)
  /\ corner_eqb west_corner_2 west_corner_3 = false
  /\ tc_node_for_adding west_corner_2 = Some 400000002%Z
  /\ tc_node_for_adding west_corner_3 = Some 400000002%Z.
Proof.
  split.
  - unfold get_trench_corners_state.
    cbn [process_intersections twin_network_west net_nodes].
    change (mkNetwork _ _) with twin_network_west.
    rewrite west_intersection_1. cbn [bind].
    rewrite west_intersection_2. cbn [bind].
    now rewrite !process_intersection_no_neighbors by reflexivity.
  - pose proof inv_sqrt2_pos as Hs.
    repeat split; try reflexivity.
    + cbn. tauto.
    + cbn. tauto.
    + apply corner_eqb_neq_x. coords.
Qed.

(** ** Points on the circle around an intersection *)

Lemma offset_pos : 0 < distance_from_center_of_road.
Proof. unfold distance_from_center_of_road. lra. Qed.

Lemma at_angle_distance (center : Node) (theta : R) (c : TrenchCorner) :
  at_angle center theta c ->
  node_distance c center = distance_from_center_of_road.
Proof.
  unfold at_angle, point_on_circle. cbn [getx gety XY_Node]. intros [= Hx Hy].
  pose proof offset_pos as Hd.
  apply node_distance_eq; [lra|]. cbn [getx gety XY_Node XY_TrenchCorner].
  rewrite Hx, Hy. pose proof (sin_cos_sqr theta) as Hsc.
  replace ((node_x center - (node_x center + distance_from_center_of_road * cos theta))
           * (node_x center - (node_x center + distance_from_center_of_road * cos theta))
           + (node_y center - (node_y center + distance_from_center_of_road * sin theta))
             * (node_y center - (node_y center + distance_from_center_of_road * sin theta)))
    with (distance_from_center_of_road * distance_from_center_of_road
          * (sin theta * sin theta + cos theta * cos theta)) by ring.
  rewrite Hsc. ring.
Qed.

(** Two angles less than a full turn apart give two points. *)
Lemma circle_points_differ (t1 t2 : R) :
  t1 < t2 -> t2 - t1 < 2 * PI ->
  ~ (cos t1 = cos t2 /\ sin t1 = sin t2).
Proof.
  intros Hlt Hturn [Hc Hs].
  pose proof (cos_minus t2 t1) as Hcm. rewrite <- Hc, <- Hs in Hcm.
  pose proof (sin_cos_sqr t1) as Hsc.
  assert (Hone : cos (t2 - t1) = 1) by lra.
  pose proof (cos_2a_sin ((t2 - t1) / 2)) as H2.
  replace (2 * ((t2 - t1) / 2)) with (t2 - t1) in H2 by field.
  assert (Hpos : 0 < sin ((t2 - t1) / 2)) by (apply sin_gt_0; lra).
  nra.
Qed.

Lemma at_angle_differ (center : Node) (t1 t2 : R) (a b : TrenchCorner) :
  at_angle center t1 a -> at_angle center t2 b ->
  t1 < t2 -> t2 - t1 < 2 * PI ->
  corner_eqb a b = false.
Proof.
  unfold at_angle, point_on_circle. intros [= Hax Hay] [= Hbx Hby] Hlt Hturn.
  destruct (corner_eqb a b) eqn:E; [| reflexivity].
  apply corner_eqb_true_iff in E. destruct E as [Ex Ey].
  exfalso. apply (circle_points_differ t1 t2 Hlt Hturn).
  pose proof offset_pos. rewrite Hax, Hbx in Ex. rewrite Hay, Hby in Ey.
  split; nra.
Qed.

Lemma corner_eqb_sym (a b : TrenchCorner) : corner_eqb a b = corner_eqb b a.
Proof.
  destruct (corner_eqb a b) eqn:E1, (corner_eqb b a) eqn:E2; try reflexivity.
  - apply corner_eqb_true_iff in E1. destruct E1 as [Hx Hy].
    rewrite corner_eqb_eq in E2 by congruence. discriminate.
  - apply corner_eqb_true_iff in E2. destruct E2 as [Hx Hy].
    rewrite corner_eqb_eq in E1 by congruence. discriminate.
Qed.

(** A corner off the circle is no corner on it. *)
Lemma off_circle_differ (center : Node) (theta : R) (a c : TrenchCorner) :
  at_angle center theta a ->
  node_distance c center <> distance_from_center_of_road ->
  corner_eqb a c = false.
Proof.
  intros Ha Hc. destruct (corner_eqb a c) eqn:E; [| reflexivity].
  exfalso. apply Hc. apply corner_eqb_true_iff in E. destruct E as [Ex Ey].
  rewrite <- (at_angle_distance center theta a Ha).
  unfold node_distance. cbn [getx gety XY_TrenchCorner]. now rewrite Ex, Ey.
Qed.

(** ** The buckets of the index *)

Lemma StreetId_eqb_eq (a b : StreetId) : StreetId_eqb a b = true <-> a = b.
Proof.
  destruct a, b; cbn; split; intros H; try discriminate; try reflexivity.
  - apply andb_true_iff in H. destruct H as [H1 H2].
    apply Z.eqb_eq in H1, H2. now subst.
  - injection H as -> ->. now rewrite !Z.eqb_refl.
Qed.

Lemma StreetId_eqb_refl (a : StreetId) : StreetId_eqb a a = true.
Proof. now apply StreetId_eqb_eq. Qed.

Lemma StreetId_eqb_compat (a b c : StreetId) :
  StreetId_eqb a b = true -> StreetId_eqb a c = StreetId_eqb b c.
Proof. intros H. apply StreetId_eqb_eq in H. now subst. Qed.

Section Buckets.
Context {K V : Type} (eqb : K -> K -> bool).
Hypothesis eqb_refl : forall k, eqb k k = true.
Hypothesis eqb_compat : forall a b c, eqb a b = true -> eqb a c = eqb b c.

Lemma dict_mem_set (d : list (K * V)) (k k2 : K) (v : V) :
  dict_mem eqb (dict_set eqb d k v) k2 = eqb k k2 || dict_mem eqb d k2.
Proof.
  unfold dict_mem. destruct (eqb k k2) eqn:Ek.
  - now rewrite (dict_get_set_eqb eqb eqb_refl eqb_compat) by exact Ek.
  - now rewrite (dict_get_set_other eqb eqb_compat) by exact Ek.
Qed.

Lemma dict_get_compat (d : list (K * V)) (k k2 : K) :
  eqb k k2 = true -> dict_get eqb d k = dict_get eqb d k2.
Proof.
  intros Hk. induction d as [| [k' v'] rest IH]; [reflexivity|].
  cbn [dict_get]. destruct (eqb k' k) eqn:Ek.
  - now rewrite (eqb_compat k' k k2 Ek), Hk.
  - destruct (eqb k' k2) eqn:Ek2; [| exact IH].
    pose proof (eqb_compat k' k2 k Ek2) as H1.
    pose proof (eqb_compat k k2 k Hk) as H2.
    rewrite eqb_refl in H2. congruence.
Qed.

Lemma dict_mem_setdefault (d : list (K * V)) (k k2 : K) (v : V) :
  dict_mem eqb (setdefault eqb d k v) k2 = eqb k k2 || dict_mem eqb d k2.
Proof.
  unfold setdefault. destruct (dict_mem eqb d k) eqn:Em; [| apply dict_mem_set].
  destruct (eqb k k2) eqn:Ek; [| reflexivity].
  unfold dict_mem in *. now rewrite <- (dict_get_compat d k k2 Ek), Em.
Qed.

Lemma getitem_mem (d : list (K * V)) (k : K) :
  dict_mem eqb d k = true -> exists v, dict_get eqb d k = Some v.
Proof.
  unfold dict_mem. destruct (dict_get eqb d k) as [v |]; [eauto | discriminate].
Qed.
End Buckets.

Section Flat.
Context {K V : Type} (eqb : K -> K -> bool).

(** Appending to one bucket appends to the contents of the dict. *)
Lemma flat_dict_set_app (d : list (K * list V)) (k : K) (old : list V) (e : V) :
  dict_get eqb d k = Some old ->
  Permutation (concat (map snd (dict_set eqb d k (old ++ [e]))))
              (concat (map snd d) ++ [e]).
Proof.
  induction d as [| [k' b] rest IH]; intros Hget; [discriminate|].
  cbn [dict_get dict_set] in *. destruct (eqb k' k).
  - injection Hget as ->. cbn [map snd concat].
    rewrite <- !app_assoc. apply Permutation_app_head, Permutation_app_comm.
  - cbn [map snd concat]. rewrite <- app_assoc.
    apply Permutation_app_head. now apply IH.
Qed.

Lemma flat_dict_set_same (d : list (K * list V)) (k : K) (old : list V) :
  dict_get eqb d k = Some old ->
  concat (map snd (dict_set eqb d k old)) = concat (map snd d).
Proof.
  induction d as [| [k' b] rest IH]; intros Hget; [discriminate|].
  cbn [dict_get dict_set] in *. destruct (eqb k' k).
  - now injection Hget as ->.
  - cbn [map snd concat]. f_equal. now apply IH.
Qed.

Lemma flat_dict_set_new (d : list (K * list V)) (k : K) (b : list V) :
  dict_get eqb d k = None ->
  concat (map snd (dict_set eqb d k b)) = concat (map snd d) ++ b.
Proof.
  induction d as [| [k' b'] rest IH]; intros Hget.
  - cbn. now rewrite app_nil_r.
  - cbn [dict_get dict_set] in *. destruct (eqb k' k); [discriminate|].
    cbn [map snd concat]. rewrite <- app_assoc. f_equal. now apply IH.
Qed.

Lemma flat_setdefault_nil (d : list (K * list V)) (k : K) :
  concat (map snd (setdefault eqb d k [])) = concat (map snd d).
Proof.
  unfold setdefault, dict_mem. destruct (dict_get eqb d k) eqn:Eg; [reflexivity|].
  rewrite flat_dict_set_new by exact Eg. apply app_nil_r.
Qed.

Lemma in_bucket_in_flat (d : list (K * list V)) (k : K) (b : list V) (c : V) :
  dict_get eqb d k = Some b -> In c b -> In c (concat (map snd d)).
Proof.
  induction d as [| [k' b'] rest IH]; intros Hget Hin; [discriminate|].
  cbn [dict_get] in Hget. cbn [map snd concat]. apply in_or_app.
  destruct (eqb k' k).
  - injection Hget as ->. now left.
  - right. now apply IH.
Qed.
End Flat.

Lemma set_mem_false (c : TrenchCorner) (s : list TrenchCorner) :
  (forall x, In x s -> corner_eqb c x = false) -> set_mem c s = false.
Proof.
  intros H. unfold set_mem. destruct (existsb (corner_eqb c) s) eqn:E; [| reflexivity].
  apply existsb_exists in E. destruct E as (x & Hin & Ex).
  rewrite (H x Hin) in Ex. discriminate.
Qed.

Lemma set_mem_true (c : TrenchCorner) (s : list TrenchCorner) :
  set_mem c s = true -> exists x, In x s /\ corner_eqb c x = true.
Proof. unfold set_mem. apply existsb_exists. Qed.

Lemma not_in_buckets_fresh (otc : list (StreetId * list TrenchCorner))
    (node : TrenchCorner) (first_id last_id : StreetId) :
  (forall c, In c (concat (map snd otc)) -> corner_eqb node c = false) ->
  dict_mem StreetId_eqb otc first_id = true ->
  dict_mem StreetId_eqb otc last_id = true ->
  not_in_buckets otc node first_id last_id = Ok true.
Proof.
  intros Hfresh Hf Hl. unfold not_in_buckets, getitem.
  destruct (getitem_mem StreetId_eqb otc first_id Hf) as [bf Ef].
  destruct (getitem_mem StreetId_eqb otc last_id Hl) as [bl El].
  rewrite Ef. cbn [bind].
  rewrite set_mem_false
    by (intros x Hx; apply Hfresh; exact (in_bucket_in_flat _ _ _ _ _ Ef Hx)).
  cbn [negb]. rewrite El. cbn [bind].
  now rewrite set_mem_false
    by (intros x Hx; apply Hfresh; exact (in_bucket_in_flat _ _ _ _ _ El Hx)).
Qed.

(** Adding a corner to a bucket of an index that holds no other corner
    with its coordinates. *)
Lemma bucket_add_spec (otc : list (StreetId * list TrenchCorner)) (sid : StreetId)
    (node : TrenchCorner) :
  dict_mem StreetId_eqb otc sid = true ->
  (forall c, In c (concat (map snd otc)) -> corner_eqb node c = true -> c = node) ->
  exists otc',
    bucket_add otc sid node = Ok otc'
    /\ (forall c, In c (concat (map snd otc')) <-> In c (concat (map snd otc)) \/ c = node)
    /\ (forall k, dict_mem StreetId_eqb otc' k = dict_mem StreetId_eqb otc k).
Proof.
  intros Hmem Hown. unfold bucket_add, getitem.
  destruct (getitem_mem StreetId_eqb otc sid Hmem) as [b Eb]. rewrite Eb. cbn [bind].
  eexists. split; [reflexivity|]. split.
  - intros c. unfold set_add. destruct (set_mem node b) eqn:Em.
    + rewrite flat_dict_set_same by exact Eb.
      apply set_mem_true in Em. destruct Em as (x & Hx & Ex).
      pose proof (in_bucket_in_flat _ _ _ _ _ Eb Hx) as Hflat.
      pose proof (Hown x Hflat Ex) as ->.
      split; [tauto | intros [H | ->]; assumption].
    + pose proof (flat_dict_set_app StreetId_eqb otc sid b node Eb) as Hperm.
      split; intros H.
      * apply (Permutation_in _ Hperm) in H. apply in_app_or in H.
        destruct H as [H | [-> | []]]; tauto.
      * apply (Permutation_in _ (Permutation_sym Hperm)). apply in_or_app.
        destruct H as [H | ->]; [now left | right; now left].
  - intros k.
    rewrite (dict_mem_set StreetId_eqb StreetId_eqb_refl StreetId_eqb_compat).
    destruct (StreetId_eqb sid k) eqn:Ek; [| reflexivity].
    apply StreetId_eqb_eq in Ek. subst. now rewrite Hmem.
Qed.

Lemma crossing_append_spec (orc : list (StreetId * list (Z * Z))) (sid : StreetId)
    (crossing : Z * Z) :
  exists orc',
    crossing_append orc sid crossing = Ok orc'
    /\ Permutation (concat (map snd orc')) (concat (map snd orc) ++ [crossing]).
Proof.
  unfold crossing_append, getitem.
  assert (Hmem : dict_mem StreetId_eqb (setdefault StreetId_eqb orc sid []) sid = true).
  { rewrite (dict_mem_setdefault StreetId_eqb StreetId_eqb_refl StreetId_eqb_compat).
    now rewrite StreetId_eqb_refl. }
  destruct (getitem_mem StreetId_eqb _ sid Hmem) as [l El]. rewrite El. cbn [bind].
  eexists. split; [reflexivity|].
  rewrite <- (flat_setdefault_nil StreetId_eqb orc sid).
  now apply flat_dict_set_app.
Qed.

(** ** The loop over the sorted angles *)

Lemma new_ids_S (x : Z) (m : nat) :
  new_ids x (S m) = new_ids x m ++ [(x + Z.of_nat (S m))%Z].
Proof. unfold new_ids. rewrite seq_S, map_app. reflexivity. Qed.

Lemma new_ids_length (x : Z) (m : nat) : length (new_ids x m) = m.
Proof. unfold new_ids. now rewrite length_map, length_seq. Qed.

Lemma path_edges_snoc (l : list Z) (a b : Z) :
  path_edges ((l ++ [a]) ++ [b]) = path_edges (l ++ [a]) ++ [(a, b)].
Proof.
  induction l as [| x rest IH]; [reflexivity|].
  destruct rest as [| y rest']; [reflexivity|].
  change (path_edges (((x :: y :: rest') ++ [a]) ++ [b]))
    with ((x, y) :: path_edges (((y :: rest') ++ [a]) ++ [b])).
  rewrite IH. reflexivity.
Qed.

Lemma path_edges_new_ids (x : Z) (m : nat) :
  path_edges (new_ids x (S (S m)))
  = path_edges (new_ids x (S m)) ++ [((x + Z.of_nat (S m))%Z, (x + Z.of_nat (S (S m)))%Z)].
Proof.
  rewrite (new_ids_S x (S m)), (new_ids_S x m). apply path_edges_snoc.
Qed.

Lemma distinct_corners_snoc (l : list TrenchCorner) (c : TrenchCorner) :
  distinct_corners l ->
  (forall a, In a l -> corner_eqb a c = false) ->
  distinct_corners (l ++ [c]).
Proof.
  unfold distinct_corners. induction 1 as [| a l Ha Hl IH]; intros Hc.
  - cbn. constructor; constructor.
  - cbn. constructor.
    + apply Forall_app. split; [exact Ha|].
      constructor; [apply Hc; now left | constructor].
    + apply IH. intros b Hb. apply Hc. now right.
Qed.

Lemma corner_eqb_with_id (node c : TrenchCorner) (id : Z) :
  corner_eqb (with_node_for_adding node id) c = corner_eqb node c.
Proof. reflexivity. Qed.

Lemma corner_step_first (u : Z) (current_node : Node) (neighbors : list (R * Z))
    (cs0 : CornerState) (a1 : R) (v : Z) :
  dict_get Reqb neighbors a1 = Some v ->
  exists st,
    corner_step u current_node neighbors (cs0, loop_vars_init) a1 = Ok st
    /\ loop_inv u current_node cs0 a1 a1 [] st.
Proof.
  intros Hget. unfold corner_step, getitem. rewrite Hget.
  cbn [bind loop_vars_init last_radian].
  eexists. split; [reflexivity|].
  constructor; cbn [fst snd first_radian last_radian first_street_id last_street_id
                    output_trench_corners node_id last_node_id first_node_id
                    loop_vars_init length]; try reflexivity; try lra.
  - rewrite (dict_mem_setdefault StreetId_eqb StreetId_eqb_refl StreetId_eqb_compat).
    now rewrite StreetId_eqb_refl.
  - rewrite (dict_mem_setdefault StreetId_eqb StreetId_eqb_refl StreetId_eqb_compat).
    now rewrite StreetId_eqb_refl.
  - lia.
  - intros c. unfold all_corners. cbn [output_trench_corners].
    rewrite flat_setdefault_nil. cbn [In]. tauto.
  - constructor.
  - constructor.
  - unfold all_crossings. cbn [output_road_crossing new_ids seq map path_edges].
    now rewrite app_nil_r.
Qed.

Lemma corner_step_next (u : Z) (current_node : Node) (neighbors : list (R * Z))
    (cs0 : CornerState) (a1 ak a' : R) (made : list TrenchCorner)
    (st : CornerState * LoopVars) (v : Z) :
  none_on_circle current_node cs0 ->
  loop_inv u current_node cs0 a1 ak made st ->
  ak < a' -> a' - a1 < 2 * PI ->
  dict_get Reqb neighbors a' = Some v ->
  exists st' c,
    corner_step u current_node neighbors st a' = Ok st'
    /\ loop_inv u current_node cs0 a1 a' (made ++ [c]) st'.
Proof.
  intros Hfresh Hinv Hlt Hturn Hget. destruct st as [cs lv].
  destruct Hinv as [Hord Hfirst Hlast Hfb Hlb Hcnt Hln Hfn Hcorners Hids Hmade Hdist Hcross].
  cbn [fst snd] in *.
  unfold corner_step, getitem. rewrite Hget. cbn [bind]. rewrite Hlast.
  unfold point_on_circle.
  set (theta := a' - Rabs (a' - ak) / 2).
  assert (Htheta : ak < theta < a') by (unfold theta; rewrite Rabs_pos_eq by lra; lra).
  set (sid := street_id_of u v).
  set (node := new_TrenchCorner _ _ 2 u [sid; last_street_id lv]).
  set (otc1 := setdefault StreetId_eqb (output_trench_corners cs) sid []).
  assert (Hat : at_angle current_node theta node) by reflexivity.
  assert (Hfresh1 : forall c, In c (concat (map snd otc1)) -> corner_eqb node c = false).
  { intros c Hc. unfold otc1 in Hc. rewrite flat_setdefault_nil in Hc.
    apply Hcorners in Hc. destruct Hc as [Hold | Hnew].
    - apply (off_circle_differ current_node theta); [exact Hat | now apply Hfresh].
    - rewrite Forall_forall in Hmade. destruct (Hmade c Hnew) as (_ & tc & Htc & Hatc).
      rewrite corner_eqb_sym.
      apply (at_angle_differ current_node tc theta); [assumption | assumption | lra | lra]. }
  assert (Hm1 : forall k, dict_mem StreetId_eqb (output_trench_corners cs) k = true ->
                          dict_mem StreetId_eqb otc1 k = true).
  { intros k Hk. unfold otc1.
    rewrite (dict_mem_setdefault StreetId_eqb StreetId_eqb_refl StreetId_eqb_compat).
    rewrite Hk. apply orb_true_r. }
  assert (Hsid : dict_mem StreetId_eqb otc1 sid = true).
  { unfold otc1.
    rewrite (dict_mem_setdefault StreetId_eqb StreetId_eqb_refl StreetId_eqb_compat).
    now rewrite StreetId_eqb_refl. }
  rewrite not_in_buckets_fresh by auto. cbn [bind].
  set (node' := with_node_for_adding node (node_id cs + 1)).
  destruct (bucket_add_spec otc1 sid node' Hsid) as (otc2 & E2 & Hin2 & Hmem2).
  { intros c Hc He. unfold node' in He. rewrite corner_eqb_with_id in He.
    rewrite (Hfresh1 c Hc) in He. discriminate. }
  rewrite E2. cbn [bind].
  destruct (bucket_add_spec otc2 (last_street_id lv) node') as (otc3 & E3 & Hin3 & Hmem3).
  { rewrite Hmem2. now apply Hm1. }
  { intros c Hc He. apply Hin2 in Hc. destruct Hc as [Hc | ->]; [| reflexivity].
    unfold node' in He. rewrite corner_eqb_with_id in He.
    rewrite (Hfresh1 c Hc) in He. discriminate. }
  rewrite E3. cbn [bind node_id output_road_crossing].
  assert (Hall : forall c, In c (concat (map snd otc3))
                           <-> In c (all_corners cs0) \/ In c (made ++ [node'])).
  { intros c. rewrite Hin3, Hin2. unfold otc1. rewrite flat_setdefault_nil.
    fold (all_corners cs). rewrite Hcorners, in_app_iff. cbn [In]. intuition (subst; auto). }
  assert (Hids' : map tc_node_for_adding (made ++ [node'])
                  = map Some (new_ids (node_id cs0) (length (made ++ [node'])))).
  { rewrite length_app, Nat.add_1_r, new_ids_S, !map_app, Hids. cbn [map length].
    f_equal. cbn [node' with_node_for_adding tc_node_for_adding]. do 2 f_equal. lia. }
  assert (Hmade' : Forall (fun c => tc_u c = u
                     /\ exists t, a1 < t < a' /\ at_angle current_node t c)
                          (made ++ [node'])).
  { apply Forall_app. split.
    - eapply Forall_impl; [| exact Hmade]. intros c (Hu & t & Ht & Hc).
      split; [exact Hu|]. exists t. split; [lra | exact Hc].
    - constructor; [| constructor]. split; [reflexivity|].
      exists theta. split; [lra | exact Hat]. }
  assert (Hdist' : distinct_corners (made ++ [node'])).
  { apply distinct_corners_snoc; [exact Hdist|]. intros c Hc.
    rewrite corner_eqb_sym. unfold node'. rewrite corner_eqb_with_id.
    apply Hfresh1. unfold otc1. rewrite flat_setdefault_nil.
    apply Hcorners. now right. }
  rewrite Hln. destruct made as [| m0 made'].
  - exists (mkCornerState (dict_set pair_eqb (nodes cs) (corner_hash node') node')
                          otc3 (output_road_crossing cs) (node_id cs + 1),
            mkLoopVars (first_radian lv) (first_street_id lv) (Some a') sid
                       (Some (node_id cs + 1)%Z) (Some (node_id cs + 1)%Z) sid), node'.
    split; [reflexivity|].
    constructor; cbn [fst snd first_radian last_radian first_street_id last_street_id
                      output_trench_corners output_road_crossing node_id last_node_id
                      first_node_id app]; try assumption; try reflexivity; try lra.
    + rewrite Hmem3, Hmem2. now apply Hm1.
    + now rewrite Hmem3, Hmem2.
    + cbn [length] in *. lia.
    + cbn [length] in Hcnt. f_equal. lia.
  - destruct (crossing_append_spec (output_road_crossing cs) (last_street_id lv)
                                   (node_id cs, (node_id cs + 1)%Z)) as (orc' & EC & HP).
    rewrite EC. cbn [bind].
    eexists. exists node'. split; [reflexivity|].
    constructor; cbn [fst snd first_radian last_radian first_street_id last_street_id
                      output_trench_corners output_road_crossing node_id last_node_id
                      first_node_id]; try assumption; try reflexivity; try lra.
    + rewrite Hmem3, Hmem2. now apply Hm1.
    + now rewrite Hmem3, Hmem2.
    + rewrite length_app, Hcnt. cbn [length]. lia.
    + unfold all_crossings. cbn [output_road_crossing].
      rewrite length_app, Nat.add_1_r. cbn [length].
      rewrite path_edges_new_ids, app_assoc.
      eapply Permutation_trans; [exact HP|].
      replace ((node_id cs0 + Z.of_nat (S (length made')))%Z) with (node_id cs)
        by (rewrite Hcnt; reflexivity).
      replace ((node_id cs0 + Z.of_nat (S (S (length made'))))%Z) with (node_id cs + 1)%Z
        by (rewrite Hcnt; cbn [length]; lia).
      apply Permutation_app_tail. exact Hcross.
Qed.

Lemma corner_loop_rest (u : Z) (current_node : Node) (neighbors : list (R * Z))
    (cs0 : CornerState) (a1 : R) (rest : list R) :
  none_on_circle current_node cs0 ->
  forall (ak : R) (made : list TrenchCorner) (st : CornerState * LoopVars),
    loop_inv u current_node cs0 a1 ak made st ->
    StronglySorted Rlt (ak :: rest) ->
    Forall (fun a => a - a1 < 2 * PI) rest ->
    Forall (fun a => exists v, dict_get Reqb neighbors a = Some v) rest ->
    exists st' made',
      corner_loop u current_node neighbors rest st = Ok st'
      /\ loop_inv u current_node cs0 a1 (last rest ak) (made ++ made') st'
      /\ length made' = length rest.
Proof.
  intros Hfresh. induction rest as [| a' rest IH]; intros ak made st Hinv Hsort Hturn Hkeys.
  - exists st, []. rewrite app_nil_r. cbn [corner_loop last length]. auto.
  - inversion Hsort as [| ? ? Hsort' Hall]; subst.
    inversion Hall as [| ? ? Hlt Hall']; subst.
    inversion Hturn as [| ? ? Hturn1 Hturn']; subst.
    inversion Hkeys as [| ? ? [v Hv] Hkeys']; subst.
    destruct (corner_step_next u current_node neighbors cs0 a1 ak a' made st v
                Hfresh Hinv Hlt Hturn1 Hv) as (st1 & c & E1 & Hinv1).
    destruct (IH a' (made ++ [c]) st1 Hinv1 Hsort' Hturn' Hkeys')
      as (st2 & made2 & E2 & Hinv2 & Hlen2).
    exists st2, (c :: made2). cbn [corner_loop]. rewrite E1. cbn [bind].
    split; [exact E2|]. split.
    + rewrite <- app_assoc in Hinv2. cbn [app] in Hinv2.
      replace (last (a' :: rest) ak) with (last rest a'); [exact Hinv2|].
      clear. destruct rest; [reflexivity|]. cbn [last].
      generalize r. induction rest; intros; [reflexivity|]. cbn [last]. apply IHrest.
    + cbn [length]. now rewrite Hlen2.
Qed.

Lemma ring_edges_new_ids (x : Z) (m : nat) :
  ring_edges (new_ids x (S (S m)))
  = path_edges (new_ids x (S m))
    ++ [((x + Z.of_nat (S m))%Z, (x + Z.of_nat (S (S m)))%Z);
        ((x + Z.of_nat (S (S m)))%Z, (x + 1)%Z)].
Proof.
  unfold ring_edges.
  assert (Hlast : last (new_ids x (S (S m))) (x + 1)%Z = (x + Z.of_nat (S (S m)))%Z).
  { rewrite new_ids_S. apply last_last. }
  rewrite path_edges_new_ids.
  assert (Hshape : exists b tl, new_ids x (S (S m)) = (x + 1)%Z :: b :: tl).
  { unfold new_ids. cbn [seq map]. eauto. }
  destruct Hshape as (b & tl & E). rewrite E in Hlast |- *.
  rewrite Hlast, <- app_assoc. reflexivity.
Qed.

(** The corner between the last and the first street of an
    intersection whose loop met no known corner. *)
Lemma wrap_around_fresh (u : Z) (current_node : Node) (cs0 : CornerState)
    (a1 an : R) (made : list TrenchCorner) (st : CornerState * LoopVars) :
  none_on_circle current_node cs0 ->
  loop_inv u current_node cs0 a1 an made st ->
  made <> [] ->
  an - a1 < 2 * PI ->
  exists cs' c,
    wrap_around u current_node st = Ok cs'
    /\ node_id cs' = (node_id cs0 + Z.of_nat (S (length made)))%Z
    /\ tc_u c = u
    /\ (exists theta, at_angle current_node theta c)
    /\ map tc_node_for_adding (made ++ [c])
       = map Some (new_ids (node_id cs0) (S (length made)))
    /\ distinct_corners (made ++ [c])
    /\ (forall x, In x (all_corners cs') <-> In x (all_corners cs0) \/ In x (made ++ [c]))
    /\ Permutation (all_crossings cs')
                   (all_crossings cs0
                    ++ ring_edges (new_ids (node_id cs0) (S (length made)))).
Proof.
  intros Hfresh Hinv Hne Hturn. destruct st as [cs lv].
  destruct Hinv as [Hord Hfirst Hlast Hfb Hlb Hcnt Hln Hfn Hcorners Hids Hmade Hdist Hcross].
  cbn [fst snd] in *.
  unfold wrap_around. rewrite Hfirst, Hlast. cbn [need bind].
  unfold point_on_circle.
  set (theta := a1 + 2 * PI - Rabs (a1 + 2 * PI - an) / 2).
  assert (Htheta : an < theta /\ theta - a1 < 2 * PI)
    by (unfold theta; rewrite Rabs_pos_eq by lra; lra).
  set (node := new_TrenchCorner _ _ 2 u [first_street_id lv; last_street_id lv]).
  assert (Hat : at_angle current_node theta node) by reflexivity.
  assert (Hfresh1 : forall c, In c (concat (map snd (output_trench_corners cs))) ->
                              corner_eqb node c = false).
  { intros c Hc. apply Hcorners in Hc. destruct Hc as [Hold | Hnew].
    - apply (off_circle_differ current_node theta); [exact Hat | now apply Hfresh].
    - rewrite Forall_forall in Hmade. destruct (Hmade c Hnew) as (_ & tc & Htc & Hatc).
      rewrite corner_eqb_sym.
      apply (at_angle_differ current_node tc theta); [assumption | assumption | lra | lra]. }
  rewrite not_in_buckets_fresh by auto. cbn [bind].
  set (node' := with_node_for_adding node (node_id cs + 1)).
  destruct (bucket_add_spec (output_trench_corners cs) (first_street_id lv) node' Hfb)
    as (otc2 & E2 & Hin2 & Hmem2).
  { intros c Hc He. unfold node' in He. rewrite corner_eqb_with_id in He.
    rewrite (Hfresh1 c Hc) in He. discriminate. }
  rewrite E2. cbn [bind].
  destruct (bucket_add_spec otc2 (last_street_id lv) node') as (otc3 & E3 & Hin3 & Hmem3).
  { now rewrite Hmem2. }
  { intros c Hc He. apply Hin2 in Hc. destruct Hc as [Hc | ->]; [| reflexivity].
    unfold node' in He. rewrite corner_eqb_with_id in He.
    rewrite (Hfresh1 c Hc) in He. discriminate. }
  rewrite E3. cbn [bind].
  destruct made as [| m0 made']; [contradiction|].
  rewrite Hln, Hfn. cbn [need bind].
  destruct (crossing_append_spec (output_road_crossing cs) (last_street_id lv)
                                 (node_id cs, (node_id cs + 1)%Z)) as (orc1 & EC1 & HP1).
  rewrite EC1. cbn [bind].
  destruct (crossing_append_spec orc1 (first_street_id lv)
                                 ((node_id cs + 1)%Z, (node_id cs0 + 1)%Z))
    as (orc2 & EC2 & HP2).
  rewrite EC2. cbn [bind].
  eexists. exists node'. split; [reflexivity|].
  cbn [node_id output_trench_corners output_road_crossing].
  split; [rewrite Hcnt; lia|]. split; [reflexivity|]. split; [exists theta; exact Hat|].
  split.
  { rewrite new_ids_S, !map_app, Hids. cbn [map]. f_equal.
    cbn [node' with_node_for_adding tc_node_for_adding]. do 2 f_equal. rewrite Hcnt. lia. }
  split.
  { apply distinct_corners_snoc; [exact Hdist|]. intros c Hc.
    rewrite corner_eqb_sym. unfold node'. rewrite corner_eqb_with_id.
    apply Hfresh1. apply Hcorners. now right. }
  split.
  { intros c. unfold all_corners at 1. cbn [output_trench_corners].
    rewrite Hin3, Hin2. fold (all_corners cs). rewrite Hcorners, in_app_iff.
    cbn [In]. intuition (subst; auto). }
  unfold all_crossings at 1. cbn [output_road_crossing length].
  rewrite ring_edges_new_ids.
  eapply Permutation_trans; [exact HP2|].
  eapply Permutation_trans; [apply Permutation_app_tail; exact HP1|].
  eapply Permutation_trans;
    [apply Permutation_app_tail, Permutation_app_tail; exact Hcross|].
  cbn [length] in Hcnt. rewrite <- !app_assoc. cbn [app].
  replace ((node_id cs0 + Z.of_nat (S (length made')))%Z) with (node_id cs)
    by (rewrite Hcnt; reflexivity).
  replace ((node_id cs0 + Z.of_nat (S (S (length made'))))%Z) with (node_id cs + 1)%Z
    by (rewrite Hcnt; lia).
  reflexivity.
Qed.

Lemma dead_end_corner_fresh (u : Z) (current_node : Node) (lv : LoopVars)
    (factor a1 : R) (cs : CornerState) :
  first_radian lv = Some a1 ->
  dict_mem StreetId_eqb (output_trench_corners cs) (first_street_id lv) = true ->
  dict_mem StreetId_eqb (output_trench_corners cs) (last_street_id lv) = true ->
  (forall node c, at_angle current_node (a1 + PI * factor) node ->
                  In c (all_corners cs) -> corner_eqb node c = false) ->
  exists node otc,
    dead_end_corner u current_node lv factor cs
    = Ok (node, {| nodes := nodes cs;
                   output_trench_corners := otc;
                   output_road_crossing :=
                     setdefault StreetId_eqb (output_road_crossing cs)
                                (first_street_id lv) [];
                   node_id := (node_id cs + 1)%Z |})
    /\ at_angle current_node (a1 + PI * factor) node
    /\ tc_u node = u
    /\ tc_node_for_adding node = Some (node_id cs + 1)%Z
    /\ (forall c, In c (concat (map snd otc)) <-> In c (all_corners cs) \/ c = node)
    /\ (forall k, dict_mem StreetId_eqb otc k
                  = dict_mem StreetId_eqb (output_trench_corners cs) k).
Proof.
  intros Hfirst Hfb Hlb Hfresh. unfold dead_end_corner. rewrite Hfirst. cbn [need bind].
  unfold point_on_circle.
  set (node := new_TrenchCorner _ _ 2 u [street_segment_id lv]).
  assert (Hat : at_angle current_node (a1 + PI * factor) node) by reflexivity.
  rewrite not_in_buckets_fresh; [| intros c Hc; now apply Hfresh | assumption | assumption].
  cbn [bind].
  set (node' := with_node_for_adding node (node_id cs + 1)).
  destruct (bucket_add_spec (output_trench_corners cs) (first_street_id lv) node' Hfb)
    as (otc2 & E2 & Hin2 & Hmem2).
  { intros c Hc He. unfold node' in He. rewrite corner_eqb_with_id in He.
    rewrite (Hfresh node c Hat Hc) in He. discriminate. }
  rewrite E2. cbn [bind].
  exists node', otc2. repeat split; try assumption; try reflexivity; apply Hin2.
Qed.

(** The two corners of a dead end whose loop met no known corner. *)
Lemma dead_end_fresh (u : Z) (current_node : Node) (cs0 : CornerState) (a1 : R)
    (st : CornerState * LoopVars) :
  none_on_circle current_node cs0 ->
  loop_inv u current_node cs0 a1 a1 [] st ->
  exists cs' c1 c2,
    dead_end u current_node st = Ok cs'
    /\ node_id cs' = (node_id cs0 + 2)%Z
    /\ tc_u c1 = u /\ tc_u c2 = u
    /\ at_angle current_node (a1 + PI * (5 / 10)) c1
    /\ at_angle current_node (a1 + PI * (5 / 10) + PI) c2
    /\ tc_node_for_adding c1 = Some (node_id cs0 + 1)%Z
    /\ tc_node_for_adding c2 = Some (node_id cs0 + 2)%Z
    /\ corner_eqb c1 c2 = false
    /\ (forall x, In x (all_corners cs') <-> In x (all_corners cs0) \/ In x [c1; c2])
    /\ Permutation (all_crossings cs')
                   (all_crossings cs0 ++ [((node_id cs0 + 1)%Z, (node_id cs0 + 2)%Z)]).
Proof.
  intros Hfresh Hinv. destruct st as [cs lv].
  destruct Hinv as [Hord Hfirst Hlast Hfb Hlb Hcnt Hln Hfn Hcorners Hids Hmade Hdist Hcross].
  cbn [fst snd length] in *. pose proof PI_RGT_0 as Hpi.
  unfold dead_end.
  destruct (dead_end_corner_fresh u current_node lv (5 / 10) a1 cs Hfirst Hfb Hlb)
    as (c1 & otc1 & E1 & Hat1 & Hu1 & Hid1 & Hin1 & Hmem1).
  { intros node c Hat Hc. apply Hcorners in Hc. destruct Hc as [Hc | []].
    apply (off_circle_differ current_node _ _ _ Hat). now apply Hfresh. }
  rewrite E1. cbn [bind].
  set (cs1 := mkCornerState _ otc1 _ _).
  destruct (dead_end_corner_fresh u current_node lv (15 / 10) a1 cs1 Hfirst)
    as (c2 & otc2 & E2 & Hat2 & Hu2 & Hid2 & Hin2 & Hmem2).
  { unfold cs1. cbn [output_trench_corners]. now rewrite Hmem1. }
  { unfold cs1. cbn [output_trench_corners]. now rewrite Hmem1. }
  { intros node c Hat Hc. unfold all_corners, cs1 in Hc. cbn [output_trench_corners] in Hc.
    apply Hin1 in Hc. destruct Hc as [Hc | ->].
    - apply Hcorners in Hc. destruct Hc as [Hc | []].
      apply (off_circle_differ current_node _ _ _ Hat). now apply Hfresh.
    - rewrite corner_eqb_sym.
      apply (at_angle_differ current_node _ _ _ _ Hat1 Hat); lra. }
  rewrite E2. cbn [bind]. unfold cs1 in Hid2 |- *.
  cbn [output_road_crossing node_id nodes] in Hid2 |- *.
  set (orc2 := setdefault StreetId_eqb
                 (setdefault StreetId_eqb (output_road_crossing cs) (first_street_id lv) [])
                 (first_street_id lv) []).
  assert (Hmem : dict_mem StreetId_eqb orc2 (first_street_id lv) = true).
  { unfold orc2.
    rewrite (dict_mem_setdefault StreetId_eqb StreetId_eqb_refl StreetId_eqb_compat).
    now rewrite StreetId_eqb_refl. }
  destruct (getitem_mem StreetId_eqb orc2 _ Hmem) as [l El].
  unfold getitem. rewrite El. cbn [bind]. unfold node_for_adding. rewrite Hid1, Hid2.
  cbn [bind node_id] in *.
  eexists. exists c1, c2. split; [reflexivity|].
  cbn [node_id output_trench_corners output_road_crossing].
  split; [lia|]. split; [exact Hu1|]. split; [exact Hu2|]. split; [exact Hat1|].
  split.
  { replace (a1 + PI * (5 / 10) + PI) with (a1 + PI * (15 / 10)) by field. exact Hat2. }
  split; [rewrite Hid1; f_equal; lia|].
  split; [rewrite Hid2; f_equal; lia|].
  split; [apply (at_angle_differ current_node _ _ _ _ Hat1 Hat2); lra|].
  split.
  { intros x. unfold all_corners at 1. cbn [output_trench_corners].
    rewrite Hin2. unfold all_corners at 1, cs1. cbn [output_trench_corners].
    rewrite Hin1, Hcorners. cbn [In]. intuition (subst; auto). }
  unfold all_crossings at 1. cbn [output_road_crossing].
  eapply Permutation_trans; [apply (flat_dict_set_app StreetId_eqb); exact El|].
  unfold orc2. rewrite !flat_setdefault_nil. fold (all_crossings cs).
  replace ((node_id cs + 1 + 1)%Z) with (node_id cs0 + 2)%Z by lia.
  replace ((node_id cs + 1)%Z) with (node_id cs0 + 1)%Z by lia.
  apply Permutation_app_tail.
  unfold new_ids in Hcross. cbn [seq map path_edges] in Hcross.
  now rewrite app_nil_r in Hcross.
Qed.

(** ** The angles of the streets of an intersection *)

Lemma angle_of_zero_vector : angle (1, 0) (0, 0) = Raise ZeroDivisionError.
Proof.
  unfold angle. rewrite (Rltb_ge 0 0) by lra.
  assert (H0 : hypot 0 0 = 0) by (apply hypot_0_l; lra).
  rewrite H0. unfold pydiv. rewrite (Reqb_eq (hypot 1 0 * 0) 0) by ring. reflexivity.
Qed.

Lemma angle_range (x y r : R) : angle (1, 0) (x, y) = Ok r -> 0 <= r < 2 * PI.
Proof.
  intros Hr. destruct (Req_dec_T x 0) as [-> | Hx].
  - destruct (Req_dec_T y 0) as [-> | Hy].
    + rewrite angle_of_zero_vector in Hr. discriminate.
    + destruct (angle_from_x_axis 0 y) as (a & Ha & Hrange & _).
      { intros [= H]. contradiction. }
      rewrite Ha in Hr. now injection Hr as <-.
  - destruct (angle_from_x_axis x y) as (a & Ha & Hrange & _).
    { intros [= H _]. contradiction. }
    rewrite Ha in Hr. now injection Hr as <-.
Qed.

Lemma street_radian_range (network : Network) (u : Z) (current_node : Node)
    (v : Z) (r : R) :
  street_radian network u current_node v = Ok r -> 0 <= r < 2 * PI.
Proof.
  unfold street_radian.
  destruct (get_edge_data0 network u v) as [street |]; [| discriminate].
  cbn [bind]. destruct (e_geometry street) as [l |].
  - destruct (index l 0) as [l0 |]; [| discriminate]. cbn [bind].
    destruct (if pair_eqb l0 (node_x current_node, node_y current_node)
              then index l 1 else index_from_end l 2) as [v1 |]; [| discriminate].
    cbn [bind]. apply angle_range.
  - destruct (getitem Z.eqb (net_nodes network) v) as [neighbor |]; [| discriminate].
    cbn [bind]. apply angle_range.
Qed.

Lemma dict_get_none_keys (d : list (R * Z)) (k : R) :
  dict_get Reqb d k = None -> ~ In k (map fst d).
Proof.
  induction d as [| [k' v'] rest IH]; intros Hget Hin; [destruct Hin|].
  cbn [dict_get] in Hget. destruct (Reqb k' k) eqn:Ek; [discriminate|].
  apply Reqb_false_iff in Ek. destruct Hin as [Hin | Hin]; [contradiction|].
  now apply IH.
Qed.

Lemma dict_get_some_keys (d : list (R * Z)) (k : R) :
  In k (map fst d) -> exists v, dict_get Reqb d k = Some v.
Proof.
  induction d as [| [k' v'] rest IH]; intros Hin; [destruct Hin|].
  cbn [dict_get]. destruct (Reqb k' k) eqn:Ek; [eauto|].
  apply Reqb_false_iff in Ek. destruct Hin as [Hin | Hin]; [contradiction|].
  now apply IH.
Qed.

Lemma dict_set_keys (d : list (R * Z)) (k : R) (v : Z) :
  map fst (dict_set Reqb d k v)
  = if dict_mem Reqb d k then map fst d else map fst d ++ [k].
Proof.
  unfold dict_mem. induction d as [| [k' v'] rest IH]; [reflexivity|].
  cbn [dict_set dict_get]. destruct (Reqb k' k) eqn:Ek; [reflexivity|].
  cbn [map fst]. rewrite IH. now destruct (dict_get Reqb rest k).
Qed.

Lemma collect_neighbors_keys (network : Network) (u : Z) (current_node : Node)
    (vs : list Z) :
  forall (acc neighbors : list (R * Z)),
    collect_neighbors network u current_node vs acc = Ok neighbors ->
    NoDup (map fst acc) ->
    Forall (fun a => 0 <= a < 2 * PI) (map fst acc) ->
    NoDup (map fst neighbors)
    /\ Forall (fun a => 0 <= a < 2 * PI) (map fst neighbors).
Proof.
  induction vs as [| v rest IH]; intros acc neighbors Hrun Hnd Hrange.
  - injection Hrun as <-. now split.
  - cbn [collect_neighbors] in Hrun.
    destruct (street_radian network u current_node v) as [r |] eqn:Er; [| discriminate].
    cbn [bind] in Hrun. apply street_radian_range in Er.
    apply (IH _ _ Hrun); rewrite dict_set_keys; unfold dict_mem;
      destruct (dict_get Reqb acc r) eqn:Eg; try assumption.
    + apply NoDup_app_remove_l with (l := []). cbn.
      apply Permutation_NoDup with (l := r :: map fst acc).
      * apply Permutation_cons_append.
      * constructor; [now apply dict_get_none_keys | exact Hnd].
    + apply Forall_app. split; [exact Hrange | now constructor].
Qed.

(** ** Sorting the angles *)

Lemma insert_sorted_perm (x : R) (l : list R) : Permutation (insert_sorted x l) (x :: l).
Proof.
  induction l as [| y rest IH]; [reflexivity|].
  cbn [insert_sorted]. destruct (Rltb x y); [reflexivity|].
  rewrite IH. apply perm_swap.
Qed.

Lemma sort_R_perm (l : list R) : Permutation (sort_R l) l.
Proof.
  induction l as [| x rest IH]; [reflexivity|].
  cbn [sort_R fold_right]. fold (sort_R rest).
  rewrite insert_sorted_perm. now constructor.
Qed.

Lemma insert_sorted_sorted (x : R) (l : list R) :
  StronglySorted Rlt l -> ~ In x l -> StronglySorted Rlt (insert_sorted x l).
Proof.
  induction 1 as [| y rest Hsorted IH Hall]; intros Hnotin.
  - cbn. constructor; constructor.
  - cbn [insert_sorted]. destruct (Rltb x y) eqn:E.
    + apply Rltb_true_iff in E. constructor.
      * now constructor.
      * constructor; [exact E|].
        eapply Forall_impl; [| exact Hall]. intros z Hz. cbn in Hz. lra.
    + apply Rltb_false_iff in E.
      assert (Hyx : y < x).
      { destruct (Req_dec_T x y) as [-> | Hne]; [exfalso; apply Hnotin; now left | lra]. }
      constructor.
      * apply IH. intros Hin. apply Hnotin. now right.
      * apply (Permutation_Forall (Permutation_sym (insert_sorted_perm x rest))).
        now constructor.
Qed.

Lemma sort_R_sorted (l : list R) : NoDup l -> StronglySorted Rlt (sort_R l).
Proof.
  induction 1 as [| x rest Hnotin Hnd IH]; [constructor|].
  cbn [sort_R fold_right]. fold (sort_R rest).
  apply insert_sorted_sorted; [exact IH|].
  intros Hin. apply Hnotin. exact (Permutation_in _ (sort_R_perm rest) Hin).
Qed.

(** ** An intersection that meets no known corner *)

Lemma last_cons_default (a b : R) (l : list R) : last (b :: l) a = last l b.
Proof.
  revert a b. induction l as [| c rest IH]; intros a b; [reflexivity|].
  change (last (b :: c :: rest) a) with (last (c :: rest) a).
  now rewrite (IH a c), (IH b c).
Qed.

Lemma last_in_cons (a : R) (l : list R) : In (last l a) (a :: l).
Proof.
  revert a. induction l as [| b rest IH]; intros a; [now left|].
  rewrite last_cons_default. right. apply IH.
Qed.

Lemma sorted_angles (network : Network) (u : Z) (current_node : Node)
    (neighbors : list (R * Z)) :
  collect_neighbors network u current_node (neighbors_of network u) [] = Ok neighbors ->
  let sorted_vs := sort_R (map fst neighbors) in
  length sorted_vs = length neighbors
  /\ StronglySorted Rlt sorted_vs
  /\ Forall (fun a => 0 <= a < 2 * PI) sorted_vs
  /\ Forall (fun a => exists v, dict_get Reqb neighbors a = Some v) sorted_vs.
Proof.
  intros Hcollect sorted_vs.
  destruct (collect_neighbors_keys _ _ _ _ _ _ Hcollect (NoDup_nil _) (Forall_nil _))
    as [Hnd Hrange].
  pose proof (sort_R_perm (map fst neighbors)) as Hperm. fold sorted_vs in Hperm.
  split; [rewrite (Permutation_length Hperm); apply length_map|].
  split; [now apply sort_R_sorted|].
  split; [exact (Permutation_Forall (Permutation_sym Hperm) Hrange)|].
  apply Forall_forall. intros a Ha. apply dict_get_some_keys.
  exact (Permutation_in _ Hperm Ha).
Qed.

Lemma fresh_intersection_many (network : Network) (cs : CornerState) (u : Z)
    (current_node : Node) (neighbors : list (R * Z)) :
  collect_neighbors network u current_node (neighbors_of network u) [] = Ok neighbors ->
  none_on_circle current_node cs ->
  (2 <= length neighbors)%nat ->
  exists cs' made,
    process_intersection network cs u current_node = Ok cs'
    /\ length made = length neighbors
    /\ Forall (fun c => tc_u c = u
                        /\ node_distance c current_node = distance_from_center_of_road)
              made
    /\ map tc_node_for_adding made
       = map Some (new_ids (node_id cs) (length neighbors))
    /\ distinct_corners made
    /\ (forall c, In c (all_corners cs') <-> In c (all_corners cs) \/ In c made)
    /\ Permutation (all_crossings cs')
                   (all_crossings cs ++ ring_edges (new_ids (node_id cs) (length neighbors))).
Proof.
  intros Hcollect Hfresh Hn.
  destruct (sorted_angles _ _ _ _ Hcollect) as (Hlen & Hsorted & Hrange & Hkeys).
  unfold process_intersection. rewrite Hcollect. cbn [bind].
  remember (sort_R (map fst neighbors)) as sorted_vs eqn:Es. clear Es.
  rewrite <- Hlen in *. clear Hlen.
  destruct sorted_vs as [| a1 [| a2 rest]]; cbn [length] in Hn; try lia.
  inversion Hkeys as [| ? ? [v1 Hv1] Hkeys']; subst.
  inversion Hrange as [| ? ? Hr1 Hrange']; subst.
  destruct (corner_step_first u current_node neighbors cs a1 v1 Hv1) as (st1 & E1 & Hinv1).
  cbn [corner_loop]. rewrite E1. cbn [bind].
  destruct (corner_loop_rest u current_node neighbors cs a1 (a2 :: rest) Hfresh
              a1 [] st1 Hinv1 Hsorted) as (st2 & made & E2 & Hinv2 & Hlen2).
  { eapply Forall_impl; [| exact Hrange']. intros a Ha. cbn in Ha. lra. }
  { exact Hkeys'. }
  cbn [corner_loop] in E2. rewrite E2. cbn [bind app] in *.
  assert (Hlast : last (a2 :: rest) a1 - a1 < 2 * PI).
  { pose proof (last_in_cons a1 (a2 :: rest)) as Hin.
    rewrite Forall_forall in Hrange. specialize (Hrange _ Hin). lra. }
  destruct (wrap_around_fresh u current_node cs a1 _ made st2 Hfresh Hinv2)
    as (cs' & c & E3 & Hid & Hu & [theta Hat] & Hids & Hdist & Hin & Hcross).
  { intros ->. discriminate. }
  { exact Hlast. }
  change (1 <? length (a1 :: a2 :: rest))%nat with true. cbn iota.
  exists cs', (made ++ [c]). rewrite E3.
  split; [reflexivity|].
  split; [rewrite length_app, Hlen2; cbn [length]; lia|].
  split.
  { apply Forall_app. split.
    - eapply Forall_impl; [| exact (inv_made _ _ _ _ _ _ _ Hinv2)].
      intros x (Hx & t & _ & Hxt). split; [exact Hx|].
      exact (at_angle_distance _ _ _ Hxt).
    - constructor; [| constructor]. split; [exact Hu|].
      exact (at_angle_distance _ _ _ Hat). }
  rewrite Hlen2 in Hids, Hcross. cbn [length] in *.
  repeat split; try assumption; apply Hin.
Qed.

Lemma fresh_intersection_dead_end (network : Network) (cs : CornerState) (u : Z)
    (current_node : Node) (neighbors : list (R * Z)) :
  collect_neighbors network u current_node (neighbors_of network u) [] = Ok neighbors ->
  none_on_circle current_node cs ->
  length neighbors = 1%nat ->
  exists cs' c1 c2 theta,
    process_intersection network cs u current_node = Ok cs'
    /\ tc_u c1 = u /\ tc_u c2 = u
    /\ at_angle current_node theta c1
    /\ at_angle current_node (theta + PI) c2
    /\ node_distance c1 current_node = distance_from_center_of_road
    /\ node_distance c2 current_node = distance_from_center_of_road
    /\ tc_node_for_adding c1 = Some (node_id cs + 1)%Z
    /\ tc_node_for_adding c2 = Some (node_id cs + 2)%Z
    /\ corner_eqb c1 c2 = false
    /\ (forall c, In c (all_corners cs') <-> In c (all_corners cs) \/ In c [c1; c2])
    /\ Permutation (all_crossings cs')
                   (all_crossings cs ++ [((node_id cs + 1)%Z, (node_id cs + 2)%Z)]).
Proof.
  intros Hcollect Hfresh Hn.
  destruct (sorted_angles _ _ _ _ Hcollect) as (Hlen & Hsorted & Hrange & Hkeys).
  unfold process_intersection. rewrite Hcollect. cbn [bind].
  remember (sort_R (map fst neighbors)) as sorted_vs eqn:Es. clear Es.
  rewrite <- Hlen in *. clear Hlen.
  destruct sorted_vs as [| a1 [| a2 rest]]; cbn [length] in Hn; try lia.
  inversion Hkeys as [| ? ? [v1 Hv1] Hkeys']; subst.
  destruct (corner_step_first u current_node neighbors cs a1 v1 Hv1) as (st1 & E1 & Hinv1).
  cbn [corner_loop]. rewrite E1. cbn [bind].
  destruct (dead_end_fresh u current_node cs a1 st1 Hfresh Hinv1)
    as (cs' & c1 & c2 & E2 & Hid & Hu1 & Hu2 & Hat1 & Hat2 & Hid1 & Hid2 & Hne & Hin & Hcross).
  change (1 <? length [a1])%nat with false. change (length [a1] =? 1)%nat with true.
  cbn iota. exists cs', c1, c2, (a1 + PI * (5 / 10)). rewrite E2.
  repeat split; try assumption; try apply Hin.
  - exact (at_angle_distance _ _ _ Hat1).
  - exact (at_angle_distance _ _ _ Hat2).
Qed.

(** X29: take an intersection for which the loop over its neighbours
    keeps [n] entries in [neighbors], one for each different angle of
    the edges with key 0 to its successors, and which is processed when
    the index holds no corner on the circle on which its corners are
    placed.  If [n >= 2] the synthesizer makes exactly [n] corners, all
    different, each owned by the intersection and at the offset
    distance from it, with the next [n] identifiers, and adds exactly
    the [n] crossing edges that join each of them to the next and the
    last to the first.  If [n = 1] it makes exactly two corners, at
    angles PI apart and at the offset distance, and adds the one
    crossing edge between them. *)
Theorem corners_of_a_fresh_intersection (network : Network) (cs : CornerState)
    (u : Z) (current_node : Node) (neighbors : list (R * Z)) :
  collect_neighbors network u current_node (neighbors_of network u) [] = Ok neighbors ->
  none_on_circle current_node cs ->
  let n := length neighbors in
  ((2 <= n)%nat ->
   exists cs' made,
     process_intersection network cs u current_node = Ok cs'
     /\ length made = n
     /\ Forall (fun c => tc_u c = u
                         /\ node_distance c current_node = distance_from_center_of_road)
               made
     /\ map tc_node_for_adding made = map Some (new_ids (node_id cs) n)
     /\ distinct_corners made
     /\ (forall c, In c (all_corners cs') <-> In c (all_corners cs) \/ In c made)
     /\ Permutation (all_crossings cs')
                    (all_crossings cs ++ ring_edges (new_ids (node_id cs) n)))
  /\ (n = 1%nat ->
      exists cs' c1 c2 theta,
        process_intersection network cs u current_node = Ok cs'
        /\ tc_u c1 = u /\ tc_u c2 = u
        /\ at_angle current_node theta c1
        /\ at_angle current_node (theta + PI) c2
        /\ node_distance c1 current_node = distance_from_center_of_road
        /\ node_distance c2 current_node = distance_from_center_of_road
        /\ tc_node_for_adding c1 = Some (node_id cs + 1)%Z
        /\ tc_node_for_adding c2 = Some (node_id cs + 2)%Z
        /\ corner_eqb c1 c2 = false
        /\ (forall c, In c (all_corners cs') <-> In c (all_corners cs) \/ In c [c1; c2])
        /\ Permutation (all_crossings cs')
                       (all_crossings cs ++ [((node_id cs + 1)%Z, (node_id cs + 2)%Z)])).
Proof.
  intros Hcollect Hfresh n. split; intros Hn.
  - exact (fresh_intersection_many network cs u current_node neighbors Hcollect Hfresh Hn).
  - exact (fresh_intersection_dead_end network cs u current_node neighbors
             Hcollect Hfresh Hn).
Qed.

Lemma corners_of_a_fresh_intersection_witness :
  (exists cs' made,
     process_intersection twin_network corner_state_init 1 (mkNode 0 0 2) = Ok cs'
     /\ length made = 2%nat
     /\ Forall (fun c => tc_u c = 1%Z
                         /\ node_distance c (mkNode 0 0 2) = distance_from_center_of_road)
               made
     /\ map tc_node_for_adding made = map Some [400000001; 400000002]%Z
     /\ distinct_corners made
     /\ (forall c, In c (all_corners cs') <-> In c made)
     /\ Permutation (all_crossings cs')
                    [(400000001, 400000002); (400000002, 400000001)]%Z)
  /\ (exists cs' c1 c2 theta,
        process_intersection fan_network corner_state_init 1 (mkNode 0 0 3) = Ok cs'
        /\ at_angle (mkNode 0 0 3) theta c1
        /\ at_angle (mkNode 0 0 3) (theta + PI) c2
        /\ Permutation (all_crossings cs') [(400000001, 400000002)%Z]).
Proof.
  assert (Hfresh : forall current_node, none_on_circle current_node corner_state_init)
    by (intros current_node c []).
  split.
  - destruct (proj1 (corners_of_a_fresh_intersection twin_network corner_state_init 1
                       (mkNode 0 0 2) _ twin_collect_1 (Hfresh _)) (le_n 2))
      as (cs' & made & E & Hlen & Hall & Hids & Hdist & Hin & Hcross).
    exists cs', made. repeat split; try assumption.
    + intros Hc. apply Hin in Hc. destruct Hc as [[] | Hc]. exact Hc.
    + intros Hc. apply Hin. now right.
  - destruct (proj2 (corners_of_a_fresh_intersection fan_network corner_state_init 1
                       (mkNode 0 0 3) _ fan_collect (Hfresh _)) eq_refl)
      as (cs' & c1 & c2 & theta & E & _ & _ & Hat1 & Hat2 & _ & _ & _ & _ & _ & _ & Hcross).
    exists cs', c1, c2, theta. repeat split; assumption.
Defined.

(** ** The two construction paths on a street of two points *)

Lemma py_round_close (x : R) (n : nat) : Rabs (py_round x n - x) <= 1.
Proof.
  unfold py_round.
  assert (Hs : 1 <= 10 ^ n) by (apply pow_R1_Rle; lra).
  set (s := 10 ^ n) in *. set (y := x * s).
  destruct (base_Int_part y) as [Hlo Hhi].
  set (k := Int_part y) in *.
  assert (Hm : forall m : Z, m = k \/ m = (k + 1)%Z -> Rabs (IZR m / s - x) <= 1).
  { intros m Hm.
    assert (Hy : Rabs (IZR m - y) <= 1).
    { apply Rabs_le. destruct Hm as [-> | ->]; [| rewrite plus_IZR]; lra. }
    replace (IZR m / s - x) with ((IZR m - y) / s) by (unfold y; field; lra).
    unfold Rdiv. rewrite Rabs_mult, (Rabs_pos_eq (/ s)).
    - assert (0 < / s <= 1).
      { split; [apply Rinv_0_lt_compat; lra|].
        rewrite <- Rinv_1. apply Rinv_le_contravar; lra. }
      pose proof (Rabs_pos (IZR m - y)). nra.
    - left. apply Rinv_0_lt_compat. lra. }
  apply Hm.
  destruct (Rltb (y - IZR k) (1 / 2)); [now left|].
  destruct (Rltb (1 / 2) (y - IZR k)); [now right|].
  destruct (Z.even k); [now left | now right].
Qed.

Lemma Rabs_le_bounds (a b : R) : Rabs a <= b -> - b <= a <= b.
Proof.
  intros H. pose proof (Rle_abs a) as H1. pose proof (Rle_abs (- a)) as H2.
  rewrite Rabs_Ropp in H2. lra.
Qed.

(** The offset of a point of a segment moves it by at most the offset
    distance, before rounding. *)
Lemma offset_step_small (dx dy : R) :
  let road_length := sqrt (dx ^ 2 + dy ^ 2) in
  let road_length := if Reqb road_length 0 then 1 / 100000 else road_length in
  let t := distance_from_center_of_road / road_length in
  Rabs (t * dx) <= 1 /\ Rabs (t * dy) <= 1.
Proof.
  cbn zeta.
  assert (Hsq : 0 <= dx ^ 2 + dy ^ 2) by nra.
  pose proof (sqrt_pos (dx ^ 2 + dy ^ 2)) as Hpos.
  pose proof (sqrt_sqrt _ Hsq) as Hss.
  set (len := sqrt (dx ^ 2 + dy ^ 2)) in *.
  destruct (Req_dec_T len 0) as [H0 | H0].
  - rewrite (Reqb_eq _ _ H0). rewrite H0 in Hss.
    assert (dx = 0) by nra. assert (dy = 0) by nra. subst dx dy.
    rewrite !Rmult_0_r, Rabs_R0. lra.
  - rewrite (Reqb_neq _ _ H0).
    assert (Hlen : 0 < len) by lra.
    assert (Hx : Rabs dx <= len).
    { apply Rabs_le. split; nra. }
    assert (Hy : Rabs dy <= len).
    { apply Rabs_le. split; nra. }
    assert (Ht : 0 < distance_from_center_of_road / len).
    { apply Rdiv_lt_0_compat; [unfold distance_from_center_of_road; lra | exact Hlen]. }
    assert (Htl : distance_from_center_of_road / len * len = distance_from_center_of_road)
      by (field; lra).
    rewrite !Rabs_mult, (Rabs_pos_eq (distance_from_center_of_road / len)) by lra.
    unfold distance_from_center_of_road in *. split; nra.
Qed.

Lemma parallel_points_in_range (u_node v_node : Node) (side_id : Z) (bound : R) :
  in_range bound u_node -> in_range bound v_node ->
  in_range (bound + 2) (fst (get_parallel_line_points u_node v_node
                               distance_from_center_of_road side_id))
  /\ in_range (bound + 2) (snd (get_parallel_line_points u_node v_node
                                  distance_from_center_of_road side_id)).
Proof.
  intros [Hux Huy] [Hvx Hvy]. cbn [getx gety XY_Node] in *.
  unfold get_parallel_line_points.
  destruct (offset_step_small (node_x u_node - node_x v_node)
                              (node_y u_node - node_y v_node)) as [Hdx Hdy].
  cbn zeta in Hdx, Hdy.
  set (dx := node_x u_node - node_x v_node) in *.
  set (dy := node_y u_node - node_y v_node) in *.
  set (t := distance_from_center_of_road
            / (if Reqb (sqrt (dx ^ 2 + dy ^ 2)) 0 then 1 / 100000
               else sqrt (dx ^ 2 + dy ^ 2))) in *.
  assert (Ht : forall s : R, Rabs (t * s) <= 1 -> Rabs (t * (-1 * s)) <= 1).
  { intros s Hs. replace (t * (-1 * s)) with (- (t * s)) by ring. now rewrite Rabs_Ropp. }
  assert (Hround : forall p s : R, Rabs p <= bound -> Rabs (t * s) <= 1 ->
                                   Rabs (py_round ((1 - t) * p + t * (p + s)) 7)
                                   <= bound + 2).
  { intros p s Hp Hs.
    pose proof (py_round_close ((1 - t) * p + t * (p + s)) 7) as Hc.
    apply Rabs_le_bounds in Hp, Hs, Hc. apply Rabs_le.
    replace ((1 - t) * p + t * (p + s)) with (p + t * s) in * by ring.
    lra. }
  unfold in_range.
  destruct (side_id =? 1)%Z; cbn [fst snd getx gety XY_Node node_x node_y];
    repeat split; apply Hround; auto.
Qed.

(** Points whose coordinates are at most a million apart from zero are
    within the snapping distance of each other. *)
Lemma node_distance_in_range {A B : Type} `{XY A} `{XY B} (a : A) (b : B) (bound : R) :
  bound <= 1000000 -> in_range bound a -> in_range (bound + 2) b ->
  node_distance a b < 10000000.
Proof.
  intros Hb [Hax Hay] [Hbx Hby].
  apply Rabs_le_bounds in Hax, Hay, Hbx, Hby.
  apply node_distance_lt; [lra|].
  set (dx := getx b - getx a). set (dy := gety b - gety a).
  assert (Hdx : -2000002 <= dx <= 2000002) by (unfold dx; lra).
  assert (Hdy : -2000002 <= dy <= 2000002) by (unfold dy; lra).
  nra.
Qed.

(** On a geometry of two points the walk makes one offset segment, and
    each end snaps to the only corner that it is given. *)
Lemma get_trench_linestring_two_points (cu cv : TrenchCorner) (u_node v_node : Node)
    (side_id : Z) (bound : R) :
  bound <= 1000000 ->
  in_range bound u_node -> in_range bound v_node ->
  in_range bound cu -> in_range bound cv ->
  get_trench_linestring [cu] [cv] [xy_of u_node; xy_of v_node]
                        distance_from_center_of_road side_id
  = Ok (two_point_trench cu cv u_node v_node side_id).
Proof.
  intros Hb Hu Hv Hcu Hcv.
  destruct (parallel_points_in_range (mkNode (node_x u_node) (node_y u_node) 1)
                                     (mkNode (node_x v_node) (node_y v_node) 1)
                                     side_id bound Hu Hv) as [Hnu Hnv].
  unfold get_trench_linestring, two_point_trench, xy_of.
  cbn [walk walk_step walk_init last_road_point last_line bind fst snd getx gety XY_Node].
  destruct (get_parallel_line_points (mkNode (node_x u_node) (node_y u_node) 1)
                                     (mkNode (node_x v_node) (node_y v_node) 1)
                                     distance_from_center_of_road side_id)
    as [new_u_node new_v_node] eqn:Epar.
  cbn [fst snd] in Hnu, Hnv.
  rewrite closest_corner_single by (now apply (node_distance_in_range _ _ bound)).
  cbn [fst snd need bind last_trench_point].
  rewrite closest_corner_single.
  2:{ apply (node_distance_in_range _ _ bound); try assumption.
      destruct Hnv as [Hx _]. split; exact Hx. }
  reflexivity.
Qed.

(** Filtering a set into a new set keeps the elements in their order. *)
Lemma filter_set_from (keep : TrenchCorner -> bool) (l acc : list TrenchCorner) :
  distinct_corners l ->
  (forall a c, In a acc -> In c l -> corner_eqb a c = false) ->
  fold_left (fun acc corner => if keep corner then set_add acc corner else acc) l acc
  = acc ++ filter keep l.
Proof.
  revert acc. induction l as [| x l IH]; intros acc Hd Hacc.
  - cbn. now rewrite app_nil_r.
  - inversion Hd as [| x' l' Hx Hl]; subst. cbn [fold_left filter].
    destruct (keep x) eqn:Ek.
    + rewrite set_add_new.
      2:{ apply set_mem_false. intros a Ha. rewrite corner_eqb_sym.
          apply Hacc; [exact Ha | now left]. }
      rewrite IH; [now rewrite <- app_assoc | exact Hl |].
      intros a c Ha Hc. apply in_app_or in Ha. destruct Ha as [Ha | [<- | []]].
      * apply Hacc; [exact Ha | now right].
      * rewrite Forall_forall in Hx. now apply Hx.
    + apply IH; [exact Hl|]. intros a c Ha Hc. apply Hacc; [exact Ha | now right].
Qed.

Lemma filter_set_filter (keep : TrenchCorner -> bool) (l : list TrenchCorner) :
  distinct_corners l -> filter_set keep l = filter keep l.
Proof.
  intros Hd. unfold filter_set. rewrite filter_set_from; [reflexivity | exact Hd |].
  intros a c [].
Qed.

Section TwoOwners.
Context {A : Type} (side pu pv : A -> bool).
Hypothesis owners_differ : forall c, pu c = true -> pv c = false.

Lemma filter_either_right (l : list A) :
  filter side (filter pu l) = [] ->
  filter side (filter (fun c => pu c || pv c) l) = filter side (filter pv l).
Proof.
  induction l as [| x l IH]; [reflexivity|]. cbn [filter].
  destruct (pu x) eqn:Eu.
  - rewrite (owners_differ x Eu). cbn [orb filter].
    destruct (side x); [discriminate | exact IH].
  - cbn [orb]. destruct (pv x); cbn [filter]; [| exact IH].
    destruct (side x); intros H; [f_equal|]; now apply IH.
Qed.

Lemma filter_either_left (l : list A) :
  filter side (filter pv l) = [] ->
  filter side (filter (fun c => pu c || pv c) l) = filter side (filter pu l).
Proof.
  induction l as [| x l IH]; [reflexivity|]. cbn [filter].
  destruct (pu x) eqn:Eu.
  - rewrite (owners_differ x Eu). cbn [orb filter].
    destruct (side x); intros H; [f_equal|]; now apply IH.
  - cbn [orb]. destruct (pv x); cbn [filter]; [| exact IH].
    destruct (side x); [discriminate | exact IH].
Qed.

(** One element of each owner on a side: the side has the two, in the
    order of the list. *)
Lemma filter_either_two (l : list A) (a b : A) :
  filter side (filter pu l) = [a] ->
  filter side (filter pv l) = [b] ->
  filter side (filter (fun c => pu c || pv c) l) = [a; b]
  \/ filter side (filter (fun c => pu c || pv c) l) = [b; a].
Proof.
  induction l as [| x l IH]; [discriminate|]. cbn [filter].
  destruct (pu x) eqn:Eu.
  - rewrite (owners_differ x Eu). cbn [orb filter].
    destruct (side x); [| exact IH].
    intros Ha Hb. injection Ha as -> Ha. left. f_equal.
    now rewrite filter_either_right.
  - cbn [orb]. destruct (pv x); cbn [filter]; [| exact IH].
    destruct (side x); [| exact IH].
    intros Ha Hb. injection Hb as -> Hb. right. f_equal.
    now rewrite filter_either_left.
Qed.

End TwoOwners.

(** The rejection test does not depend on the order of the two corners
    of the pair. *)
Lemma intersection_between_points_swap (u_node v_node : Node) (a b : TrenchCorner) :
  intersection_between_points (u_node, v_node) (b, a)
  = intersection_between_points (u_node, v_node) (a, b).
Proof.
  unfold intersection_between_points, det.
  cbn [fst snd getx gety XY_Node XY_TrenchCorner].
  set (ux := node_x u_node). set (uy := node_y u_node).
  set (vx := node_x v_node). set (vy := node_y v_node).
  set (ax := tc_x a). set (ay := tc_y a). set (bx := tc_x b). set (by_ := tc_y b).
  set (div := (ux - vx) * (ay - by_) - (ax - bx) * (uy - vy)).
  replace ((ux - vx) * (by_ - ay) - (bx - ax) * (uy - vy)) with (- div)
    by (unfold div; ring).
  destruct (Req_dec_T div 0) as [H0 | H0].
  - rewrite (Reqb_eq div 0 H0), (Reqb_eq (- div) 0) by lra. reflexivity.
  - rewrite (Reqb_neq div 0 H0), (Reqb_neq (- div) 0) by lra.
    replace (((ux * vy - uy * vx) * (bx - ax) - (bx * ay - by_ * ax) * (ux - vx)) / - div)
      with (((ux * vy - uy * vx) * (ax - bx) - (ax * by_ - ay * bx) * (ux - vx)) / div)
      by (field; lra).
    replace (((ux * vy - uy * vx) * (by_ - ay) - (bx * ay - by_ * ax) * (uy - vy)) / - div)
      with (((ux * vy - uy * vx) * (ay - by_) - (ax * by_ - ay * bx) * (uy - vy)) / div)
      by (field; lra).
    reflexivity.
Qed.

Lemma Rmin_plus_Rmax (a b : R) : Rmin a b + Rmax a b = a + b.
Proof.
  unfold Rmin, Rmax. destruct (Rle_dec a b); lra.
Qed.

(** Two pairs of corners on different sides of the street have
    different keys: the signed distances of a pair add up to a value
    that the key determines. *)
Lemma hash_differs_across_sides (u_node v_node : Node) (a0 b0 a1 b1 : TrenchCorner) :
  point_distance_from_line (u_node, v_node) a0 <= 0 ->
  point_distance_from_line (u_node, v_node) b0 <= 0 ->
  0 < point_distance_from_line (u_node, v_node) a1 ->
  0 < point_distance_from_line (u_node, v_node) b1 ->
  CandHash_eqb (trench_candidate_hash_of (a1, b1)) (trench_candidate_hash_of (a0, b0))
  = false.
Proof.
  unfold point_distance_from_line. cbn [fst snd getx gety XY_Node XY_TrenchCorner].
  intros Ha0 Hb0 Ha1 Hb1.
  destruct (CandHash_eqb _ _) eqn:E; [| reflexivity]. exfalso.
  unfold CandHash_eqb, trench_candidate_hash_of in E. cbn [fst snd] in E.
  apply andb_prop in E. destruct E as [E E4].
  apply andb_prop in E. destruct E as [E E3].
  apply andb_prop in E. destruct E as [E1 E2].
  apply Reqb_true_iff in E1, E2, E3, E4.
  pose proof (Rmin_plus_Rmax (tc_x a1) (tc_x b1)) as Hx1.
  pose proof (Rmin_plus_Rmax (tc_x a0) (tc_x b0)) as Hx0.
  pose proof (Rmin_plus_Rmax (tc_y a1) (tc_y b1)) as Hy1.
  pose proof (Rmin_plus_Rmax (tc_y a0) (tc_y b0)) as Hy0.
  assert (Hx : tc_x a1 + tc_x b1 = tc_x a0 + tc_x b0) by lra.
  assert (Hy : tc_y a1 + tc_y b1 = tc_y a0 + tc_y b0) by lra.
  clear - Ha0 Hb0 Ha1 Hb1 Hx Hy.
  set (p := node_y v_node - node_y u_node) in *.
  set (q := node_x v_node - node_x u_node) in *.
  assert ((tc_x a1 + tc_x b1) * p - (tc_y a1 + tc_y b1) * q
          = (tc_x a0 + tc_x b0) * p - (tc_y a0 + tc_y b0) * q) by (rewrite Hx, Hy; ring).
  lra.
Qed.

Lemma consider_pair_accepts (u_node v_node : Node) (sid : StreetId) (side_id : Z)
    (added : list CandHash) (es : EdgeLoopState) (a b : TrenchCorner) :
  tc_u a <> tc_u b ->
  intersection_between_points (u_node, v_node) (a, b) = false ->
  existsb (CandHash_eqb (trench_candidate_hash_of (a, b))) added = false ->
  consider_pair u_node v_node sid side_id (added, es) (a, b)
  = (added ++ [trench_candidate_hash_of (a, b)],
     {| point_edges := record_candidate (point_edges es) sid
                                        (trench_candidate_hash_of (a, b)) side_id
                                        (length (new_pp es));
        new_pp := new_pp es ++ [Some (a, b)];
        new_curved_pp := new_curved_pp es |}).
Proof.
  intros Hown Hcross Hnew. unfold consider_pair. cbn [fst snd].
  apply Z.eqb_neq in Hown. rewrite Hown, Hcross, Hnew. reflexivity.
Qed.

Lemma side_member {A : Type} `{XY A} (line : A * A) (l : list TrenchCorner)
    (s0 s1 : list TrenchCorner) :
  split_sides line l = (s0, s1) ->
  (forall c, In c s0 -> In c l /\ point_distance_from_line line c <= 0)
  /\ (forall c, In c s1 -> In c l /\ 0 < point_distance_from_line line c).
Proof.
  unfold split_sides. intros E. injection E as <- <-.
  split; intros c Hc; apply filter_In in Hc; destruct Hc as [Hin Hs]; (split; [exact Hin|]).
  - apply negb_true_iff in Hs. unfold Rgtb in Hs. now apply Rltb_false_iff in Hs.
  - unfold Rgtb in Hs. now apply Rltb_true_iff in Hs.
Qed.

(** On the geometry that consists of the two end points, both segments
    of the curved path are the street itself. *)
Lemma curved_street_two_points (u v : Z) (u_node v_node : Node)
    (corners : list TrenchCorner) (es : EdgeLoopState) :
  let geometry := [xy_of u_node; xy_of v_node] in
  let u_street_sides :=
    split_sides (u_node, v_node)
                (filter_set (fun corner => (tc_u corner =? u)%Z) corners) in
  let v_street_sides :=
    split_sides (u_node, v_node)
                (filter_set (fun corner => (tc_u corner =? v)%Z) corners) in
  curved_street u v u_node v_node corners geometry es
  = (es' <- curved_side u_street_sides v_street_sides geometry es 0 ;;
     curved_side u_street_sides v_street_sides geometry es' 1).
Proof.
  cbn zeta. unfold curved_street, xy_of.
  cbn [index index_from_end nth_error length Nat.ltb Nat.leb Nat.sub bind fst snd
       getx gety XY_Node].
  rewrite !Reqb_refl. cbn [andb bind]. reflexivity.
Qed.

Lemma curved_side_one_each (us vs : list TrenchCorner * list TrenchCorner)
    (u_node v_node : Node) (es : EdgeLoopState) (side_id : Z)
    (cu cv : TrenchCorner) (bound : R) :
  side_of us side_id = [cu] -> side_of vs side_id = [cv] ->
  bound <= 1000000 ->
  in_range bound u_node -> in_range bound v_node ->
  in_range bound cu -> in_range bound cv ->
  curved_side us vs [xy_of u_node; xy_of v_node] es side_id
  = Ok {| point_edges := point_edges es;
          new_pp := new_pp es;
          new_curved_pp := new_curved_pp es
                           ++ [two_point_trench cu cv u_node v_node side_id] |}.
Proof.
  intros Eu Ev Hb Hu Hv Hcu Hcv. unfold curved_side. rewrite Eu, Ev.
  cbn [length Nat.ltb Nat.leb andb].
  now rewrite (get_trench_linestring_two_points cu cv u_node v_node side_id bound).
Qed.

Lemma curved_side_none (us vs : list TrenchCorner * list TrenchCorner)
    (geometry : list (R * R)) (es : EdgeLoopState) (side_id : Z) :
  side_of us side_id = [] -> curved_side us vs geometry es side_id = Ok es.
Proof. intros Eu. unfold curved_side. now rewrite Eu. Qed.

(** The corners of one owner and one side of a street. *)
Lemma owner_side_member (u_node v_node : Node) (w : Z) (corners s0 s1 : list TrenchCorner) :
  split_sides (u_node, v_node) (filter (fun corner => (tc_u corner =? w)%Z) corners)
  = (s0, s1) ->
  (forall c, In c s0 -> In c corners /\ tc_u c = w
                        /\ point_distance_from_line (u_node, v_node) c <= 0)
  /\ (forall c, In c s1 -> In c corners /\ tc_u c = w
                           /\ 0 < point_distance_from_line (u_node, v_node) c).
Proof.
  intros E. destruct (side_member _ _ _ _ E) as [H0 H1].
  split; intros c Hc; [destruct (H0 c Hc) as [Hin Hd] | destruct (H1 c Hc) as [Hin Hd]];
    apply filter_In in Hin; destruct Hin as [Hin Hw]; apply Z.eqb_eq in Hw; auto.
Qed.

Lemma consider_two_sides (u_node v_node : Node) (sid : StreetId) (es : EdgeLoopState)
    (a0 b0 a1 b1 : TrenchCorner) :
  tc_u a0 <> tc_u b0 -> tc_u a1 <> tc_u b1 ->
  intersection_between_points (u_node, v_node) (a0, b0) = false ->
  intersection_between_points (u_node, v_node) (a1, b1) = false ->
  point_distance_from_line (u_node, v_node) a0 <= 0 ->
  point_distance_from_line (u_node, v_node) b0 <= 0 ->
  0 < point_distance_from_line (u_node, v_node) a1 ->
  0 < point_distance_from_line (u_node, v_node) b1 ->
  new_pp (snd (consider_pair u_node v_node sid 1
                 (consider_pair u_node v_node sid 0 ([], es) (a0, b0)) (a1, b1)))
  = new_pp es ++ [Some (a0, b0); Some (a1, b1)].
Proof.
  intros Ho0 Ho1 Hx0 Hx1 Da0 Db0 Da1 Db1.
  rewrite consider_pair_accepts by (try reflexivity; assumption).
  rewrite consider_pair_accepts; try assumption.
  - cbn [snd new_pp]. now rewrite <- app_assoc.
  - cbn [app existsb]. now rewrite (hash_differs_across_sides u_node v_node a0 b0 a1 b1).
Qed.

(** The straight path on a street with one corner of each end on each
    side considers one pair per side. *)
Lemma straight_street_pairs (u v : Z) (u_node v_node : Node) (sid : StreetId)
    (corners : list TrenchCorner) (es : EdgeLoopState) (cu0 cu1 cv0 cv1 : TrenchCorner) :
  u <> v ->
  distinct_corners corners ->
  split_sides (u_node, v_node) (filter_set (fun corner => (tc_u corner =? u)%Z) corners)
  = ([cu0], [cu1]) ->
  split_sides (u_node, v_node) (filter_set (fun corner => (tc_u corner =? v)%Z) corners)
  = ([cv0], [cv1]) ->
  exists p0 p1,
    (p0 = (cu0, cv0) \/ p0 = (cv0, cu0))
    /\ (p1 = (cu1, cv1) \/ p1 = (cv1, cu1))
    /\ straight_street u v u_node v_node sid corners es
       = snd (consider_pair u_node v_node sid 1
                (consider_pair u_node v_node sid 0 ([], es) p0) p1).
Proof.
  intros Huv Hd Hu Hv.
  rewrite filter_set_filter in Hu, Hv by exact Hd.
  unfold split_sides in Hu, Hv.
  pose proof (f_equal fst Hu) as Hu0. pose proof (f_equal snd Hu) as Hu1.
  pose proof (f_equal fst Hv) as Hv0. pose proof (f_equal snd Hv) as Hv1.
  clear Hu Hv.
  assert (Hown : forall c : TrenchCorner,
             (tc_u c =? u)%Z = true -> (tc_u c =? v)%Z = false).
  { intros c Hc. apply Z.eqb_eq in Hc. apply Z.eqb_neq. congruence. }
  unfold straight_street. rewrite filter_set_filter by exact Hd.
  unfold split_sides. cbn [side_of Z.eqb fst snd].
  destruct (filter_either_two _ _ _ Hown corners cu0 cv0 Hu0 Hv0) as [E0 | E0];
    destruct (filter_either_two _ _ _ Hown corners cu1 cv1 Hu1 Hv1) as [E1 | E1];
    rewrite E0, E1; cbn [combinations2 map app fold_left].
  - exists (cu0, cv0), (cu1, cv1). auto.
  - exists (cu0, cv0), (cv1, cu1). auto.
  - exists (cv0, cu0), (cu1, cv1). auto.
  - exists (cv0, cu0), (cv1, cu1). auto.
Qed.

(** One candidate per side, unless the rejection test fires. *)
Lemma straight_street_one_each (u v : Z) (u_node v_node : Node) (sid : StreetId)
    (corners : list TrenchCorner) (es : EdgeLoopState) (cu0 cu1 cv0 cv1 : TrenchCorner) :
  u <> v ->
  distinct_corners corners ->
  split_sides (u_node, v_node) (filter_set (fun corner => (tc_u corner =? u)%Z) corners)
  = ([cu0], [cu1]) ->
  split_sides (u_node, v_node) (filter_set (fun corner => (tc_u corner =? v)%Z) corners)
  = ([cv0], [cv1]) ->
  intersection_between_points (u_node, v_node) (cu0, cv0) = false ->
  intersection_between_points (u_node, v_node) (cu1, cv1) = false ->
  exists c0 c1,
    new_pp (straight_street u v u_node v_node sid corners es)
    = new_pp es ++ [Some c0; Some c1]
    /\ (c0 = (cu0, cv0) \/ c0 = (cv0, cu0))
    /\ (c1 = (cu1, cv1) \/ c1 = (cv1, cu1)).
Proof.
  intros Huv Hd Hu Hv Hx0 Hx1.
  destruct (straight_street_pairs u v u_node v_node sid corners es cu0 cu1 cv0 cv1
              Huv Hd Hu Hv) as (p0 & p1 & H0 & H1 & ->).
  rewrite filter_set_filter in Hu, Hv by exact Hd.
  destruct (owner_side_member _ _ _ _ _ _ Hu) as [Hu0 Hu1].
  destruct (owner_side_member _ _ _ _ _ _ Hv) as [Hv0 Hv1].
  destruct (Hu0 cu0 (or_introl eq_refl)) as (_ & Ou0 & Du0).
  destruct (Hu1 cu1 (or_introl eq_refl)) as (_ & Ou1 & Du1).
  destruct (Hv0 cv0 (or_introl eq_refl)) as (_ & Ov0 & Dv0).
  destruct (Hv1 cv1 (or_introl eq_refl)) as (_ & Ov1 & Dv1).
  exists p0, p1. split; [| now split].
  destruct H0 as [-> | ->], H1 as [-> | ->];
    apply consider_two_sides; try congruence; try assumption;
    now rewrite intersection_between_points_swap.
Qed.

Lemma consider_pair_rejects (u_node v_node : Node) (sid : StreetId) (side_id : Z)
    (st : list CandHash * EdgeLoopState) (a b : TrenchCorner) :
  intersection_between_points (u_node, v_node) (a, b) = true ->
  consider_pair u_node v_node sid side_id st (a, b) = st.
Proof.
  intros Hcross. destruct st as [added es]. unfold consider_pair. cbn [fst snd].
  rewrite Hcross. now destruct (negb _).
Qed.

(** No candidate where the rejection test fires on both sides. *)
Lemma straight_street_both_rejected (u v : Z) (u_node v_node : Node) (sid : StreetId)
    (corners : list TrenchCorner) (es : EdgeLoopState) (cu0 cu1 cv0 cv1 : TrenchCorner) :
  u <> v ->
  distinct_corners corners ->
  split_sides (u_node, v_node) (filter_set (fun corner => (tc_u corner =? u)%Z) corners)
  = ([cu0], [cu1]) ->
  split_sides (u_node, v_node) (filter_set (fun corner => (tc_u corner =? v)%Z) corners)
  = ([cv0], [cv1]) ->
  intersection_between_points (u_node, v_node) (cu0, cv0) = true ->
  intersection_between_points (u_node, v_node) (cu1, cv1) = true ->
  straight_street u v u_node v_node sid corners es = es.
Proof.
  intros Huv Hd Hu Hv Hx0 Hx1.
  destruct (straight_street_pairs u v u_node v_node sid corners es cu0 cu1 cv0 cv1
              Huv Hd Hu Hv) as (p0 & p1 & H0 & H1 & ->).
  destruct H0 as [-> | ->], H1 as [-> | ->];
    rewrite !consider_pair_rejects; try reflexivity;
    first [ assumption | rewrite intersection_between_points_swap; assumption ].
Qed.

Lemma short_bucket_distinct : distinct_corners short_bucket.
Proof.
  unfold distinct_corners, short_bucket.
  repeat constructor;
    first [ apply corner_eqb_neq_x; cbn; lra | apply corner_eqb_neq_y; cbn; lra ].
Qed.

Lemma short_bucket_in_range (c : TrenchCorner) : In c short_bucket -> in_range 1 c.
Proof.
  intros [<- | [<- | [<- | [<- | []]]]]; split; apply Rabs_le; cbn; lra.
Qed.

Lemma short_sides_u :
  split_sides (short_u_node, short_v_node)
              (filter_set (fun corner => (tc_u corner =? 1)%Z) short_bucket)
  = ([short_u_0], [short_u_1]).
Proof.
  rewrite filter_set_filter by exact short_bucket_distinct.
  unfold split_sides, point_distance_from_line, Rgtb.
  cbn [short_bucket filter tc_u short_u_0 short_u_1 short_v_0 short_v_1 placed_corner
       Z.eqb Pos.eqb fst snd getx gety XY_Node XY_TrenchCorner tc_x tc_y node_x node_y
       short_u_node short_v_node].
  decide_R. reflexivity.
Qed.

Lemma short_sides_v :
  split_sides (short_u_node, short_v_node)
              (filter_set (fun corner => (tc_u corner =? 2)%Z) short_bucket)
  = ([short_v_0], [short_v_1]).
Proof.
  rewrite filter_set_filter by exact short_bucket_distinct.
  unfold split_sides, point_distance_from_line, Rgtb.
  cbn [short_bucket filter tc_u short_u_0 short_u_1 short_v_0 short_v_1 placed_corner
       Z.eqb Pos.eqb fst snd getx gety XY_Node XY_TrenchCorner tc_x tc_y node_x node_y
       short_u_node short_v_node].
  decide_R. reflexivity.
Qed.

(** On the short street the line through the two corners of a side
    meets the street in its middle. *)
Lemma short_candidates_cross :
  crosses_street short_u_node short_v_node (short_u_0, short_v_0)
  /\ crosses_street short_u_node short_v_node (short_u_1, short_v_1).
Proof.
  split; (split; [unfold parallel_lines; cbn; lra|]);
    exists (1 / 20000, 0); (split; [unfold on_line; cbn; lra|]);
    exists (1 / 2); cbn; lra.
Qed.

Lemma short_straight_street (sid : StreetId) (es : EdgeLoopState) :
  straight_street 1 2 short_u_node short_v_node sid short_bucket es = es.
Proof.
  destruct short_candidates_cross as [H0 H1].
  apply intersection_between_points_crossing in H0, H1.
  apply (straight_street_both_rejected 1 2 short_u_node short_v_node sid short_bucket es
           short_u_0 short_u_1 short_v_0 short_v_1);
    [lia | exact short_bucket_distinct | exact short_sides_u | exact short_sides_v
    | exact H0 | exact H1].
Qed.

Lemma short_curved_street :
  curved_street 1 2 short_u_node short_v_node short_bucket short_geometry edge_loop_init
  = Ok short_curved_state.
Proof.
  change short_geometry with [xy_of short_u_node; xy_of short_v_node].
  rewrite curved_street_two_points. cbn zeta.
  rewrite short_sides_u, short_sides_v.
  assert (Hb : 1 <= 1000000) by lra.
  assert (Hu : in_range 1 short_u_node) by (split; apply Rabs_le; cbn; lra).
  assert (Hv : in_range 1 short_v_node) by (split; apply Rabs_le; cbn; lra).
  assert (Hc : forall c, In c short_bucket -> in_range 1 c)
    by exact short_bucket_in_range.
  rewrite (curved_side_one_each ([short_u_0], [short_u_1]) ([short_v_0], [short_v_1])
             short_u_node short_v_node _ 0 short_u_0 short_v_0 1
             eq_refl eq_refl Hb Hu Hv (Hc short_u_0 ltac:(cbn; tauto))
             (Hc short_v_0 ltac:(cbn; tauto))).
  cbn [bind].
  rewrite (curved_side_one_each ([short_u_0], [short_u_1]) ([short_v_0], [short_v_1])
             short_u_node short_v_node _ 1 short_u_1 short_v_1 1
             eq_refl eq_refl Hb Hu Hv (Hc short_u_1 ltac:(cbn; tauto))
             (Hc short_v_1 ltac:(cbn; tauto))).
  reflexivity.
Qed.

Lemma same_trench_either (cu cv : TrenchCorner) (u_node v_node : Node) (side_id : Z)
    (c : Candidate) :
  c = (cu, cv) \/ c = (cv, cu) ->
  same_trench c (two_point_trench cu cv u_node v_node side_id).
Proof.
  intros [-> | ->]; [left | right]; cbn; auto.
Qed.

(** C8, as it is stated, fails on the short street: the line through
    the two corners of each side meets the street between its ends, so
    the straight path rejects both pairs and leaves no candidate, while
    the curved path, which has no such test, joins the same corners by
    two trenches. *)
Lemma short_street_paths_disagree :
  new_pp (straight_street 1 2 short_u_node short_v_node (Sid 1 2) short_bucket
                          edge_loop_init) = []
  /\ curved_street 1 2 short_u_node short_v_node short_bucket short_geometry
                   edge_loop_init = Ok short_curved_state
  /\ ~ paths_agree
         (new_pp (straight_street 1 2 short_u_node short_v_node (Sid 1 2) short_bucket
                                  edge_loop_init))
         (new_curved_pp short_curved_state).
Proof.
  rewrite short_straight_street. split; [reflexivity|]. split; [exact short_curved_street|].
  intros [_ Hback].
  destruct (Hback _ (or_introl eq_refl)) as (c & [] & _).
Qed.

(** C8, amended: a street whose geometry is its two end points, in a
    bucket that has on each side of the street exactly one corner of
    each end, all coordinates at most 1000000 in absolute value, and
    where the rejection test of the straight path fires for neither
    side.  The curved path then adds one trench per side, the straight
    path one candidate per side, and the trench of a side joins the two
    corners of the candidate of that side by the segment between
    them. *)
Theorem two_point_street_paths_agree (u v : Z) (u_node v_node : Node) (sid : StreetId)
    (corners : list TrenchCorner) (es : EdgeLoopState) (cu0 cu1 cv0 cv1 : TrenchCorner) :
  u <> v ->
  distinct_corners corners ->
  in_range 1000000 u_node -> in_range 1000000 v_node ->
  (forall c, In c corners -> in_range 1000000 c) ->
  split_sides (u_node, v_node) (filter_set (fun corner => (tc_u corner =? u)%Z) corners)
  = ([cu0], [cu1]) ->
  split_sides (u_node, v_node) (filter_set (fun corner => (tc_u corner =? v)%Z) corners)
  = ([cv0], [cv1]) ->
  intersection_between_points (u_node, v_node) (cu0, cv0) = false ->
  intersection_between_points (u_node, v_node) (cu1, cv1) = false ->
  let t0 := two_point_trench cu0 cv0 u_node v_node 0 in
  let t1 := two_point_trench cu1 cv1 u_node v_node 1 in
  curved_street u v u_node v_node corners [xy_of u_node; xy_of v_node] es
  = Ok {| point_edges := point_edges es;
          new_pp := new_pp es;
          new_curved_pp := new_curved_pp es ++ [t0; t1] |}
  /\ exists c0 c1,
       new_pp (straight_street u v u_node v_node sid corners es)
       = new_pp es ++ [Some c0; Some c1]
       /\ same_trench c0 t0 /\ same_trench c1 t1
       /\ paths_agree [Some c0; Some c1] [t0; t1].
Proof.
  intros Huv Hd Hu Hv Hc Su Sv Hx0 Hx1 t0 t1.
  assert (Hin : in_range 1000000 cu0 /\ in_range 1000000 cu1
                /\ in_range 1000000 cv0 /\ in_range 1000000 cv1).
  { pose proof Su as Su'. pose proof Sv as Sv'.
    rewrite filter_set_filter in Su', Sv' by exact Hd.
    destruct (owner_side_member _ _ _ _ _ _ Su') as [Hu0 Hu1].
    destruct (owner_side_member _ _ _ _ _ _ Sv') as [Hv0 Hv1].
    repeat split; apply Hc;
      first [ apply (Hu0 _ (or_introl eq_refl)) | apply (Hu1 _ (or_introl eq_refl))
            | apply (Hv0 _ (or_introl eq_refl)) | apply (Hv1 _ (or_introl eq_refl)) ]. }
  destruct Hin as (Iu0 & Iu1 & Iv0 & Iv1).
  split.
  - rewrite curved_street_two_points. cbn zeta. rewrite Su, Sv.
    rewrite (curved_side_one_each ([cu0], [cu1]) ([cv0], [cv1]) u_node v_node es 0 cu0 cv0 1000000
               eq_refl eq_refl (Rle_refl _) Hu Hv Iu0 Iv0).
    cbn [bind].
    rewrite (curved_side_one_each ([cu0], [cu1]) ([cv0], [cv1]) u_node v_node _ 1 cu1 cv1 1000000
               eq_refl eq_refl (Rle_refl _) Hu Hv Iu1 Iv1).
    cbn [point_edges new_pp new_curved_pp]. now rewrite <- app_assoc.
  - destruct (straight_street_one_each u v u_node v_node sid corners es cu0 cu1 cv0 cv1
                Huv Hd Su Sv Hx0 Hx1) as (c0 & c1 & E & H0 & H1).
    exists c0, c1. split; [exact E|].
    pose proof (same_trench_either cu0 cv0 u_node v_node 0 c0 H0) as S0.
    pose proof (same_trench_either cu1 cv1 u_node v_node 1 c1 H1) as S1.
    split; [exact S0|]. split; [exact S1|]. split.
    + intros c [Ec | [Ec | []]]; injection Ec as <-;
        [exists t0 | exists t1]; (split; [cbn; tauto | assumption]).
    + intros t [<- | [<- | []]]; [exists c0 | exists c1];
        (split; [cbn; tauto | assumption]).
Qed.

Lemma lone_bucket_distinct : distinct_corners lone_bucket.
Proof.
  unfold distinct_corners, lone_bucket.
  repeat constructor;
    first [ apply corner_eqb_neq_x; coords | apply corner_eqb_neq_y; coords ].
Qed.

Lemma lone_sides (w : Z) (c0 c1 : TrenchCorner) :
  (w = 1%Z /\ c0 = lone_u_0 /\ c1 = lone_u_1) \/ (w = 2%Z /\ c0 = lone_v_0 /\ c1 = lone_v_1) ->
  split_sides (lone_u_node, lone_v_node)
              (filter_set (fun corner => (tc_u corner =? w)%Z) lone_bucket)
  = ([c0], [c1]).
Proof.
  intros H. rewrite filter_set_filter by exact lone_bucket_distinct.
  unfold split_sides, point_distance_from_line, Rgtb.
  destruct H as [(-> & -> & ->) | (-> & -> & ->)];
    cbn [lone_bucket filter tc_u lone_u_0 lone_u_1 lone_v_0 lone_v_1 placed_corner
         Z.eqb Pos.eqb fst snd getx gety XY_Node XY_TrenchCorner tc_x tc_y node_x node_y
         lone_u_node lone_v_node];
    unfold distance_from_center_of_road; decide_R; reflexivity.
Qed.

Lemma lone_candidates_parallel (a b : TrenchCorner) :
  tc_y a = tc_y b ->
  intersection_between_points (lone_u_node, lone_v_node) (a, b) = false.
Proof.
  intros Hy. unfold intersection_between_points, det.
  cbn [fst snd getx gety XY_Node XY_TrenchCorner lone_u_node lone_v_node node_x node_y].
  rewrite Hy. now rewrite Reqb_eq by ring.
Qed.

Lemma two_point_street_paths_agree_witness :
  curved_street 1 2 lone_u_node lone_v_node lone_bucket lone_geometry edge_loop_init
  = Ok {| point_edges := [];
          new_pp := [];
          new_curved_pp := [two_point_trench lone_u_0 lone_v_0 lone_u_node lone_v_node 0;
                            two_point_trench lone_u_1 lone_v_1 lone_u_node lone_v_node 1] |}
  /\ exists c0 c1,
       new_pp (straight_street 1 2 lone_u_node lone_v_node (Sid 1 2) lone_bucket
                               edge_loop_init)
       = [Some c0; Some c1]
       /\ paths_agree [Some c0; Some c1]
                      [two_point_trench lone_u_0 lone_v_0 lone_u_node lone_v_node 0;
                       two_point_trench lone_u_1 lone_v_1 lone_u_node lone_v_node 1].
Proof.
  assert (Hrange : forall c, In c lone_bucket -> in_range 1000000 c).
  { intros c [<- | [<- | [<- | [<- | []]]]]; split; apply Rabs_le; coords. }
  destruct (two_point_street_paths_agree 1 2 lone_u_node lone_v_node (Sid 1 2)
              lone_bucket edge_loop_init lone_u_0 lone_u_1 lone_v_0 lone_v_1)
    as [Hcurved (c0 & c1 & Hstraight & _ & _ & Hagree)].
  - lia.
  - exact lone_bucket_distinct.
  - split; apply Rabs_le; cbn; lra.
  - split; apply Rabs_le; cbn; lra.
  - exact Hrange.
  - apply lone_sides. left. repeat split.
  - apply lone_sides. right. repeat split.
  - now apply lone_candidates_parallel.
  - now apply lone_candidates_parallel.
  - split; [exact Hcurved|]. exists c0, c1. split; [exact Hstraight | exact Hagree].
Defined.

Lemma hash_differs_sum (a b c d : TrenchCorner) :
  tc_x a + tc_x b <> tc_x c + tc_x d ->
  CandHash_eqb (trench_candidate_hash_of (a, b)) (trench_candidate_hash_of (c, d)) = false.
Proof.
  intros Hne. destruct (CandHash_eqb _ _) eqn:E; [| reflexivity]. exfalso. apply Hne.
  unfold CandHash_eqb, trench_candidate_hash_of in E. cbn [fst snd] in E.
  apply andb_prop in E. destruct E as [E _].
  apply andb_prop in E. destruct E as [E _].
  apply andb_prop in E. destruct E as [E1 E2].
  apply Reqb_true_iff in E1, E2.
  rewrite <- (Rmin_plus_Rmax (tc_x a) (tc_x b)), <- (Rmin_plus_Rmax (tc_x c) (tc_x d)).
  lra.
Qed.

Lemma CandHash_eqb_refl (h : CandHash) : CandHash_eqb h h = true.
Proof.
  destruct h as [[[a b] c] d]. unfold CandHash_eqb. now rewrite !Reqb_refl.
Qed.

Lemma snap_bucket_distinct : distinct_corners snap_bucket.
Proof.
  unfold distinct_corners, snap_bucket.
  repeat constructor;
    first [ apply corner_eqb_neq_x; coords | apply corner_eqb_neq_y; coords ].
Qed.

(** The line through the corner of 1 and the far corner of 2 meets the
    line of the street at (10 + 2/10000, 0), beyond the end of the
    street. *)
Lemma snap_far_pair_passes :
  intersection_between_points (snap_u_node, snap_v_node) (snap_u_corner, snap_v_far)
  = false.
Proof.
  unfold intersection_between_points, det, is_between, Rgtb.
  cbn [fst snd getx gety XY_Node XY_TrenchCorner snap_u_node snap_v_node node_x node_y
       snap_u_corner snap_v_far tc_x tc_y].
  unfold distance_from_center_of_road.
  match goal with
  | |- context [Reqb ?d 0] => replace d with (16 / 100000) by field
  end.
  rewrite (Reqb_neq (16 / 100000) 0) by lra.
  match goal with
  | |- context [(?n / (16 / 100000) - 0) * (4 - 0)] =>
      replace (n / (16 / 100000)) with (10 + 2 / 10000) by field
  end.
  match goal with
  | |- context [(?n / (16 / 100000) - 0) * (4 - 0)] =>
      replace (n / (16 / 100000)) with 0 by field
  end.
  replace ((0 - 0) * (4 - 0) - (10 + 2 / 10000 - 0) * (0 - 0)) with 0 by ring.
  rewrite Rabs_R0. decide_R. reflexivity.
Qed.

Lemma snap_near_pair_passes :
  intersection_between_points (snap_u_node, snap_v_node) (snap_u_corner, snap_v_near)
  = false.
Proof.
  unfold intersection_between_points, det.
  cbn [fst snd getx gety XY_Node XY_TrenchCorner snap_u_node snap_v_node node_x node_y
       snap_u_corner snap_v_near tc_x tc_y].
  now rewrite Reqb_eq by ring.
Qed.

Lemma snap_straight_street :
  straight_street 1 2 snap_u_node snap_v_node (Sid 1 2) snap_bucket edge_loop_init
  = snap_straight_state.
Proof.
  unfold straight_street. rewrite filter_set_filter by exact snap_bucket_distinct.
  unfold split_sides, point_distance_from_line, Rgtb.
  cbn [snap_bucket filter tc_u snap_u_corner snap_v_near snap_v_far orb
       Z.eqb Pos.eqb fst snd getx gety XY_Node XY_TrenchCorner tc_x tc_y node_x node_y
       snap_u_node snap_v_node].
  unfold distance_from_center_of_road. decide_R.
  cbn [negb filter side_of Z.eqb fst snd combinations2 map app fold_left].
  fold distance_from_center_of_road.
  change (mkCorner 0 (- distance_from_center_of_road) 2 1 1 [Sid 1 2] (Some 400000002%Z))
    with snap_u_corner.
  change (mkCorner 4 (- distance_from_center_of_road) 2 2 1 [Sid 1 2] (Some 400000003%Z))
    with snap_v_near.
  match goal with
  | |- context [(snap_u_corner, ?c)] =>
      lazymatch c with
      | snap_v_near => fail
      | _ => change c with snap_v_far
      end
  end.
  rewrite (consider_pair_accepts snap_u_node snap_v_node (Sid 1 2) 1 [] edge_loop_init
             snap_u_corner snap_v_near ltac:(cbn; lia) snap_near_pair_passes eq_refl).
  rewrite consider_pair_accepts;
    [| cbn; lia | exact snap_far_pair_passes
     | cbn [app existsb]; rewrite hash_differs_sum by coords; reflexivity].
  unfold consider_pair.
  cbn [fst snd tc_u snap_v_near snap_v_far Z.eqb Pos.eqb negb].
  unfold record_candidate.
  cbn [point_edges new_pp new_curved_pp edge_loop_init dict_get dict_set StreetId_eqb
       Z.eqb Pos.eqb andb length app fst snd].
  rewrite (hash_differs_sum snap_u_corner snap_v_near snap_u_corner snap_v_far) by coords.
  cbn [dict_get dict_set]. 
  reflexivity.
Qed.

(** ** The resolver behind the straight path *)

Lemma snap_pair_lengths :
  node_distance snap_u_corner snap_v_near < node_distance snap_u_corner snap_v_far.
Proof.
  rewrite (node_distance_eq snap_u_corner snap_v_near 4); [| lra | cbn; ring].
  unfold node_distance. rewrite <- (sqrt_square 4) at 1 by lra.
  apply sqrt_lt_1; [lra | cbn; unfold distance_from_center_of_road; nra |].
  cbn. unfold distance_from_center_of_road. nra.
Qed.

(** C1, evaluated.  Of three candidates of lengths 5, 2 and 8 met in
    this order on one street side, the resolver marks the one of length
    5 as not to be used and leaves both the one of length 2 and the one
    of length 8 valid; the loop that adds the trenches then adds an
    edge for each of the two.  And on the street from (0, 0) to (4, 0)
    with one corner of intersection 1 and two corners of intersection 2
    on side 1, the straight path files the two candidates of that side
    under two keys, so that the resolver compares neither with the
    other and both stay valid, the shorter and the longer. *)
Theorem resolver_keeps_a_longer_candidate :
  (resolve_candidates three_candidates_group three_candidates
   = [None; Some cand_len2; Some cand_len8]
   /\ exists g,
        add_straight_trenches
          (resolve_candidates three_candidates_group three_candidates)
          (mkTrenchGraph [] []) = Ok g
        /\ dict_mem EdgeKey_eqb (tg_edges g)
             (NodeId 400000003, NodeId 400000002, 1%Z) = true
        /\ dict_mem EdgeKey_eqb (tg_edges g)
             (NodeId 400000004, NodeId 400000002, 1%Z) = true)
  /\ (resolve_candidates
        (point_edges (straight_street 1 2 snap_u_node snap_v_node (Sid 1 2) snap_bucket
                                      edge_loop_init))
        (new_pp (straight_street 1 2 snap_u_node snap_v_node (Sid 1 2) snap_bucket
                                 edge_loop_init))
      = [Some (snap_u_corner, snap_v_near); Some (snap_u_corner, snap_v_far)]
      /\ node_distance snap_u_corner snap_v_near
         < node_distance snap_u_corner snap_v_far).
Proof.
  assert (Hres : resolve_candidates three_candidates_group three_candidates
                 = [None; Some cand_len2; Some cand_len8]).
  { unfold resolve_candidates, three_candidates_group, three_candidates.
    cbn [fold_left snd fst resolve_streets resolve_side length Nat.ltb Nat.leb
         resolve_side_loop nth_error].
    rewrite cand_len5_distance. decide_R. cbn [resolve_side_loop nth_error].
    rewrite cand_len2_distance. decide_R. cbn [resolve_side_loop nth_error invalidate].
    rewrite cand_len8_distance. decide_R. reflexivity. }
  split.
  - split; [exact Hres|].
    rewrite Hres. eexists. split; [reflexivity|].
    split; reflexivity.
  - rewrite snap_straight_street. split; [reflexivity | exact snap_pair_lengths].
Qed.

(** * Further properties of the code *)

(** ** The geometric primitives *)

(** X2: measured from the vector (1, 0), as both callers do, [angle]
    returns for every nonzero vector its polar angle in [0, 2*PI): the
    vector is its length times (cos a, sin a). *)
Theorem angle_from_east_is_the_polar_angle (x y : R) :
  (x, y) <> (0, 0) ->
  exists a, angle (1, 0) (x, y) = Ok a
            /\ 0 <= a < 2 * PI
            /\ x = hypot x y * cos a /\ y = hypot x y * sin a.
Proof.
  intros Hne. destruct (angle_from_x_axis x y Hne) as (a & Ha & Hr & Hx & Hy & _).
  exists a. auto.
Qed.

Lemma angle_from_east_is_the_polar_angle_witness :
  exists a, angle (1, 0) (0, -1) = Ok a
            /\ 0 <= a < 2 * PI
            /\ 0 = hypot 0 (-1) * cos a /\ -1 = hypot 0 (-1) * sin a.
Proof.
  apply (angle_from_east_is_the_polar_angle 0 (-1)). intros [= H]. lra.
Defined.

(** X3: the point that [point_on_circle] returns lies at the distance
    |radius| from the centre, and the angle counts modulo a full turn:
    adding 2*PI to it gives the same point. *)
Theorem point_on_circle_distance (center : Node) (radius radian : R) :
  node_distance center (point_on_circle center radius radian) = Rabs radius
  /\ point_on_circle center radius (radian + 2 * PI)
     = point_on_circle center radius radian.
Proof.
  split.
  - apply node_distance_eq; [apply Rabs_pos|].
    unfold point_on_circle. cbn [getx gety XY_Node XY_pair fst snd].
    pose proof (sin_cos_sqr radian) as Hsc.
    replace (Rabs radius * Rabs radius) with (radius * radius).
    + replace ((node_x center + radius * cos radian - node_x center)
               * (node_x center + radius * cos radian - node_x center)
               + (node_y center + radius * sin radian - node_y center)
                 * (node_y center + radius * sin radian - node_y center))
        with (radius * radius * (sin radian * sin radian + cos radian * cos radian))
        by ring.
      rewrite Hsc. ring.
    + unfold Rabs. destruct (Rcase_abs radius); ring.
  - unfold point_on_circle. now rewrite cos_plus, sin_plus, cos_2PI, sin_2PI, !Rmult_1_r, !Rmult_0_r, Rminus_0_r, Rplus_0_r.
Qed.

(** X4: [node_distance] is a distance on the points of the plane: it
    is never negative, does not depend on the order of its arguments,
    is zero exactly between points of equal coordinates, and obeys the
    triangle inequality. *)
Theorem node_distance_is_a_metric {A B C : Type} `{XY A} `{XY B} `{XY C}
    (a : A) (b : B) (c : C) :
  0 <= node_distance a b
  /\ node_distance a b = node_distance b a
  /\ (node_distance a b = 0 <-> getx a = getx b /\ gety a = gety b)
  /\ node_distance a c <= node_distance a b + node_distance b c.
Proof.
  split; [apply sqrt_pos|]. split; [| split].
  - unfold node_distance. f_equal. ring.
  - unfold node_distance. split.
    + intros Hz.
      apply sqrt_eq_0 in Hz; [| apply Rplus_le_le_0_compat; apply pow2_ge_0].
      set (p := getx b - getx a) in *. set (q := gety b - gety a) in *.
      replace (p ^ 2 + q ^ 2) with (p * p + q * q) in Hz by ring.
      assert (p = 0) by nra. assert (q = 0) by nra.
      unfold p, q in *. split; lra.
    + intros [-> ->]. rewrite <- sqrt_0 at 1. f_equal. ring.
  - unfold node_distance.
    set (p := getx b - getx a). set (q := gety b - gety a).
    set (r := getx c - getx b). set (s := gety c - gety b).
    replace ((getx c - getx a) ^ 2 + (gety c - gety a) ^ 2)
      with ((p + r) * (p + r) + (q + s) * (q + s)) by (unfold p, q, r, s; ring).
    replace (p ^ 2 + q ^ 2) with (p * p + q * q) by ring.
    replace (r ^ 2 + s ^ 2) with (r * r + s * s) by ring.
    assert (Hpq : 0 <= p * p + q * q) by nra.
    assert (Hrs : 0 <= r * r + s * s) by nra.
    pose proof (sqrt_pos (p * p + q * q)) as P1.
    pose proof (sqrt_pos (r * r + s * s)) as P2.
    pose proof (sqrt_sqrt _ Hpq) as S1. pose proof (sqrt_sqrt _ Hrs) as S2.
    set (m := sqrt (p * p + q * q)) in *. set (n := sqrt (r * r + s * s)) in *.
    rewrite <- (sqrt_square (m + n)) by lra.
    apply sqrt_le_1_alt.
    assert (Hcs : (p * r + q * s) * (p * r + q * s) <= (m * n) * (m * n)).
    { replace ((m * n) * (m * n)) with ((m * m) * (n * n)) by ring.
      rewrite S1, S2. pose proof (Rle_0_sqr (p * s - q * r)) as Hc.
      unfold Rsqr in Hc. nra. }
    assert (Hmn : 0 <= m * n) by nra.
    assert (p * r + q * s <= m * n) by nra.
    nra.
Qed.

(** X5: the two sides of a street partition the corners: each corner
    goes to exactly one of the two lists, side 1 holding the corners of
    positive signed distance and side 0 the others.  Seen from
    the other end of the street the corners off its line change sides,
    and the corners on the line stay on side 0. *)
Theorem split_sides_partition (u_node v_node : Node) (corners : list TrenchCorner) :
  let sides := split_sides (u_node, v_node) corners in
  let back := split_sides (v_node, u_node) corners in
  Permutation (fst sides ++ snd sides) corners
  /\ (forall c, In c (fst sides) <->
                In c corners /\ point_distance_from_line (u_node, v_node) c <= 0)
  /\ (forall c, In c (snd sides) <->
                In c corners /\ 0 < point_distance_from_line (u_node, v_node) c)
  /\ (forall c, In c (snd back) <->
                In c corners /\ point_distance_from_line (u_node, v_node) c < 0)
  /\ (forall c, In c (snd sides) -> In c (fst back)).
Proof.
  cbn zeta. unfold split_sides. cbn [fst snd].
  assert (Hrev : forall c : TrenchCorner,
             point_distance_from_line (v_node, u_node) c
             = - point_distance_from_line (u_node, v_node) c).
  { intros c. unfold point_distance_from_line. cbn [fst snd]. ring. }
  split; [| split; [| split; [| split]]].
  - induction corners as [| c l IH]; [constructor|]. cbn [filter].
    destruct (Rgtb (point_distance_from_line (u_node, v_node) c) 0); cbn [negb app].
    + apply Permutation_sym, Permutation_cons_app, Permutation_sym, IH.
    + now constructor.
  - intros c. rewrite filter_In, negb_true_iff. unfold Rgtb. now rewrite Rltb_false_iff.
  - intros c. rewrite filter_In. unfold Rgtb. now rewrite Rltb_true_iff.
  - intros c. rewrite filter_In. unfold Rgtb. rewrite Rltb_true_iff, Hrev.
    split; intros [Hin Hd]; (split; [exact Hin | lra]).
  - intros c. rewrite !filter_In, negb_true_iff. unfold Rgtb.
    rewrite Rltb_true_iff, Rltb_false_iff, Hrev. intros [Hin Hd]. split; [exact Hin | lra].
Qed.

Lemma py_round_half (x : R) (n : nat) : Rabs (py_round x n - x) <= / (2 * 10 ^ n).
Proof.
  unfold py_round.
  assert (Hs : 0 < 10 ^ n) by (apply pow_lt; lra).
  set (s := 10 ^ n) in *. set (y := x * s).
  destruct (base_Int_part y) as [Hlo Hhi].
  set (k := Int_part y) in *.
  assert (Hm : forall m : Z, Rabs (IZR m - y) <= 1 / 2 -> Rabs (IZR m / s - x) <= / (2 * s)).
  { intros m Hy.
    replace (IZR m / s - x) with ((IZR m - y) * / s) by (unfold y; field; lra).
    rewrite Rabs_mult, (Rabs_pos_eq (/ s)) by (left; now apply Rinv_0_lt_compat).
    rewrite Rinv_mult. pose proof (Rinv_0_lt_compat s Hs). nra. }
  apply Hm. apply Rabs_le.
  destruct (Rltb (y - IZR k) (1 / 2)) eqn:E1.
  - apply Rltb_true_iff in E1. lra.
  - apply Rltb_false_iff in E1.
    destruct (Rltb (1 / 2) (y - IZR k)) eqn:E2.
    + apply Rltb_true_iff in E2. rewrite plus_IZR. lra.
    + apply Rltb_false_iff in E2. destruct (Z.even k); [| rewrite plus_IZR]; lra.
Qed.

Lemma offset_step_bound (dx dy vd : R) :
  0 <= vd ->
  let road_length := sqrt (dx ^ 2 + dy ^ 2) in
  let road_length := if Reqb road_length 0 then 1 / 100000 else road_length in
  let t := vd / road_length in
  Rabs (t * dx) <= vd /\ Rabs (t * dy) <= vd.
Proof.
  intros Hvd. cbn zeta.
  assert (Hsq : 0 <= dx ^ 2 + dy ^ 2) by nra.
  pose proof (sqrt_pos (dx ^ 2 + dy ^ 2)) as Hpos.
  pose proof (sqrt_sqrt _ Hsq) as Hss.
  set (len := sqrt (dx ^ 2 + dy ^ 2)) in *.
  destruct (Req_dec_T len 0) as [H0 | H0].
  - rewrite (Reqb_eq _ _ H0). rewrite H0 in Hss.
    assert (dx = 0) by nra. assert (dy = 0) by nra. subst dx dy.
    rewrite !Rmult_0_r, Rabs_R0. lra.
  - rewrite (Reqb_neq _ _ H0).
    assert (Hlen : 0 < len) by lra.
    assert (Hx : Rabs dx <= len) by (apply Rabs_le; split; nra).
    assert (Hy : Rabs dy <= len) by (apply Rabs_le; split; nra).
    assert (Hi : 0 < / len) by now apply Rinv_0_lt_compat.
    assert (Hil : / len * len = 1) by (field; lra).
    unfold Rdiv. rewrite !Rabs_mult, (Rabs_pos_eq vd), (Rabs_pos_eq (/ len)) by lra.
    pose proof (Rabs_pos dx). pose proof (Rabs_pos dy).
    split.
    + replace vd with (vd * (/ len * len)) at 2 by (rewrite Hil; ring).
      rewrite !Rmult_assoc. apply Rmult_le_compat_l; [exact Hvd|].
      apply Rmult_le_compat_l; lra.
    + replace vd with (vd * (/ len * len)) at 2 by (rewrite Hil; ring).
      rewrite !Rmult_assoc. apply Rmult_le_compat_l; [exact Hvd|].
      apply Rmult_le_compat_l; lra.
Qed.

(** X6: the two points that [get_parallel_line_points] returns carry
    the [street_count] of the two nodes and stay near them: each
    coordinate differs from the node's by at most the offset distance
    and half a unit of the seventh decimal.  A segment of length zero
    is not divided by: both points are then the node with rounded
    coordinates. *)
Theorem parallel_points_stay_near (u_node v_node : Node) (vector_distance : R)
    (side_id : Z) :
  0 <= vector_distance ->
  let new_u_node := fst (get_parallel_line_points u_node v_node vector_distance side_id) in
  let new_v_node := snd (get_parallel_line_points u_node v_node vector_distance side_id) in
  let near (n m : Node) :=
    Rabs (node_x n - node_x m) <= vector_distance + / 20000000
    /\ Rabs (node_y n - node_y m) <= vector_distance + / 20000000 in
  near new_u_node u_node /\ near new_v_node v_node
  /\ node_street_count new_u_node = node_street_count u_node
  /\ node_street_count new_v_node = node_street_count v_node
  /\ (node_x u_node = node_x v_node -> node_y u_node = node_y v_node ->
      node_x new_u_node = py_round (node_x u_node) 7
      /\ node_y new_u_node = py_round (node_y u_node) 7
      /\ node_x new_v_node = py_round (node_x v_node) 7
      /\ node_y new_v_node = py_round (node_y v_node) 7).
Proof.
  intros Hvd. cbn zeta. unfold get_parallel_line_points.
  destruct (offset_step_bound (node_x u_node - node_x v_node)
                              (node_y u_node - node_y v_node) vector_distance Hvd)
    as [Hdx Hdy].
  cbn zeta in Hdx, Hdy.
  set (dx := node_x u_node - node_x v_node) in *.
  set (dy := node_y u_node - node_y v_node) in *.
  set (t := vector_distance
            / (if Reqb (sqrt (dx ^ 2 + dy ^ 2)) 0 then 1 / 100000
               else sqrt (dx ^ 2 + dy ^ 2))) in *.
  assert (Ht : forall s : R, Rabs (t * s) <= vector_distance ->
                             Rabs (t * (-1 * s)) <= vector_distance).
  { intros s Hs. replace (t * (-1 * s)) with (- (t * s)) by ring. now rewrite Rabs_Ropp. }
  assert (Hround : forall p s : R,
             Rabs (t * s) <= vector_distance ->
             Rabs (py_round ((1 - t) * p + t * (p + s)) 7 - p)
             <= vector_distance + / 20000000).
  { intros p s Hs.
    pose proof (py_round_half ((1 - t) * p + t * (p + s)) 7) as Hc.
    replace (2 * 10 ^ 7) with 20000000 in Hc by (simpl; ring).
    apply Rabs_le_bounds in Hs, Hc. apply Rabs_le.
    replace ((1 - t) * p + t * (p + s)) with (p + t * s) in * by ring.
    lra. }
  assert (Hzero : forall p s : R, s = 0 ->
             py_round ((1 - t) * p + t * (p + s)) 7 = py_round p 7).
  { intros p s ->. f_equal. ring. }
  destruct (side_id =? 1)%Z; cbn [fst snd node_x node_y node_street_count].
  - repeat split; try (apply Hround; auto).
    all: apply Hzero; unfold dx, dy; lra.
  - repeat split; try (apply Hround; auto).
    all: apply Hzero; unfold dx, dy; lra.
Qed.

Lemma parallel_points_stay_near_witness :
  Rabs (node_x (fst (get_parallel_line_points (mkNode 0 0 1) (mkNode 4 0 3)
                       distance_from_center_of_road 1)) - 0)
  <= distance_from_center_of_road + / 20000000
  /\ node_street_count (snd (get_parallel_line_points (mkNode 0 0 1) (mkNode 4 0 3)
                               distance_from_center_of_road 1)) = 3%Z.
Proof.
  destruct (parallel_points_stay_near (mkNode 0 0 1) (mkNode 4 0 3)
              distance_from_center_of_road 1)
    as ([Hx _] & _ & _ & Hc & _).
  - unfold distance_from_center_of_road. lra.
  - split; [exact Hx | exact Hc].
Defined.

(** ** Intersections of lines *)

(** X7: [get_intersection_point] raises exactly when the two lines have
    the same direction; otherwise the point that it returns lies on
    both lines. *)
Theorem get_intersection_point_is_on_both_lines (line1 line2 : Line) :
  (parallel_lines (fst line1) (snd line1) (fst line2) (snd line2) ->
   get_intersection_point line1 line2 = Raise LinesDoNotIntersect)
  /\ (~ parallel_lines (fst line1) (snd line1) (fst line2) (snd line2) ->
      exists p, get_intersection_point line1 line2 = Ok p
                /\ on_line (fst line1) (snd line1) p
                /\ on_line (fst line2) (snd line2) p).
Proof.
  destruct line1 as [[ax ay] [bx by_]]. destruct line2 as [[cx cy] [dx dy]].
  unfold parallel_lines, get_intersection_point, on_line, det. cbn [fst snd].
  set (div := (ax - bx) * (cy - dy) - (ay - by_) * (cx - dx)).
  replace ((ax - bx) * (cy - dy) - (cx - dx) * (ay - by_)) with div by (unfold div; ring).
  split.
  - intros H0. now rewrite (Reqb_eq div 0 H0).
  - intros Hne. rewrite (Reqb_neq div 0 Hne). eexists. split; [reflexivity|].
    cbn [fst snd]. split; unfold div in *; field; exact Hne.
Qed.

Lemma get_intersection_point_is_on_both_lines_witness :
  exists p, get_intersection_point ((0, 0), (4, 0)) ((1, -1), (1, 1)) = Ok p
            /\ on_line (0, 0) (4, 0) p /\ on_line (1, -1) (1, 1) p.
Proof.
  apply (proj2 (get_intersection_point_is_on_both_lines ((0, 0), (4, 0))
                                                         ((1, -1), (1, 1)))).
  unfold parallel_lines. cbn [fst snd]. lra.
Defined.

Lemma is_between_same_point (a c : R * R) : is_between a a c = true.
Proof.
  unfold is_between, Rgtb.
  replace ((snd c - snd a) * (fst a - fst a) - (fst c - fst a) * (snd a - snd a))
    with 0 by ring.
  rewrite Rabs_R0, (Rltb_ge (5 / 100000000) 0) by lra.
  replace ((fst c - fst a) * (fst a - fst a) + (snd c - snd a) * (snd a - snd a))
    with 0 by ring.
  replace ((fst a - fst a) * (fst a - fst a) + (snd a - snd a) * (snd a - snd a))
    with 0 by ring.
  now rewrite (Rltb_ge 0 0) by lra.
Qed.

Lemma is_between_collinear_segment (a b c : R * R) :
  on_line a b c -> a <> b -> is_between a b c = true -> on_segment a b c.
Proof.
  unfold on_line, is_between, Rgtb, on_segment. intros Hline Hab Hb.
  set (dx := fst b - fst a) in *. set (dy := snd b - snd a) in *.
  set (px := fst c - fst a) in *. set (py := snd c - snd a) in *.
  destruct (Rltb (5 / 100000000) (Rabs (py * dx - px * dy))); [discriminate|].
  destruct (Rltb (px * dx + py * dy) 0) eqn:E1; [discriminate|].
  destruct (Rltb (dx * dx + dy * dy) (px * dx + py * dy)) eqn:E2; [discriminate|].
  apply Rltb_false_iff in E1, E2.
  assert (Hsq : 0 < dx * dx + dy * dy).
  { destruct (Req_dec_T dx 0) as [Hx | Hx]; [| nra].
    destruct (Req_dec_T dy 0) as [Hy | Hy]; [| nra].
    exfalso. apply Hab. destruct a, b. cbn [fst snd] in *. f_equal; unfold dx, dy in *; lra. }
  set (sq := dx * dx + dy * dy) in *. set (dot := px * dx + py * dy) in *.
  exists (dot / sq).
  assert (Hi : 0 < / sq) by now apply Rinv_0_lt_compat.
  assert (Hc : px * dy = py * dx) by lra.
  assert (Hx : px * sq = dot * dx).
  { unfold sq, dot. replace (px * (dx * dx + dy * dy)) with (px * dx * dx + px * dy * dy)
      by ring. rewrite Hc. ring. }
  assert (Hy : py * sq = dot * dy).
  { unfold sq, dot. replace ((px * dx + py * dy) * dy) with (px * dy * dx + py * dy * dy)
      by ring. rewrite Hc. ring. }
  split; [| split].
  - split.
    + unfold Rdiv. nra.
    + apply Rmult_le_reg_r with sq; [exact Hsq|].
      unfold Rdiv. rewrite Rmult_assoc, Rinv_l by lra. lra.
  - apply Rmult_eq_reg_r with sq; [| lra].
    replace ((fst a + dot / sq * dx) * sq) with (fst a * sq + dot * dx) by (field; lra).
    rewrite <- Hx. unfold px. ring.
  - apply Rmult_eq_reg_r with sq; [| lra].
    replace ((snd a + dot / sq * dy) * sq) with (snd a * sq + dot * dy) by (field; lra).
    rewrite <- Hy. unfold py. ring.
Qed.

(** X8: for a point that lies exactly on the line through [a] and [b],
    [is_between] answers whether it lies on the segment between the
    two; for [a = b] it answers [True] for every point. *)
Theorem is_between_on_the_line (a b c : R * R) :
  on_line a b c ->
  (is_between a b c = true <-> a = b \/ on_segment a b c).
Proof.
  intros Hline. split.
  - intros Hb.
    destruct (Req_dec_T (fst a) (fst b)) as [Ex | Ex];
      [destruct (Req_dec_T (snd a) (snd b)) as [Ey | Ey] |].
    + left. destruct a, b. cbn [fst snd] in *. now subst.
    + right. apply is_between_collinear_segment; try assumption. now intros ->.
    + right. apply is_between_collinear_segment; try assumption. now intros ->.
  - intros [-> | (t & Ht & Hx & Hy)].
    + apply is_between_same_point.
    + destruct c as [cx cy]. cbn [fst snd] in Hx, Hy. subst cx cy.
      now apply is_between_on_segment.
Qed.

Lemma is_between_on_the_line_witness :
  is_between (0, 0) (4, 0) (5, 0) = true <-> (0, 0) = (4, 0) \/ on_segment (0, 0) (4, 0) (5, 0).
Proof.
  apply is_between_on_the_line. unfold on_line. cbn [fst snd]. ring.
Defined.

Lemma intersection_between_points_true (u_node v_node : Node) (c : Candidate) :
  intersection_between_points (u_node, v_node) c = true -> crosses_street u_node v_node c.
Proof.
  destruct c as [c0 c1].
  unfold intersection_between_points, crosses_street, parallel_lines, xy_of, det.
  cbn [fst snd getx gety XY_Node XY_TrenchCorner].
  set (ux := node_x u_node). set (uy := node_y u_node).
  set (vx := node_x v_node). set (vy := node_y v_node).
  set (ax := tc_x c0). set (ay := tc_y c0). set (bx := tc_x c1). set (by_ := tc_y c1).
  set (div := (ux - vx) * (ay - by_) - (ax - bx) * (uy - vy)).
  destruct (Reqb div 0) eqn:Ediv; [discriminate|]. apply Reqb_false_iff in Ediv.
  set (x := ((ux * vy - uy * vx) * (ax - bx) - (ax * by_ - ay * bx) * (ux - vx)) / div).
  set (y := ((ux * vy - uy * vx) * (ay - by_) - (ax * by_ - ay * bx) * (uy - vy)) / div).
  destruct (is_between (ux, uy) (vx, vy) (x, y)) eqn:Eb; [| discriminate]. intros _.
  split.
  - intros Hp. apply Ediv. unfold div. lra.
  - exists (x, y). split.
    + unfold on_line. cbn [fst snd]. unfold x, y, div in *. field. exact Ediv.
    + apply is_between_collinear_segment; [| | exact Eb].
      * unfold on_line. cbn [fst snd]. unfold x, y, div in *. field. exact Ediv.
      * intros [= Hx Hy]. apply Ediv. unfold div. rewrite Hx, Hy. ring.
Qed.

(** X9: in exact arithmetic the rejection test of the straight streets
    is exact: [intersection_between_points] answers [True] if and only
    if the line through the pair of corners has another direction than
    the street and meets it in a point of the segment between the two
    intersections. *)
Theorem rejection_test_is_exact (u_node v_node : Node) (c : Candidate) :
  intersection_between_points (u_node, v_node) c = true
  <-> crosses_street u_node v_node c.
Proof.
  split.
  - apply intersection_between_points_true.
  - apply intersection_between_points_crossing.
Qed.

Lemma crosses_street_reverse (u_node v_node : Node) (c : Candidate) :
  crosses_street u_node v_node c -> crosses_street v_node u_node c.
Proof.
  unfold crosses_street, parallel_lines, on_segment, xy_of.
  cbn [fst snd getx gety XY_Node XY_TrenchCorner].
  intros [Hnp (p & Hline & (t & Ht & Hx & Hy))]. split.
  - intros Hp. apply Hnp. lra.
  - exists p. split; [exact Hline|]. exists (1 - t). split; [lra|]. split; lra.
Qed.

Lemma bool_eq_iff (a b : bool) : (a = true <-> b = true) -> a = b.
Proof.
  destruct a, b; intros [H1 H2]; try reflexivity.
  - symmetry. now apply H1.
  - now apply H2.
Qed.

(** X10: the rejection test depends neither on the direction in which
    the street is given nor on the order of the two corners of the
    pair, and never fails: for lines of one direction it answers
    [False]. *)
Theorem rejection_test_is_symmetric (u_node v_node : Node) (a b : TrenchCorner) :
  intersection_between_points (v_node, u_node) (a, b)
  = intersection_between_points (u_node, v_node) (a, b)
  /\ intersection_between_points (u_node, v_node) (b, a)
     = intersection_between_points (u_node, v_node) (a, b)
  /\ (parallel_lines (xy_of u_node) (xy_of v_node) (xy_of a) (xy_of b) ->
      intersection_between_points (u_node, v_node) (a, b) = false).
Proof.
  split; [| split].
  - apply bool_eq_iff. split; intros Ht.
    + apply intersection_between_points_crossing, crosses_street_reverse.
      now apply intersection_between_points_true.
    + apply intersection_between_points_crossing, crosses_street_reverse.
      now apply intersection_between_points_true.
  - apply intersection_between_points_swap.
  - intros Hp. destruct (intersection_between_points (u_node, v_node) (a, b)) eqn:E;
      [| reflexivity].
    apply intersection_between_points_true in E. destruct E as [Hnp _].
    now elim Hnp.
Qed.

(** ** Snapping to the nearest corner *)

Lemma closest_corner_spec {B : Type} `{XY B} (corners : list TrenchCorner) (target : B)
    (closest : option TrenchCorner) (shortest_distance : R) :
  ((forall c, In c corners -> shortest_distance <= node_distance c target)
   /\ closest_corner corners target closest shortest_distance
      = (closest, shortest_distance))
  \/ (exists before c after,
        corners = before ++ c :: after
        /\ closest_corner corners target closest shortest_distance
           = (Some c, node_distance c target)
        /\ node_distance c target < shortest_distance
        /\ (forall c', In c' before -> node_distance c target < node_distance c' target)
        /\ (forall c', In c' after -> node_distance c target <= node_distance c' target)).
Proof.
  revert closest shortest_distance.
  induction corners as [| x l IH]; intros closest shortest_distance.
  - left. split; [intros c [] | reflexivity].
  - cbn [closest_corner].
    destruct (Rltb (node_distance x target) shortest_distance) eqn:E.
    + apply Rltb_true_iff in E.
      destruct (IH (Some x) (node_distance x target))
        as [[Hall Hr] | (before & c & after & -> & Hr & Hlt & Hb & Ha)].
      * right. exists [], x, l. repeat split; try assumption. intros c' [].
      * right. exists (x :: before), c, after. repeat split; try assumption; [lra|].
        intros c' [<- | Hin]; [exact Hlt | now apply Hb].
    + apply Rltb_false_iff in E.
      destruct (IH closest shortest_distance)
        as [[Hall Hr] | (before & c & after & -> & Hr & Hlt & Hb & Ha)].
      * left. split; [| exact Hr]. intros c [<- | Hin]; [exact E | now apply Hall].
      * right. exists (x :: before), c, after. repeat split; try assumption.
        intros c' [<- | Hin]; [lra | now apply Hb].
Qed.

(** X11: each of the two snapping loops of [get_trench_linestring]
    ends with no corner exactly when no corner of the list is nearer
    than 10000000 to the target; otherwise with the first corner of
    the list among those of the least distance to the target. *)
Theorem snapping_finds_the_first_nearest {B : Type} `{XY B}
    (corners : list TrenchCorner) (target : B) :
  let found := fst (closest_corner corners target None 10000000) in
  (found = None <-> forall c, In c corners -> 10000000 <= node_distance c target)
  /\ (forall c, found = Some c ->
        node_distance c target < 10000000
        /\ exists before after,
             corners = before ++ c :: after
             /\ (forall c', In c' before ->
                   node_distance c target < node_distance c' target)
             /\ (forall c', In c' after ->
                   node_distance c target <= node_distance c' target)).
Proof.
  cbn zeta.
  destruct (closest_corner_spec corners target None 10000000)
    as [[Hall Hr] | (before & c & after & Hl & Hr & Hlt & Hb & Ha)]; rewrite Hr; cbn [fst].
  - split; [split; [intros _; exact Hall | reflexivity] | discriminate].
  - split.
    + split; [discriminate|]. intros Hall. exfalso.
      assert (Hin : In c corners) by (rewrite Hl; apply in_or_app; right; now left).
      specialize (Hall c Hin). lra.
    + intros c' [= <-]. split; [exact Hlt|]. exists before, after. auto.
Qed.

(** ** The walk along a curved street *)

(** A step of the walk after the first segment. *)
Lemma walk_step_later (u_side_corners : list TrenchCorner) (d : R) (side_id : Z)
    (w w' : WalkState) (sub lrp : R * R) (ll : Line) :
  last_road_point w = Some lrp -> last_line w = Some ll -> 0 <= total_road_length w ->
  walk_step u_side_corners d side_id w sub = Ok w' ->
  (exists p, linestring w' = linestring w ++ [p])
  /\ closest_u_for_trench w' = closest_u_for_trench w
  /\ (exists lrp', last_road_point w' = Some lrp')
  /\ (exists ll', last_line w' = Some ll')
  /\ (exists ltp', last_trench_point w' = Some ltp')
  /\ 0 <= total_road_length w'.
Proof.
  intros Hlrp Hll Htot. unfold walk_step. destruct sub as [sub_x sub_y].
  rewrite Hlrp, Hll.
  destruct (get_parallel_line_points _ _ d side_id) as [new_u_node new_v_node].
  destruct (get_intersection_point ll _) as [[x y] | e]; cbn [bind]; [| discriminate].
  intros [= <-]. cbn [linestring closest_u_for_trench last_road_point last_line
                       last_trench_point total_road_length].
  repeat split; eauto.
  apply Rplus_le_le_0_compat; [exact Htot | apply sqrt_pos].
Qed.

Lemma walk_later (u_side_corners : list TrenchCorner) (d : R) (side_id : Z)
    (coords : list (R * R)) (w w' : WalkState) (lrp ltp : R * R) (ll : Line) :
  last_road_point w = Some lrp -> last_line w = Some ll ->
  last_trench_point w = Some ltp -> 0 <= total_road_length w ->
  walk u_side_corners d side_id coords w = Ok w' ->
  (exists ext, linestring w' = linestring w ++ ext /\ length ext = length coords)
  /\ closest_u_for_trench w' = closest_u_for_trench w
  /\ (exists ltp', last_trench_point w' = Some ltp')
  /\ 0 <= total_road_length w'.
Proof.
  revert w lrp ltp ll. induction coords as [| sub rest IH]; intros w lrp ltp ll Hlrp Hll Hltp Htot.
  - cbn [walk]. intros [= <-]. repeat split; eauto.
    exists []. now rewrite app_nil_r.
  - cbn [walk].
    destruct (walk_step u_side_corners d side_id w sub) as [w1 | e] eqn:E1; cbn [bind];
      [| discriminate].
    destruct (walk_step_later _ _ _ _ _ _ _ _ Hlrp Hll Htot E1)
      as ((p & Hp) & Hcu & (lrp1 & Hlrp1) & (ll1 & Hll1) & (ltp1 & Hltp1) & Htot1).
    intros Hw.
    destruct (IH w1 lrp1 ltp1 ll1 Hlrp1 Hll1 Hltp1 Htot1 Hw)
      as ((ext & Hext & Hlen) & Hcu' & Hltp' & Htot').
    repeat split; try assumption; [| congruence].
    exists (p :: ext). rewrite Hext, Hp, <- app_assoc. cbn [app length]. now rewrite Hlen.
Qed.

Lemma snapping_first_or_none {B : Type} `{XY B} (corners : list TrenchCorner) (target : B) :
  fst (closest_corner corners target None 10000000) = None
  \/ exists c, In c corners /\ fst (closest_corner corners target None 10000000) = Some c.
Proof.
  destruct (closest_corner_spec corners target None 10000000)
    as [[_ Hr] | (before & c & after & Hl & Hr & _)]; rewrite Hr; cbn [fst].
  - now left.
  - right. exists c. split; [| reflexivity]. rewrite Hl. apply in_or_app. right. now left.
Qed.

(** The walk from the start over at least two points. *)
Lemma walk_from_start (u_side_corners : list TrenchCorner) (d : R) (side_id : Z)
    (p0 p1 : R * R) (rest : list (R * R)) (w' : WalkState) :
  walk u_side_corners d side_id (p0 :: p1 :: rest) walk_init = Ok w' ->
  exists cu ext ltp,
    In cu u_side_corners
    /\ closest_u_for_trench w' = Some cu
    /\ linestring w' = (tc_x cu, tc_y cu) :: ext
    /\ length ext = length rest
    /\ last_trench_point w' = Some ltp
    /\ 0 <= total_road_length w'.
Proof.
  cbn [walk]. destruct p0 as [x0 y0], p1 as [x1 y1].
  cbn [walk_step walk_init last_road_point bind last_line fst snd].
  destruct (get_parallel_line_points (mkNode x0 y0 1) (mkNode x1 y1 1) d side_id)
    as [new_u_node new_v_node] eqn:Epar.
  cbn [fst snd linestring total_road_length last_trench_point closest_u_for_trench].
  destruct (snapping_first_or_none u_side_corners new_u_node) as [Hnone | (cu & Hin & Hcu)].
  - rewrite Hnone. cbn [need bind]. discriminate.
  - rewrite Hcu. cbn [need bind]. intros Hw.
    eapply walk_later in Hw;
      [| reflexivity | reflexivity | reflexivity
       | cbn [total_road_length walk_init]; apply Rplus_le_le_0_compat; [lra | apply sqrt_pos]].
    destruct Hw as ((ext & Hext & Hlen) & Hcu' & (ltp & Hltp) & Htot).
    cbn [linestring closest_u_for_trench app] in Hext, Hcu'.
    exists cu, ext, ltp. repeat split; assumption.
Qed.

Lemma walk_short (u_side_corners : list TrenchCorner) (d : R) (side_id : Z)
    (geometry : list (R * R)) :
  (length geometry < 2)%nat ->
  exists w, walk u_side_corners d side_id geometry walk_init = Ok w
            /\ last_trench_point w = None.
Proof.
  destruct geometry as [| [x0 y0] [| p1 rest]]; cbn [length]; intros Hlen; try lia.
  - exists walk_init. split; reflexivity.
  - eexists. split; reflexivity.
Qed.

Lemma walk_only_raises (u_side_corners : list TrenchCorner) (d : R) (side_id : Z)
    (geometry : list (R * R)) (w : WalkState) (e : PyExc) :
  walk u_side_corners d side_id geometry w = Raise e ->
  e = TypeError \/ e = LinesDoNotIntersect.
Proof.
  revert w. induction geometry as [| [sub_x sub_y] rest IH]; intros w; cbn [walk];
    [discriminate|].
  destruct (walk_step u_side_corners d side_id w (sub_x, sub_y)) as [w1 | e1] eqn:E1;
    cbn [bind]; [apply IH|].
  intros [= <-]. unfold walk_step in E1.
  destruct (last_road_point w) as [lrp |]; [| discriminate].
  destruct (get_parallel_line_points _ _ d side_id) as [new_u_node new_v_node].
  destruct (last_line w) as [ll |].
  - unfold get_intersection_point in E1.
    destruct (Reqb _ 0); cbn [bind] in E1; [| discriminate].
    injection E1 as <-. now right.
  - destruct (fst (closest_corner u_side_corners new_u_node None 10000000));
      cbn [need bind] in E1; [discriminate|].
    injection E1 as <-. now left.
Qed.

Lemma get_trench_linestring_ok (u_side_corners v_side_corners : list TrenchCorner)
    (geometry : list (R * R)) (d : R) (side_id : Z) (t : CurvedTrench) :
  get_trench_linestring u_side_corners v_side_corners geometry d side_id = Ok t ->
  (2 <= length geometry)%nat
  /\ In (u_for_edge t) u_side_corners
  /\ In (v_for_edge t) v_side_corners
  /\ length (ct_geometry t) = length geometry
  /\ hd_error (ct_geometry t) = Some (xy_of (u_for_edge t))
  /\ last (ct_geometry t) (0, 0) = xy_of (v_for_edge t)
  /\ 0 <= ct_length t
  /\ ct_name t = NameCurvedRoad.
Proof.
  unfold get_trench_linestring.
  destruct (le_lt_dec 2 (length geometry)) as [Hlen | Hlen].
  - destruct geometry as [| p0 [| p1 rest]]; cbn [length] in Hlen; try lia.
    destruct (walk u_side_corners d side_id (p0 :: p1 :: rest) walk_init) as [w | e] eqn:Ew;
      cbn [bind]; [| discriminate].
    destruct (walk_from_start _ _ _ _ _ _ _ Ew)
      as (cu & ext & ltp & Hin & Hcu & Hls & Hext & Hltp & Htot).
    rewrite Hltp, Hcu.
    destruct v_side_corners as [| cv0 vs]; cbn [need bind]; [discriminate|].
    destruct (snapping_first_or_none (cv0 :: vs) (fst ltp, fst ltp))
      as [Hnone | (cv & Hinv & Hcv)].
    + rewrite Hnone. cbn [need bind]. discriminate.
    + rewrite Hcv. cbn [need bind]. intros [= <-].
      cbn [u_for_edge v_for_edge ct_geometry ct_length ct_name].
      rewrite Hls. unfold xy_of. cbn [getx gety XY_TrenchCorner].
      repeat split; try assumption.
      * rewrite length_app. cbn [length]. rewrite Hext. lia.
      * apply last_last.
  - destruct (walk_short u_side_corners d side_id geometry Hlen) as (w & Ew & Hltp).
    rewrite Ew. cbn [bind]. rewrite Hltp.
    destruct v_side_corners; cbn [need bind]; discriminate.
Qed.

(** X12: whenever [get_trench_linestring] returns, the street geometry
    has at least two points, the two ends of the trench are corners of
    the two lists that it was given, the polyline has as many points
    as the street geometry, starts at the first of these corners and
    ends at the second, and the length is not negative. *)
Theorem trench_linestring_shape (u_side_corners v_side_corners : list TrenchCorner)
    (geometry : list (R * R)) (d : R) (side_id : Z) (t : CurvedTrench) :
  get_trench_linestring u_side_corners v_side_corners geometry d side_id = Ok t ->
  (2 <= length geometry)%nat
  /\ In (u_for_edge t) u_side_corners
  /\ In (v_for_edge t) v_side_corners
  /\ length (ct_geometry t) = length geometry
  /\ hd_error (ct_geometry t) = Some (xy_of (u_for_edge t))
  /\ last (ct_geometry t) (0, 0) = xy_of (v_for_edge t)
  /\ 0 <= ct_length t
  /\ ct_name t = NameCurvedRoad.
Proof. apply get_trench_linestring_ok. Qed.

Lemma trench_linestring_shape_witness :
  In (u_for_edge snap_trench) [snap_u_corner]
  /\ In (v_for_edge snap_trench) [snap_v_near; snap_v_far]
  /\ length (ct_geometry snap_trench) = length snap_geometry
  /\ 0 <= ct_length snap_trench.
Proof.
  destruct (trench_linestring_shape _ _ _ _ _ _ snap_linestring)
    as (_ & Hu & Hv & Hlen & _ & _ & Hpos & _).
  repeat split; assumption.
Defined.

(** X13: [get_trench_linestring] ends with a [TypeError] on a geometry
    of fewer than two points and whenever the list of the corners at
    [u] is empty; with an empty list of corners at [v] it ends with a
    [TypeError] or with the exception of the miter computation; it
    raises no other exception. *)
Theorem trench_linestring_failures (u_side_corners v_side_corners : list TrenchCorner)
    (geometry : list (R * R)) (d : R) (side_id : Z) :
  let run := get_trench_linestring u_side_corners v_side_corners geometry d side_id in
  ((length geometry < 2)%nat -> run = Raise TypeError)
  /\ (u_side_corners = [] -> run = Raise TypeError)
  /\ (v_side_corners = [] -> run = Raise TypeError \/ run = Raise LinesDoNotIntersect)
  /\ (forall e, run = Raise e -> e = TypeError \/ e = LinesDoNotIntersect).
Proof.
  cbn zeta.
  assert (Hshort : (length geometry < 2)%nat ->
                   get_trench_linestring u_side_corners v_side_corners geometry d side_id
                   = Raise TypeError).
  { intros Hlen. unfold get_trench_linestring.
    destruct (walk_short u_side_corners d side_id geometry Hlen) as (w & Ew & Hltp).
    rewrite Ew. cbn [bind]. rewrite Hltp.
    destruct v_side_corners; reflexivity. }
  assert (Hany : forall e,
             get_trench_linestring u_side_corners v_side_corners geometry d side_id = Raise e ->
             e = TypeError \/ e = LinesDoNotIntersect).
  { intros e. unfold get_trench_linestring.
    destruct (walk u_side_corners d side_id geometry walk_init) as [w | e1] eqn:Ew;
      cbn [bind].
    - destruct v_side_corners as [| cv0 vs]; cbn [bind need].
      + intros [= <-]. now left.
      + destruct (last_trench_point w); cbn [need bind]; [| intros [= <-]; now left].
        destruct (fst (closest_corner _ _ None 10000000)); cbn [need bind];
          [| intros [= <-]; now left].
        destruct (closest_u_for_trench w); cbn [need bind]; [discriminate|].
        intros [= <-]. now left.
    - intros [= <-]. exact (walk_only_raises _ _ _ _ _ _ Ew). }
  split; [exact Hshort|]. split; [| split; [| exact Hany]].
  - intros ->. destruct (le_lt_dec 2 (length geometry)) as [Hlen | Hlen]; [| now apply Hshort].
    destruct geometry as [| [x0 y0] [| [x1 y1] rest]]; cbn [length] in Hlen; try lia.
    unfold get_trench_linestring. cbn [walk walk_step walk_init last_road_point last_line
                                       bind closest_corner fst snd].
    now destruct (get_parallel_line_points _ _ d side_id).
  - intros ->.
    destruct (get_trench_linestring u_side_corners [] geometry d side_id) as [t | e] eqn:E.
    + apply get_trench_linestring_ok in E. destruct E as (_ & _ & [] & _).
    + destruct (Hany e eq_refl) as [-> | ->]; auto.
Qed.

(** ** Identity of street segments *)

(** X15: the identifier of a street segment does not depend on the end
    from which the segment is seen, and two segments have the same
    identifier only if they join the same two intersections. *)
Theorem street_id_is_the_unordered_pair (u v u' v' : Z) :
  street_id_of u v = street_id_of v u
  /\ (street_id_of u v = street_id_of u' v'
      <-> (u = u' /\ v = v') \/ (u = v' /\ v = u')).
Proof.
  unfold street_id_of. split.
  - now rewrite Z.min_comm, Z.max_comm.
  - split.
    + intros [= Hmin Hmax]. lia.
    + intros [[-> ->] | [-> ->]]; [reflexivity|]. now rewrite Z.min_comm, Z.max_comm.
Qed.

(** ** An invariant of the corner synthesizer *)

Section DictValues.
Context {K V : Type} (eqb : K -> K -> bool).

Lemma dict_set_values (d : list (K * V)) (k k' : K) (v v' : V) :
  In (k', v') (dict_set eqb d k v) -> In (k', v') d \/ v' = v.
Proof.
  induction d as [| [k0 v0] rest IH]; cbn [dict_set].
  - intros [[= _ <-] | []]. now right.
  - destruct (eqb k0 k).
    + intros [[= _ <-] | Hin]; [now right | left; now right].
    + intros [Heq | Hin]; [left; now left|].
      destruct (IH Hin) as [H | H]; [left; now right | now right].
Qed.

Lemma setdefault_values (d : list (K * V)) (k k' : K) (v v' : V) :
  In (k', v') (setdefault eqb d k v) -> In (k', v') d \/ v' = v.
Proof.
  unfold setdefault. destruct (dict_mem eqb d k); [now left | apply dict_set_values].
Qed.

Lemma dict_get_value (d : list (K * V)) (k : K) (v : V) :
  dict_get eqb d k = Some v -> exists k', In (k', v) d.
Proof.
  induction d as [| [k0 v0] rest IH]; cbn [dict_get]; [discriminate|].
  destruct (eqb k0 k).
  - intros [= <-]. exists k0. now left.
  - intros H. destruct (IH H) as (k' & Hin). exists k'. now right.
Qed.

End DictValues.

Section FlatValues.
Context {K V : Type} (eqb : K -> K -> bool).

Lemma flat_dict_set_incl (d : list (K * list V)) (k : K) (b : list V) (c : V) :
  In c (concat (map snd (dict_set eqb d k b))) -> In c (concat (map snd d)) \/ In c b.
Proof.
  induction d as [| [k0 b0] rest IH]; cbn [dict_set map snd concat].
  - rewrite app_nil_r. now right.
  - destruct (eqb k0 k); cbn [map snd concat]; rewrite !in_app_iff.
    + tauto.
    + intros [H | H]; [tauto|]. destruct (IH H); tauto.
Qed.

End FlatValues.

Lemma set_add_incl (s : list TrenchCorner) (node c : TrenchCorner) :
  In c (set_add s node) -> In c s \/ c = node.
Proof.
  unfold set_add. destruct (set_mem node s); [now left|].
  rewrite in_app_iff. intros [H | [<- | []]]; auto.
Qed.

Lemma bucket_add_incl (otc otc' : list (StreetId * list TrenchCorner)) (sid : StreetId)
    (node c : TrenchCorner) :
  bucket_add otc sid node = Ok otc' ->
  In c (concat (map snd otc')) -> In c (concat (map snd otc)) \/ c = node.
Proof.
  unfold bucket_add, getitem.
  destruct (dict_get StreetId_eqb otc sid) as [b |] eqn:Eb; cbn [bind]; [| discriminate].
  intros [= <-] Hin. apply flat_dict_set_incl in Hin. destruct Hin as [Hin | Hin]; [now left|].
  apply set_add_incl in Hin. destruct Hin as [Hin | ->]; [| now right].
  left. exact (in_bucket_in_flat StreetId_eqb _ _ _ _ Eb Hin).
Qed.

Lemma crossing_append_incl (orc orc' : list (StreetId * list (Z * Z))) (sid : StreetId)
    (crossing x : Z * Z) :
  crossing_append orc sid crossing = Ok orc' ->
  In x (concat (map snd orc')) -> In x (concat (map snd orc)) \/ x = crossing.
Proof.
  intros E Hin. destruct (crossing_append_spec orc sid crossing) as (orc2 & E2 & Hperm).
  rewrite E in E2. injection E2 as <-.
  apply (Permutation_in _ Hperm) in Hin. apply in_app_or in Hin.
  destruct Hin as [Hin | [<- | []]]; auto.
Qed.

Ltac open_index :=
  unfold all_corners, all_crossings in *;
  cbn [nodes output_trench_corners output_road_crossing node_id] in *.

Section PlacedSteps.
Variable network : Network.
Variable u : Z.
Variable current_node : Node.
Hypothesis node_of_network : In (u, current_node) (net_nodes network).

Lemma new_corner_placed (theta : R) (ids : list StreetId) (id : Z) :
  (400000000 < id)%Z ->
  placed network
    (with_node_for_adding
       (new_TrenchCorner (node_x current_node + distance_from_center_of_road * cos theta)
                         (node_y current_node + distance_from_center_of_road * sin theta)
                         2 u ids) id).
Proof.
  intros Hid. unfold placed. cbn [with_node_for_adding new_TrenchCorner tc_node_for_adding
                                   tc_trench_count tc_street_count tc_u tc_x tc_y].
  split; [exists id; now split|]. split; [reflexivity|]. split; [reflexivity|].
  exists current_node. split; [exact node_of_network|].
  apply (at_angle_distance current_node theta). reflexivity.
Qed.

Lemma placed_has_id (c : TrenchCorner) (id : Z) :
  placed network c -> node_for_adding c = Ok id -> (400000000 < id)%Z.
Proof.
  intros [(id' & E & Hid) _]. unfold node_for_adding. rewrite E. now intros [= <-].
Qed.

Lemma corner_step_placed (neighbors : list (R * Z)) (cs cs' : CornerState)
    (lv lv' : LoopVars) (radian : R) :
  placed_index network cs -> placed_vars lv ->
  corner_step u current_node neighbors (cs, lv) radian = Ok (cs', lv') ->
  placed_index network cs' /\ placed_vars lv'.
Proof.
  intros [Hc Hn Hx Hcnt] [Hlast Hfirst]. unfold all_corners, all_crossings in *.
  unfold corner_step.
  destruct (getitem Reqb neighbors radian) as [v |]; cbn [bind]; [| discriminate].
  destruct (last_radian lv) as [last_rad |].
  2:{ intros [= <- <-]. split.
      - constructor; open_index; try assumption.
        intros c. rewrite flat_setdefault_nil. apply Hc.
      - split; cbn [last_node_id first_node_id]; assumption. }
  unfold point_on_circle. cbn [getx gety XY_Node].
  set (node := new_TrenchCorner _ _ 2 u _).
  set (otc := setdefault StreetId_eqb (output_trench_corners cs) (street_id_of u v) []).
  assert (Hotc : forall c, In c (concat (map snd otc)) -> placed network c).
  { intros c. unfold otc. rewrite flat_setdefault_nil. apply Hc. }
  destruct (not_in_buckets otc node (first_street_id lv) (last_street_id lv))
    as [is_new |]; cbn [bind]; [| discriminate].
  match goal with
  | |- (bind ?block _) = _ -> _ =>
      assert (Hblock : forall cs1, block = Ok cs1 ->
                placed_index network cs1 /\ (400000000 < node_id cs1)%Z);
        [| destruct block as [cs1 |]; cbn [bind]; [| discriminate];
           destruct (Hblock cs1 eq_refl) as [[Hc1 Hn1 Hx1 Hcnt1] Hid1]; clear Hblock ]
  end.
  { intros cs1. destruct is_new.
    - destruct (bucket_add otc (street_id_of u v) _) as [otc1 |] eqn:E1; cbn [bind];
        [| discriminate].
      destruct (bucket_add otc1 (last_street_id lv) _) as [otc2 |] eqn:E2; cbn [bind];
        [| discriminate].
      intros [= <-]. split; [| cbn [node_id]; lia].
      assert (Hnew : placed network (with_node_for_adding node (node_id cs + 1)))
        by (apply new_corner_placed; lia).
      constructor; open_index; try assumption; [| | lia].
      + intros c Hin. apply (bucket_add_incl _ _ _ _ _ E2) in Hin.
        destruct Hin as [Hin | ->]; [| exact Hnew].
        apply (bucket_add_incl _ _ _ _ _ E1) in Hin.
        destruct Hin as [Hin | ->]; [now apply Hotc | exact Hnew].
      + intros k c Hin. apply dict_set_values in Hin.
        destruct Hin as [Hin | ->]; [now apply (Hn k) | exact Hnew].
    - unfold getitem.
      destruct (dict_get pair_eqb (nodes cs) (corner_hash node)) as [known |] eqn:Ek;
        cbn [bind]; [| discriminate].
      destruct (node_for_adding known) as [id |] eqn:Eid; cbn [bind]; [| discriminate].
      intros [= <-].
      destruct (dict_get_value _ _ _ _ Ek) as (k' & Hin).
      pose proof (placed_has_id known id (Hn k' known Hin) Eid) as Hid.
      split; [| exact Hid].
      constructor; open_index; try assumption. lia. }
  destruct (last_node_id lv) as [last_id |] eqn:El.
  - destruct (crossing_append (output_road_crossing cs1) (last_street_id lv) _)
      as [orc |] eqn:Eo; cbn [bind]; [| discriminate].
    intros [= <- <-]. split.
    + constructor; open_index; try assumption.
      intros a b Hin. apply (crossing_append_incl _ _ _ _ _ Eo) in Hin.
      destruct Hin as [Hin | [= -> ->]]; [now apply Hx1|].
      split; [now apply Hlast | exact Hid1].
    + split; cbn [last_node_id first_node_id]; [| exact Hfirst].
      now intros id [= <-].
  - intros [= <- <-]. split.
    + now constructor.
    + split; cbn [last_node_id first_node_id]; now intros id [= <-].
Qed.

Lemma corner_loop_placed (neighbors : list (R * Z)) (sorted_vs : list R)
    (cs cs' : CornerState) (lv lv' : LoopVars) :
  placed_index network cs -> placed_vars lv ->
  corner_loop u current_node neighbors sorted_vs (cs, lv) = Ok (cs', lv') ->
  placed_index network cs' /\ placed_vars lv'.
Proof.
  revert cs lv. induction sorted_vs as [| radian rest IH]; intros cs lv Hcs Hlv; cbn [corner_loop].
  - intros [= <- <-]. now split.
  - destruct (corner_step u current_node neighbors (cs, lv) radian) as [[cs1 lv1] |] eqn:E1;
      cbn [bind]; [| discriminate].
    destruct (corner_step_placed _ _ _ _ _ _ Hcs Hlv E1) as [Hcs1 Hlv1].
    now apply IH.
Qed.

Lemma wrap_around_placed (cs cs' : CornerState) (lv : LoopVars) :
  placed_index network cs -> placed_vars lv ->
  wrap_around u current_node (cs, lv) = Ok cs' ->
  placed_index network cs'.
Proof.
  intros Hcs [Hlast Hfirst]. pose proof Hcs as [Hc Hn Hx Hcnt]. open_index.
  unfold wrap_around.
  destruct (first_radian lv) as [fr |]; cbn [need bind]; [| discriminate].
  destruct (last_radian lv) as [last_rad |]; cbn [need bind]; [| discriminate].
  unfold point_on_circle. cbn [getx gety XY_Node].
  set (node := new_TrenchCorner _ _ 2 u _).
  destruct (not_in_buckets (output_trench_corners cs) node (first_street_id lv)
                           (last_street_id lv)) as [[|] |]; cbn [bind];
    [| now intros [= <-] | discriminate].
  destruct (bucket_add (output_trench_corners cs) (first_street_id lv) _)
    as [otc1 |] eqn:E1; cbn [bind]; [| discriminate].
  destruct (bucket_add otc1 (last_street_id lv) _) as [otc2 |] eqn:E2; cbn [bind];
    [| discriminate].
  destruct (last_node_id lv) as [last_id |] eqn:El; cbn [need bind]; [| discriminate].
  destruct (crossing_append (output_road_crossing cs) (last_street_id lv) _)
    as [orc1 |] eqn:Eo1; cbn [bind]; [| discriminate].
  destruct (first_node_id lv) as [first_id |] eqn:Ef; cbn [need bind]; [| discriminate].
  destruct (crossing_append orc1 (first_street_id lv) _) as [orc2 |] eqn:Eo2; cbn [bind];
    [| discriminate].
  intros [= <-].
  assert (Hnew : placed network (with_node_for_adding node (node_id cs + 1)))
    by (apply new_corner_placed; lia).
  constructor; open_index; try assumption; [| | lia].
  - intros c Hin. apply (bucket_add_incl _ _ _ _ _ E2) in Hin.
    destruct Hin as [Hin | ->]; [| exact Hnew].
    apply (bucket_add_incl _ _ _ _ _ E1) in Hin.
    destruct Hin as [Hin | ->]; [now apply Hc | exact Hnew].
  - intros a b Hin. apply (crossing_append_incl _ _ _ _ _ Eo2) in Hin.
    destruct Hin as [Hin | [= -> ->]].
    + apply (crossing_append_incl _ _ _ _ _ Eo1) in Hin.
      destruct Hin as [Hin | [= -> ->]]; [now apply Hx|].
      split; [now apply Hlast | lia].
    + split; [lia | now apply Hfirst].
Qed.

Lemma dead_end_corner_placed (cs cs' : CornerState) (lv : LoopVars) (factor : R)
    (node : TrenchCorner) :
  placed_index network cs ->
  dead_end_corner u current_node lv factor cs = Ok (node, cs') ->
  placed_index network cs'
  /\ (forall id, node_for_adding node = Ok id -> (400000000 < id)%Z).
Proof.
  intros Hcs. pose proof Hcs as [Hc Hn Hx Hcnt]. open_index.
  unfold dead_end_corner.
  destruct (first_radian lv) as [fr |]; cbn [need bind]; [| discriminate].
  unfold point_on_circle. cbn [getx gety XY_Node].
  set (node0 := new_TrenchCorner _ _ 2 u _).
  destruct (not_in_buckets (output_trench_corners cs) node0 (first_street_id lv)
                           (last_street_id lv)) as [[|] |]; cbn [bind];
    [| | discriminate].
  - destruct (bucket_add (output_trench_corners cs) (first_street_id lv) _)
      as [otc1 |] eqn:E1; cbn [bind]; [| discriminate].
    intros [= <- <-].
    assert (Hnew : placed network (with_node_for_adding node0 (node_id cs + 1)))
      by (apply new_corner_placed; lia).
    split.
    + constructor; open_index; try assumption; [| | lia].
      * intros c Hin. apply (bucket_add_incl _ _ _ _ _ E1) in Hin.
        destruct Hin as [Hin | ->]; [now apply Hc | exact Hnew].
      * intros a b. rewrite flat_setdefault_nil. apply Hx.
    + intros id. apply placed_has_id. exact Hnew.
  - intros [= <- <-]. split; [exact Hcs|]. intros id. discriminate.
Qed.

Lemma dead_end_placed (cs cs' : CornerState) (lv : LoopVars) :
  placed_index network cs ->
  dead_end u current_node (cs, lv) = Ok cs' ->
  placed_index network cs'.
Proof.
  intros Hcs. unfold dead_end.
  destruct (dead_end_corner u current_node lv (5 / 10) cs) as [[node1 cs1] |] eqn:E1;
    cbn [bind]; [| discriminate].
  destruct (dead_end_corner_placed _ _ _ _ _ Hcs E1) as [Hcs1 Hid1].
  destruct (dead_end_corner u current_node lv (15 / 10) cs1) as [[node2 cs2] |] eqn:E2;
    cbn [bind]; [| discriminate].
  destruct (dead_end_corner_placed _ _ _ _ _ Hcs1 E2) as [Hcs2 Hid2].
  unfold getitem.
  destruct (dict_get StreetId_eqb (output_road_crossing cs2) (first_street_id lv))
    as [l |] eqn:El; cbn [bind]; [| discriminate].
  destruct (node_for_adding node1) as [id1 |]; cbn [bind]; [| discriminate].
  destruct (node_for_adding node2) as [id2 |]; cbn [bind]; [| discriminate].
  intros [= <-]. destruct Hcs2 as [Hc Hn Hx Hcnt].
  constructor; open_index; try assumption.
  intros a b Hin. apply flat_dict_set_incl in Hin.
  destruct Hin as [Hin | Hin]; [now apply Hx|].
  apply in_app_or in Hin. destruct Hin as [Hin | [[= <- <-] | []]].
  - apply Hx. exact (in_bucket_in_flat StreetId_eqb _ _ _ _ El Hin).
  - split; [now apply Hid1 | now apply Hid2].
Qed.

Lemma process_intersection_placed (cs cs' : CornerState) :
  placed_index network cs ->
  process_intersection network cs u current_node = Ok cs' ->
  placed_index network cs'.
Proof.
  intros Hcs. unfold process_intersection.
  destruct (collect_neighbors network u current_node (neighbors_of network u) [])
    as [neighbors |]; cbn [bind]; [| discriminate].
  destruct (corner_loop u current_node neighbors (sort_R (map fst neighbors))
                        (cs, loop_vars_init)) as [[cs1 lv1] |] eqn:E1;
    cbn [bind]; [| discriminate].
  assert (Hlv : placed_vars loop_vars_init) by (split; intros id; discriminate).
  destruct (corner_loop_placed neighbors (sort_R (map fst neighbors)) cs cs1
              loop_vars_init lv1 Hcs Hlv E1) as [Hcs1 Hlv1].
  destruct (1 <? length (sort_R (map fst neighbors)))%nat.
  - now apply wrap_around_placed.
  - destruct (length (sort_R (map fst neighbors)) =? 1)%nat.
    + now apply dead_end_placed.
    + cbn [fst]. now intros [= <-].
Qed.

End PlacedSteps.

Lemma process_intersections_placed (network : Network) (ns : list (Z * Node))
    (cs cs' : CornerState) :
  incl ns (net_nodes network) ->
  placed_index network cs ->
  process_intersections network ns cs = Ok cs' ->
  placed_index network cs'.
Proof.
  revert cs. induction ns as [| [u current_node] rest IH]; intros cs Hincl Hcs;
    cbn [process_intersections].
  - now intros [= <-].
  - destruct (process_intersection network cs u current_node) as [cs1 |] eqn:E1;
      cbn [bind]; [| discriminate].
    apply IH.
    + intros x Hx. apply Hincl. now right.
    + apply (process_intersection_placed network u current_node) with cs; try assumption.
      apply Hincl. now left.
Qed.

(** X16: whenever [get_trench_corners] returns, every corner of every
    bucket has an identifier above 400000000, the trench count 2 and
    the street count 1, is owned by an intersection of the network and
    lies at the offset distance from that intersection; and every
    crossing edge joins two identifiers above 400000000. *)
Theorem synthesized_corners_are_placed (network : Network)
    (trench_corners : list (StreetId * list TrenchCorner))
    (road_crossing : list (StreetId * list (Z * Z))) :
  get_trench_corners network = Ok (trench_corners, road_crossing) ->
  (forall street_segment_id corners corner,
     In (street_segment_id, corners) trench_corners -> In corner corners ->
     placed network corner)
  /\ (forall street_segment_id crossings a b,
        In (street_segment_id, crossings) road_crossing -> In (a, b) crossings ->
        (400000000 < a)%Z /\ (400000000 < b)%Z).
Proof.
  unfold get_trench_corners, get_trench_corners_state.
  destruct (process_intersections network (net_nodes network) corner_state_init)
    as [cs |] eqn:E; cbn [bind]; [| discriminate].
  intros [= <- <-].
  assert (Hinit : placed_index network corner_state_init).
  { constructor; cbn; try tauto. lia. }
  destruct (process_intersections_placed network _ _ _ (incl_refl _) Hinit E)
    as [Hc _ Hx _].
  split.
  - intros sid corners corner Hin Hc'. apply Hc. unfold all_corners.
    apply in_concat. exists corners. split; [| exact Hc'].
    apply in_map_iff. now exists (sid, corners).
  - intros sid crossings a b Hin Hc'. apply Hx. unfold all_crossings.
    apply in_concat. exists crossings. split; [| exact Hc'].
    apply in_map_iff. now exists (sid, crossings).
Qed.

Lemma twin_network_corners :
  get_trench_corners twin_network
  = Ok (output_trench_corners twin_state, output_road_crossing twin_state).
Proof.
  unfold get_trench_corners, get_trench_corners_state.
  cbn [process_intersections twin_network net_nodes].
  change (mkNetwork _ _) with twin_network.
  rewrite twin_intersection_1. cbn [bind].
  rewrite twin_intersection_2. cbn [bind].
  now rewrite process_intersection_no_neighbors by reflexivity.
Qed.

Lemma synthesized_corners_are_placed_witness :
  placed twin_network twin_corner_3
  /\ ((400000000 < 400000002)%Z /\ (400000000 < 400000001)%Z).
Proof.
  destruct (synthesized_corners_are_placed twin_network _ _ twin_network_corners)
    as [Hc Hx].
  split.
  - apply (Hc (Sid 2 3) [twin_corner_3]); cbn; tauto.
  - apply (Hx (Sid 1 3) [(400000002, 400000001)%Z]); cbn; tauto.
Defined.

(** ** The streets of an intersection *)

(** X17: how the angle of a street fails to be computed: with a
    [KeyError] when the streets to the neighbour have no edge with key
    0, and when the street is straight and the neighbour has no
    coordinates; with a [ZeroDivisionError] when the street is straight
    and the neighbour has the coordinates of the intersection; with an
    [IndexError] when the geometry of the street has fewer than two
    points.  The angle of a street with a geometry does not depend on
    the nodes of the network: the neighbour is not read. *)
Theorem street_radian_failures (network : Network) (u : Z) (current_node : Node) (v : Z) :
  (In v (neighbors_of network u) ->
   dict_get edge_key_eqb (net_edges network) (u, v, 0%Z) = None ->
   street_radian network u current_node v = Raise KeyError)
  /\ (forall street,
        dict_get edge_key_eqb (net_edges network) (u, v, 0%Z) = Some street ->
        e_geometry street = None ->
        dict_get Z.eqb (net_nodes network) v = None ->
        street_radian network u current_node v = Raise KeyError)
  /\ (forall neighbor street,
        dict_get edge_key_eqb (net_edges network) (u, v, 0%Z) = Some street ->
        e_geometry street = None ->
        dict_get Z.eqb (net_nodes network) v = Some neighbor ->
        node_x neighbor = node_x current_node ->
        node_y neighbor = node_y current_node ->
        street_radian network u current_node v = Raise ZeroDivisionError)
  /\ (forall street l,
        dict_get edge_key_eqb (net_edges network) (u, v, 0%Z) = Some street ->
        e_geometry street = Some l ->
        (length l < 2)%nat ->
        street_radian network u current_node v = Raise IndexError)
  /\ (forall street l g_nodes,
        dict_get edge_key_eqb (net_edges network) (u, v, 0%Z) = Some street ->
        e_geometry street = Some l ->
        street_radian (mkNetwork g_nodes (net_edges network)) u current_node v
        = street_radian network u current_node v).
Proof.
  unfold street_radian, get_edge_data0, getitem. cbn [net_edges net_nodes].
  split; [| split; [| split; [| split]]].
  - intros _ He. rewrite He. reflexivity.
  - intros street He Hg Hn. rewrite He. cbn [bind]. rewrite Hg, Hn. reflexivity.
  - intros neighbor street He Hg Hn Hx Hy. rewrite He. cbn [bind]. rewrite Hg, Hn.
    cbn [bind]. rewrite Hx, Hy, !Rminus_diag.
    exact angle_of_zero_vector.
  - intros street l He Hg Hlen. rewrite He. cbn [bind]. rewrite Hg.
    destruct l as [| p0 [| p1 rest]]; cbn [length] in Hlen; try lia.
    + reflexivity.
    + unfold index, index_from_end. cbn [nth_error length Nat.ltb Nat.leb bind].
      now destruct (pair_eqb p0 _).
  - intros street l g_nodes He Hg. rewrite He. cbn [bind]. now rewrite Hg.
Qed.

Lemma dict_set_angle_entries (d : list (R * Z)) (k k' : R) (v v' : Z) :
  In (k', v') (dict_set Reqb d k v) -> In (k', v') d \/ (k' = k /\ v' = v).
Proof.
  induction d as [| [k0 v0] rest IH]; cbn [dict_set].
  - intros [[= <- <-] | []]. now right.
  - destruct (Reqb k0 k) eqn:E.
    + apply Reqb_true_iff in E. subst k0.
      intros [[= <- <-] | Hin]; [now right | left; now right].
    + intros [Heq | Hin]; [left; now left|].
      destruct (IH Hin) as [H | H]; [left; now right | now right].
Qed.

Lemma dict_set_length (d : list (R * Z)) (k : R) (v : Z) :
  (length (dict_set Reqb d k v) <= S (length d))%nat.
Proof.
  induction d as [| [k0 v0] rest IH]; cbn [dict_set length]; [lia|].
  destruct (Reqb k0 k); cbn [length]; lia.
Qed.

Lemma collect_neighbors_entries (network : Network) (u : Z) (current_node : Node)
    (vs all : list Z) :
  forall (acc neighbors : list (R * Z)),
    collect_neighbors network u current_node vs acc = Ok neighbors ->
    incl vs all ->
    (forall r v, In (r, v) acc ->
       In v all /\ street_radian network u current_node v = Ok r) ->
    (forall r v, In (r, v) neighbors ->
       In v all /\ street_radian network u current_node v = Ok r)
    /\ (length neighbors <= length acc + length vs)%nat.
Proof.
  induction vs as [| v rest IH]; intros acc neighbors; cbn [collect_neighbors].
  - intros [= <-] _ Hacc. split; [exact Hacc | lia].
  - destruct (street_radian network u current_node v) as [radian |] eqn:Er; cbn [bind];
      [| discriminate].
    intros Hrun Hincl Hacc.
    destruct (IH _ _ Hrun) as [Hent Hlen].
    + intros x Hx. apply Hincl. now right.
    + intros r0 v0 Hin. apply dict_set_angle_entries in Hin.
      destruct Hin as [Hin | [-> ->]]; [now apply Hacc|].
      split; [apply Hincl; now left | exact Er].
    + split; [exact Hent|].
      pose proof (dict_set_length acc radian v). cbn [length]. lia.
Qed.

(** X18: the streets of an intersection are kept by their angle and
    visited in strictly increasing order of it, every angle in
    [0, 2*PI).  Each kept street leads to a neighbour of the
    intersection and leaves at the angle under which it is kept; there
    are at most as many as the intersection has neighbours. *)
Theorem streets_are_visited_by_angle (network : Network) (u : Z) (current_node : Node)
    (neighbors : list (R * Z)) :
  collect_neighbors network u current_node (neighbors_of network u) [] = Ok neighbors ->
  let sorted_vs := sort_R (map fst neighbors) in
  StronglySorted Rlt sorted_vs
  /\ Forall (fun a => 0 <= a < 2 * PI) sorted_vs
  /\ Permutation sorted_vs (map fst neighbors)
  /\ (length neighbors <= degree network u)%nat
  /\ (forall radian v, In (radian, v) neighbors ->
        In v (neighbors_of network u)
        /\ street_radian network u current_node v = Ok radian).
Proof.
  intros Hrun. cbn zeta.
  destruct (sorted_angles network u current_node neighbors Hrun)
    as (_ & Hsorted & Hrange & _).
  destruct (collect_neighbors_entries network u current_node (neighbors_of network u)
              (neighbors_of network u) [] neighbors Hrun (incl_refl _))
    as [Hent Hlen]; [intros r v [] |].
  split; [exact Hsorted|]. split; [exact Hrange|]. split; [apply sort_R_perm|].
  split; [exact Hlen | exact Hent].
Qed.

Lemma streets_are_visited_by_angle_witness :
  StronglySorted Rlt (sort_R (map fst [(0, 4%Z)]))
  /\ (length [(0, 4%Z)] <= degree fan_network 1)%nat
  /\ street_radian fan_network 1 (mkNode 0 0 3) 4 = Ok 0.
Proof.
  destruct (streets_are_visited_by_angle fan_network 1 (mkNode 0 0 3) [(0, 4%Z)])
    as (Hs & _ & _ & Hlen & Hent).
  - rewrite fan_neighbors. exact fan_collect.
  - split; [exact Hs|]. split; [exact Hlen|]. apply (Hent 0 4%Z). now left.
Defined.

(** ** Dead ends at a known corner *)

Lemma not_in_buckets_known (otc : list (StreetId * list TrenchCorner))
    (node : TrenchCorner) (first_id last_id : StreetId) (bf bl : list TrenchCorner) :
  dict_get StreetId_eqb otc first_id = Some bf ->
  dict_get StreetId_eqb otc last_id = Some bl ->
  not_in_buckets otc node first_id last_id
  = Ok (negb (set_mem node bf) && negb (set_mem node bl)).
Proof.
  intros Hf Hl. unfold not_in_buckets, getitem. rewrite Hf. cbn [bind].
  destruct (set_mem node bf); cbn [negb andb]; [reflexivity|].
  rewrite Hl. reflexivity.
Qed.

Lemma set_mem_set_add (s : list TrenchCorner) (c node : TrenchCorner) :
  set_mem node s = true -> set_mem node (set_add s c) = true.
Proof.
  unfold set_add. destruct (set_mem c s); [auto|].
  unfold set_mem. rewrite existsb_app. now intros ->.
Qed.

(** The first arm of the "T" is known: it comes back without an
    identifier, and whatever the second arm does, reading the
    identifier of the first ends the synthesizer. *)
Lemma dead_end_first_arm_known (u : Z) (current_node : Node) (cs : CornerState)
    (lv : LoopVars) (fr : R) (bf bl : list TrenchCorner) :
  first_radian lv = Some fr ->
  dict_get StreetId_eqb (output_trench_corners cs) (first_street_id lv) = Some bf ->
  dict_get StreetId_eqb (output_trench_corners cs) (last_street_id lv) = Some bl ->
  (let '(x, y) := point_on_circle current_node distance_from_center_of_road
                                  (fr + PI * (5 / 10)) in
   set_mem (new_TrenchCorner x y 2 u [street_segment_id lv]) bf
   || set_mem (new_TrenchCorner x y 2 u [street_segment_id lv]) bl = true) ->
  dead_end u current_node (cs, lv) = Raise KeyError.
Proof.
  intros Hfr Hf Hl. unfold point_on_circle. cbn [getx gety XY_Node]. intros Hknown.
  unfold dead_end, dead_end_corner. rewrite Hfr. cbn [need bind].
  unfold point_on_circle. cbn [getx gety XY_Node].
  rewrite (not_in_buckets_known _ _ _ _ bf bl Hf Hl).
  apply orb_true_iff in Hknown.
  match goal with
  | |- context [negb (set_mem ?n bf) && negb (set_mem ?n bl)] =>
      replace (negb (set_mem n bf) && negb (set_mem n bl)) with false
        by (destruct Hknown as [-> | ->]; [reflexivity | now rewrite andb_false_r])
  end.
  cbn [bind].
  rewrite (not_in_buckets_known _ _ _ _ bf bl Hf Hl). cbn [bind].
  destruct (negb _ && negb _); cbn [bind].
  - unfold bucket_add, getitem. rewrite Hf. cbn [bind output_road_crossing].
    destruct (dict_get StreetId_eqb (setdefault StreetId_eqb _ _ _) (first_street_id lv));
      reflexivity.
  - unfold getitem.
    destruct (dict_get StreetId_eqb (output_road_crossing cs) (first_street_id lv));
      reflexivity.
Qed.

(** X19: a dead end whose first "T" corner is equal to a corner that
    the bucket of its street already holds ends [get_trench_corners]
    with a [KeyError]: the known corner is not given an identifier, and
    the crossing edge of the "T" reads the identifier of both
    corners. *)
Theorem dead_end_at_a_known_corner (u : Z) (current_node : Node) (cs : CornerState)
    (lv : LoopVars) (fr : R) (bf bl : list TrenchCorner) :
  first_radian lv = Some fr ->
  dict_get StreetId_eqb (output_trench_corners cs) (first_street_id lv) = Some bf ->
  dict_get StreetId_eqb (output_trench_corners cs) (last_street_id lv) = Some bl ->
  (let '(x, y) := point_on_circle current_node distance_from_center_of_road
                                  (fr + PI * (5 / 10)) in
   set_mem (new_TrenchCorner x y 2 u [street_segment_id lv]) bf
   || set_mem (new_TrenchCorner x y 2 u [street_segment_id lv]) bl = true) ->
  dead_end u current_node (cs, lv) = Raise KeyError.
Proof. apply dead_end_first_arm_known. Qed.

Lemma dead_end_at_a_known_corner_witness :
  dead_end 2 (mkNode 0 0 1) (dead_end_index, dead_end_vars) = Raise KeyError.
Proof.
  apply (dead_end_at_a_known_corner 2 (mkNode 0 0 1) dead_end_index dead_end_vars 0
           [lone_u_0; lone_u_1] [lone_u_0; lone_u_1]); try reflexivity.
  unfold point_on_circle. cbn [getx gety XY_Node node_x node_y set_mem existsb].
  rewrite corner_eqb_eq; [reflexivity | |];
    cbn [tc_x tc_y new_TrenchCorner lone_u_0 placed_corner];
    rewrite ?cos_quarter, ?sin_quarter, ?sin_0, ?cos_0; ring.
Defined.

(** ** The candidates of a straight street *)

Lemma filter_set_subset (keep : TrenchCorner -> bool) (l : list TrenchCorner)
    (c : TrenchCorner) :
  In c (filter_set keep l) -> In c l /\ keep c = true.
Proof.
  unfold filter_set.
  assert (H : forall acc,
             In c (fold_left (fun acc corner => if keep corner then set_add acc corner
                                                else acc) l acc) ->
             In c acc \/ (In c l /\ keep c = true)).
  { induction l as [| x l IH]; intros acc; cbn [fold_left]; [now left|].
    intros Hin. apply IH in Hin. destruct Hin as [Hin | [Hin Hk]].
    - destruct (keep x) eqn:Ek.
      + apply set_add_incl in Hin. destruct Hin as [Hin | ->]; [now left|].
        right. split; [now left | exact Ek].
      + now left.
    - right. split; [now right | exact Hk]. }
  intros Hin. destruct (H [] Hin) as [[] | Hr]. exact Hr.
Qed.

Lemma in_combinations2 {A : Type} (l : list A) (a b : A) :
  In (a, b) (combinations2 l) -> In a l /\ In b l.
Proof.
  induction l as [| x l IH]; cbn [combinations2]; [intros []|].
  rewrite in_app_iff, in_map_iff. intros [(y & [= <- <-] & Hy) | Hin].
  - split; [now left | now right].
  - destruct (IH Hin). split; now right.
Qed.

Lemma ForallOrdPairs_app {A : Type} (R : A -> A -> Prop) (l1 l2 : list A) :
  ForallOrdPairs R l1 -> ForallOrdPairs R l2 ->
  (forall a b, In a l1 -> In b l2 -> R a b) ->
  ForallOrdPairs R (l1 ++ l2).
Proof.
  intros H1 H2 Hc. induction H1 as [| a l1 Ha H1 IH]; cbn [app]; [exact H2|].
  constructor.
  - apply Forall_app. split; [exact Ha|].
    apply Forall_forall. intros b Hb. apply Hc; [now left | exact Hb].
  - apply IH. intros x y Hx Hy. apply Hc; [now right | exact Hy].
Qed.

(** What a run of the loop over the pairs of one side adds. *)
Lemma consider_pairs_added (u_node v_node : Node) (sid : StreetId) (side_id : Z)
    (pairs : list (TrenchCorner * TrenchCorner)) (st : list CandHash * EdgeLoopState) :
  let st' := fold_left (consider_pair u_node v_node sid side_id) pairs st in
  exists added : list Candidate,
    fst st' = fst st ++ map trench_candidate_hash_of added
    /\ new_pp (snd st') = new_pp (snd st) ++ map Some added
    /\ new_curved_pp (snd st') = new_curved_pp (snd st)
    /\ (forall c, In c added ->
          In c pairs
          /\ tc_u (fst c) <> tc_u (snd c)
          /\ intersection_between_points (u_node, v_node) c = false
          /\ existsb (CandHash_eqb (trench_candidate_hash_of c)) (fst st) = false)
    /\ ForallOrdPairs (fun a b => CandHash_eqb (trench_candidate_hash_of b)
                                               (trench_candidate_hash_of a) = false)
                      added.
Proof.
  cbn zeta. revert st. induction pairs as [| pair rest IH]; intros st.
  - exists []. cbn [fold_left map]. rewrite !app_nil_r.
    split; [reflexivity|]. split; [reflexivity|]. split; [reflexivity|].
    split; [intros c [] | constructor].
  - cbn [fold_left].
    destruct (IH (consider_pair u_node v_node sid side_id st pair))
      as (added & Hh & Hpp & Hcv & Hall & Hord).
    destruct st as [added_trenches es]. destruct pair as [a b].
    unfold consider_pair in *. cbn [fst snd] in *.
    destruct (negb (tc_u a =? tc_u b)%Z) eqn:Eown.
    2:{ exists added. split; [exact Hh|]. split; [exact Hpp|]. split; [exact Hcv|].
        split; [| exact Hord]. intros c Hin.
        destruct (Hall c Hin) as (Hp & Ho & Hi & He).
        repeat split; try assumption. now right. }
    destruct (intersection_between_points (u_node, v_node) (a, b)) eqn:Ex;
      cbn [negb andb] in *.
    1:{ exists added. split; [exact Hh|]. split; [exact Hpp|]. split; [exact Hcv|].
        split; [| exact Hord]. intros c Hin.
        destruct (Hall c Hin) as (Hp & Ho & Hi & He).
        repeat split; try assumption. now right. }
    destruct (existsb (CandHash_eqb (trench_candidate_hash_of (a, b))) added_trenches)
      eqn:Eh; cbn [negb] in *.
    1:{ exists added. split; [exact Hh|]. split; [exact Hpp|]. split; [exact Hcv|].
        split; [| exact Hord]. intros c Hin.
        destruct (Hall c Hin) as (Hp & Ho & Hi & He).
        repeat split; try assumption. now right. }
    cbn [fst snd new_pp new_curved_pp] in *.
    exists ((a, b) :: added). cbn [map].
    rewrite Hh, Hpp, <- !app_assoc. cbn [app].
    split; [reflexivity|]. split; [reflexivity|]. split; [exact Hcv|]. split.
    + intros c [<- | Hin].
      * cbn [fst snd]. repeat split; try assumption; [now left|].
        apply negb_true_iff in Eown. now apply Z.eqb_neq.
      * destruct (Hall c Hin) as (Hp & Ho & Hi & He).
        repeat split; try assumption; [now right|].
        rewrite existsb_app in He. now apply orb_false_iff in He.
    + constructor; [| exact Hord].
      apply Forall_forall. intros c Hin.
      destruct (Hall c Hin) as (_ & _ & _ & He).
      rewrite existsb_app in He. apply orb_false_iff in He. destruct He as [_ He].
      cbn [existsb] in He. now apply orb_false_iff in He.
Qed.

Lemma straight_street_added (u v : Z) (u_node v_node : Node)
    (sid : StreetId) (corners : list TrenchCorner) (es : EdgeLoopState) :
  let es' := straight_street u v u_node v_node sid corners es in
  let d := point_distance_from_line (u_node, v_node) in
  exists added : list Candidate,
    new_pp es' = new_pp es ++ map Some added
    /\ new_curved_pp es' = new_curved_pp es
    /\ (forall c, In c added ->
          In (fst c) corners /\ In (snd c) corners
          /\ ((tc_u (fst c) = u /\ tc_u (snd c) = v)
              \/ (tc_u (fst c) = v /\ tc_u (snd c) = u))
          /\ ((d (fst c) <= 0 /\ d (snd c) <= 0) \/ (0 < d (fst c) /\ 0 < d (snd c))))
    /\ ForallOrdPairs (fun a b => CandHash_eqb (trench_candidate_hash_of b)
                                               (trench_candidate_hash_of a) = false)
                      added.
Proof.
  cbn zeta. unfold straight_street.
  set (filtered := filter_set (fun corner => (tc_u corner =? u)%Z || (tc_u corner =? v)%Z)
                              corners).
  destruct (split_sides (u_node, v_node) filtered) as [s0 s1] eqn:Es.
  destruct (side_member _ _ _ _ Es) as [H0 H1].
  cbn [side_of Z.eqb fst snd].
  destruct (consider_pairs_added u_node v_node sid 0 (combinations2 s0) ([], es))
    as (a0 & Hh0 & Hp0 & Hc0 & Hall0 & Hord0).
  cbn zeta in *.
  set (st1 := fold_left (consider_pair u_node v_node sid 0) (combinations2 s0) ([], es)) in *.
  destruct (consider_pairs_added u_node v_node sid 1 (combinations2 s1) st1)
    as (a1 & Hh1 & Hp1 & Hc1 & Hall1 & Hord1).
  cbn zeta in *. cbn [fst snd app] in *.
  exists (a0 ++ a1). rewrite Hp1, Hp0, Hc1, Hc0, map_app, app_assoc.
  split; [reflexivity|]. split; [reflexivity|].
  assert (Hown : forall c, In c filtered ->
                           In c corners /\ (tc_u c = u \/ tc_u c = v)).
  { intros c Hin. apply filter_set_subset in Hin. destruct Hin as [Hin Hk].
    split; [exact Hin|]. apply orb_true_iff in Hk.
    destruct Hk as [Hk | Hk]; apply Z.eqb_eq in Hk; auto. }
  assert (Hside : forall (s : list TrenchCorner) (P : TrenchCorner -> Prop) c,
             (forall x, In x s -> In x filtered /\ P x) ->
             In c (combinations2 s) -> tc_u (fst c) <> tc_u (snd c) ->
             In (fst c) corners /\ In (snd c) corners
             /\ ((tc_u (fst c) = u /\ tc_u (snd c) = v)
                 \/ (tc_u (fst c) = v /\ tc_u (snd c) = u))
             /\ P (fst c) /\ P (snd c)).
  { intros s P [ca cb] Hs Hin Hne. cbn [fst snd] in *.
    apply in_combinations2 in Hin. destruct Hin as [Ha Hb].
    destruct (Hs ca Ha) as [Hfa Pa]. destruct (Hs cb Hb) as [Hfb Pb].
    destruct (Hown ca Hfa) as [Hca Hoa]. destruct (Hown cb Hfb) as [Hcb Hob].
    repeat split; try assumption.
    destruct Hoa as [Hoa | Hoa], Hob as [Hob | Hob]; try (now left); try (now right);
      exfalso; apply Hne; congruence. }
  split.
  - intros c Hin. apply in_app_or in Hin. destruct Hin as [Hin | Hin].
    + destruct (Hall0 c Hin) as (Hp & Ho & _).
      destruct (Hside s0 _ c H0 Hp Ho) as (Ha & Hb & Hown' & Pa & Pb).
      repeat split; try assumption. now left.
    + destruct (Hall1 c Hin) as (Hp & Ho & _).
      destruct (Hside s1 _ c H1 Hp Ho) as (Ha & Hb & Hown' & Pa & Pb).
      repeat split; try assumption. now right.
  - apply ForallOrdPairs_app; try assumption.
    intros a b Ha Hb. destruct (Hall1 b Hb) as (_ & _ & _ & He).
    rewrite Hh0 in He. cbn [app] in He.
    destruct (CandHash_eqb (trench_candidate_hash_of b) (trench_candidate_hash_of a)) eqn:E;
      [| reflexivity].
    exfalso. assert (Hex : exists x,
                       In x (map trench_candidate_hash_of a0)
                       /\ CandHash_eqb (trench_candidate_hash_of b) x = true).
    { exists (trench_candidate_hash_of a). split; [now apply in_map | exact E]. }
    apply existsb_exists in Hex. congruence.
Qed.

(** X20: every candidate that the straight path adds for a street
    joins two corners of the bucket, one owned by each of the two
    intersections of the street and both on the same side of it; the
    candidates of one street have pairwise different keys, so no pair
    of places is proposed twice; the curved trenches are left as they
    were. *)
Theorem straight_candidates_join_the_two_ends (u v : Z) (u_node v_node : Node)
    (sid : StreetId) (corners : list TrenchCorner) (es : EdgeLoopState) :
  let es' := straight_street u v u_node v_node sid corners es in
  let d := point_distance_from_line (u_node, v_node) in
  exists added : list Candidate,
    new_pp es' = new_pp es ++ map Some added
    /\ new_curved_pp es' = new_curved_pp es
    /\ (forall c, In c added ->
          In (fst c) corners /\ In (snd c) corners
          /\ ((tc_u (fst c) = u /\ tc_u (snd c) = v)
              \/ (tc_u (fst c) = v /\ tc_u (snd c) = u))
          /\ ((d (fst c) <= 0 /\ d (snd c) <= 0) \/ (0 < d (fst c) /\ 0 < d (snd c))))
    /\ ForallOrdPairs (fun a b => CandHash_eqb (trench_candidate_hash_of b)
                                               (trench_candidate_hash_of a) = false)
                      added.
Proof. apply straight_street_added. Qed.

Lemma consider_pair_adds (u_node v_node : Node) (sid : StreetId) (side_id : Z)
    (st : list CandHash * EdgeLoopState) (pair : TrenchCorner * TrenchCorner) :
  new_pp (snd (consider_pair u_node v_node sid side_id st pair)) = new_pp (snd st)
  \/ (new_pp (snd (consider_pair u_node v_node sid side_id st pair))
      = new_pp (snd st) ++ [Some pair]
      /\ intersection_between_points (u_node, v_node) pair = false).
Proof.
  destruct st as [added_trenches es]. destruct pair as [a b].
  unfold consider_pair. cbn [fst snd].
  destruct (negb (tc_u a =? tc_u b)%Z); [| now left].
  destruct (intersection_between_points (u_node, v_node) (a, b)); cbn [negb andb];
    [now left|].
  destruct (negb (existsb _ added_trenches)); [| now left].
  right. split; reflexivity.
Qed.

(** X21: on a street whose bucket has on each side exactly one corner
    of each of its two intersections, the straight path proposes at
    most two candidates, at most one per side, each the pair of the two
    corners of its side, and none of them on a line that crosses the
    street. *)
Theorem four_corner_street_candidates (u v : Z) (u_node v_node : Node) (sid : StreetId)
    (corners : list TrenchCorner) (es : EdgeLoopState) (cu0 cu1 cv0 cv1 : TrenchCorner) :
  u <> v ->
  distinct_corners corners ->
  split_sides (u_node, v_node) (filter_set (fun corner => (tc_u corner =? u)%Z) corners)
  = ([cu0], [cu1]) ->
  split_sides (u_node, v_node) (filter_set (fun corner => (tc_u corner =? v)%Z) corners)
  = ([cv0], [cv1]) ->
  exists p0 p1 added,
    (p0 = (cu0, cv0) \/ p0 = (cv0, cu0))
    /\ (p1 = (cu1, cv1) \/ p1 = (cv1, cu1))
    /\ (added = [] \/ added = [p0] \/ added = [p1] \/ added = [p0; p1])
    /\ new_pp (straight_street u v u_node v_node sid corners es)
       = new_pp es ++ map Some added
    /\ (forall c, In c added -> ~ crosses_street u_node v_node c).
Proof.
  intros Huv Hd Hu Hv.
  destruct (straight_street_pairs u v u_node v_node sid corners es cu0 cu1 cv0 cv1
              Huv Hd Hu Hv) as (p0 & p1 & H0 & H1 & ->).
  exists p0, p1.
  set (st1 := consider_pair u_node v_node sid 0 ([], es) p0).
  assert (Hno : forall c, intersection_between_points (u_node, v_node) c = false ->
                          ~ crosses_street u_node v_node c).
  { intros c Hf Hc. apply intersection_between_points_crossing in Hc. congruence. }
  destruct (consider_pair_adds u_node v_node sid 1 st1 p1) as [E1 | [E1 X1]];
    destruct (consider_pair_adds u_node v_node sid 0 ([], es) p0) as [E0 | [E0 X0]];
    fold st1 in E0; cbn [snd] in E0; rewrite E1, E0.
  - exists []. cbn [map]. rewrite app_nil_r. repeat split; auto.
  - exists [p0]. repeat split; auto. all: intros c [<- | []]; now apply Hno.
  - exists [p1]. repeat split; auto. all: intros c [<- | []]; now apply Hno.
  - exists [p0; p1]. rewrite <- app_assoc. repeat split; auto.
    all: intros c [<- | [<- | []]]; now apply Hno.
Qed.

Lemma four_corner_street_candidates_witness :
  exists p0 p1 added,
    (p0 = (lone_u_0, lone_v_0) \/ p0 = (lone_v_0, lone_u_0))
    /\ (p1 = (lone_u_1, lone_v_1) \/ p1 = (lone_v_1, lone_u_1))
    /\ (added = [] \/ added = [p0] \/ added = [p1] \/ added = [p0; p1])
    /\ new_pp (straight_street 1 2 lone_u_node lone_v_node (Sid 1 2) lone_bucket
                               edge_loop_init)
       = new_pp edge_loop_init ++ map Some added
    /\ (forall c, In c added -> ~ crosses_street lone_u_node lone_v_node c).
Proof.
  apply (four_corner_street_candidates 1 2 lone_u_node lone_v_node (Sid 1 2) lone_bucket
           edge_loop_init lone_u_0 lone_u_1 lone_v_0 lone_v_1).
  - lia.
  - exact lone_bucket_distinct.
  - apply lone_sides. left. repeat split.
  - apply lone_sides. right. repeat split.
Defined.

(** ** The trenches of a curved street *)

Lemma curved_side_adds (us vs : list TrenchCorner * list TrenchCorner)
    (curved_line : list (R * R)) (es es' : EdgeLoopState) (side_id : Z) :
  curved_side us vs curved_line es side_id = Ok es' ->
  point_edges es' = point_edges es
  /\ new_pp es' = new_pp es
  /\ exists ts,
       new_curved_pp es' = new_curved_pp es ++ ts
       /\ (length ts <= 1)%nat
       /\ (forall t, In t ts ->
             In (u_for_edge t) (side_of us side_id)
             /\ In (v_for_edge t) (side_of vs side_id)
             /\ length (ct_geometry t) = length curved_line).
Proof.
  unfold curved_side.
  destruct ((0 <? length (side_of us side_id))%nat && (0 <? length (side_of vs side_id))%nat).
  - destruct (get_trench_linestring _ _ curved_line distance_from_center_of_road side_id)
      as [t |] eqn:Et; cbn [bind]; [| discriminate].
    intros [= <-]. cbn [point_edges new_pp new_curved_pp].
    split; [reflexivity|]. split; [reflexivity|]. exists [t].
    split; [reflexivity|]. split; [cbn; lia|].
    intros t' [<- | []].
    destruct (get_trench_linestring_ok _ _ _ _ _ _ Et) as (_ & Hu & Hv & Hlen & _).
    auto.
  - intros [= <-]. split; [reflexivity|]. split; [reflexivity|]. exists [].
    rewrite app_nil_r. split; [reflexivity|]. split; [cbn; lia | intros t []].
Qed.

Lemma side_of_member {A : Type} `{XY A} (line : A * A) (keep : TrenchCorner -> bool)
    (corners : list TrenchCorner) (side_id : Z) (c : TrenchCorner) :
  In c (side_of (split_sides line (filter_set keep corners)) side_id) ->
  In c corners /\ keep c = true.
Proof.
  destruct (split_sides line (filter_set keep corners)) as [s0 s1] eqn:Es.
  destruct (side_member _ _ _ _ Es) as [H0 H1].
  unfold side_of. cbn [fst snd].
  destruct (side_id =? 0)%Z; intros Hin.
  - apply filter_set_subset. now apply H0.
  - apply filter_set_subset. now apply H1.
Qed.

(** X22: the curved path ends with an [IndexError] on a geometry of
    fewer than two points.  Whenever it returns, it has left the
    straight candidates and their groups as they were and has added at
    most two trenches; each of them starts at a corner of the bucket
    that the first intersection owns, ends at a corner of the bucket
    that the second intersection owns, and has as many points as the
    geometry of the street. *)
Theorem curved_street_result (u v : Z) (u_node v_node : Node)
    (corners : list TrenchCorner) (curved_line : list (R * R)) (es : EdgeLoopState) :
  ((length curved_line < 2)%nat ->
   curved_street u v u_node v_node corners curved_line es = Raise IndexError)
  /\ (forall es',
        curved_street u v u_node v_node corners curved_line es = Ok es' ->
        point_edges es' = point_edges es
        /\ new_pp es' = new_pp es
        /\ exists ts,
             new_curved_pp es' = new_curved_pp es ++ ts
             /\ (length ts <= 2)%nat
             /\ (forall t, In t ts ->
                   In (u_for_edge t) corners /\ tc_u (u_for_edge t) = u
                   /\ In (v_for_edge t) corners /\ tc_u (v_for_edge t) = v
                   /\ length (ct_geometry t) = length curved_line)).
Proof.
  split.
  - intros Hlen. unfold curved_street, index, index_from_end.
    destruct curved_line as [| c0 [| c1 rest]]; cbn [length] in Hlen; try lia.
    + reflexivity.
    + cbn [nth_error length Nat.ltb Nat.leb bind].
      now destruct (Reqb (fst c0) (node_x u_node) && Reqb (snd c0) (node_y u_node)).
  - intros es'. unfold curved_street.
    destruct (index curved_line 0) as [c0 |]; cbn [bind]; [| discriminate].
    match goal with
    | |- (bind ?segs _) = _ -> _ => destruct segs as [[first_segment last_segment] |]
    end; cbn [bind]; [| discriminate].
    set (us := split_sides first_segment _). set (vs := split_sides last_segment _).
    destruct (curved_side us vs curved_line es 0) as [es1 |] eqn:E0; cbn [bind];
      [| discriminate].
    intros E1.
    destruct (curved_side_adds _ _ _ _ _ _ E0) as (Hpe0 & Hpp0 & ts0 & Hts0 & Hl0 & Hin0).
    destruct (curved_side_adds _ _ _ _ _ _ E1) as (Hpe1 & Hpp1 & ts1 & Hts1 & Hl1 & Hin1).
    split; [congruence|]. split; [congruence|].
    exists (ts0 ++ ts1). rewrite Hts1, Hts0, <- app_assoc.
    split; [reflexivity|]. split; [rewrite length_app; lia|].
    intros t Hin. apply in_app_or in Hin.
    assert (Hmem : forall side_id,
               In (u_for_edge t) (side_of us side_id)
               /\ In (v_for_edge t) (side_of vs side_id)
               /\ length (ct_geometry t) = length curved_line ->
               In (u_for_edge t) corners /\ tc_u (u_for_edge t) = u
               /\ In (v_for_edge t) corners /\ tc_u (v_for_edge t) = v
               /\ length (ct_geometry t) = length curved_line).
    { intros side_id (Hu & Hv & Hlen).
      apply side_of_member in Hu, Hv.
      destruct Hu as [Hu Eu], Hv as [Hv Ev]. apply Z.eqb_eq in Eu, Ev. auto. }
    destruct Hin as [Hin | Hin]; [apply (Hmem 0%Z), Hin0 | apply (Hmem 1%Z), Hin1];
      exact Hin.
Qed.

Lemma curved_street_result_witness :
  point_edges short_curved_state = point_edges edge_loop_init
  /\ new_pp short_curved_state = new_pp edge_loop_init
  /\ exists ts,
       new_curved_pp short_curved_state = new_curved_pp edge_loop_init ++ ts
       /\ (length ts <= 2)%nat.
Proof.
  destruct (proj2 (curved_street_result 1 2 short_u_node short_v_node short_bucket
                     short_geometry edge_loop_init) _ short_curved_street)
    as (Hpe & Hpp & ts & Hts & Hlen & _).
  split; [exact Hpe|]. split; [exact Hpp|]. exists ts. now split.
Defined.

(** ** The resolver *)

Lemma cleared_at_refl (refs : list nat) (store : list (option Candidate)) :
  cleared_at refs store store.
Proof. split; [reflexivity | intros i; now left]. Qed.

Lemma cleared_at_trans (refs : list nat) (s1 s2 s3 : list (option Candidate)) :
  cleared_at refs s1 s2 -> cleared_at refs s2 s3 -> cleared_at refs s1 s3.
Proof.
  intros [L1 H1] [L2 H2]. split; [congruence|]. intros i.
  destruct (H2 i) as [E2 | [Hin E2]].
  - rewrite E2. apply H1.
  - right. now split.
Qed.

Lemma cleared_at_weaken (refs refs' : list nat) (store store' : list (option Candidate)) :
  incl refs refs' -> cleared_at refs store store' -> cleared_at refs' store store'.
Proof.
  intros Hincl [Hlen H]. split; [exact Hlen|]. intros i.
  destruct (H i) as [E | [Hin E]]; [now left | right]. auto.
Qed.

Lemma invalidate_at (store : list (option Candidate)) (ref i : nat) :
  length (invalidate store ref) = length store
  /\ (i <> ref -> nth_error (invalidate store ref) i = nth_error store i)
  /\ ((ref < length store)%nat -> nth_error (invalidate store ref) ref = Some None)
  /\ ((length store <= ref)%nat -> invalidate store ref = store).
Proof.
  revert ref i. induction store as [| x rest IH]; intros ref i.
  - destruct ref; cbn; repeat split; auto; lia.
  - destruct ref as [| ref']; cbn [invalidate length].
    + repeat split; auto; try lia. destruct i; [congruence | reflexivity].
    + destruct (IH ref' (pred i)) as (Hl & Hn & Hs & Ho). repeat split.
      * now rewrite Hl.
      * destruct i as [| i']; [reflexivity|]. cbn [nth_error pred] in *.
        intros Hne. apply Hn. lia.
      * cbn [nth_error]. intros Hlt. apply Hs. lia.
      * intros Hle. f_equal. apply Ho. lia.
Qed.

Lemma invalidate_cleared (store : list (option Candidate)) (ref : nat) (refs : list nat) :
  In ref refs -> cleared_at refs store (invalidate store ref).
Proof.
  intros Hin. split; [apply (invalidate_at store ref 0)|]. intros i.
  destruct (Nat.eq_dec i ref) as [-> | Hne]; [| left; now apply (invalidate_at store ref i)].
  destruct (le_lt_dec (length store) ref) as [Hle | Hlt].
  - left. now rewrite (proj2 (proj2 (proj2 (invalidate_at store ref 0))) Hle).
  - right. split; [exact Hin|]. now apply (invalidate_at store ref 0).
Qed.

Lemma resolve_side_loop_cleared (side : list nat) (store : list (option Candidate))
    (sp : option nat) (sd : R) (refs : list nat) :
  incl side refs -> (forall r, sp = Some r -> In r refs) ->
  cleared_at refs store (resolve_side_loop side store sp sd).
Proof.
  revert store sp sd. induction side as [| ref rest IH]; intros store sp sd Hincl Hsp;
    cbn [resolve_side_loop]; [apply cleared_at_refl|].
  assert (Hrest : incl rest refs) by (intros x Hx; apply Hincl; now right).
  assert (Hnew : forall r, Some ref = Some r -> In r refs)
    by (intros r [= <-]; apply Hincl; now left).
  destruct (nth_error store ref) as [[cand |] |] eqn:Eref; try (now apply IH).
  destruct (Rltb _ sd); [| now apply IH].
  destruct sp as [r |]; [| now apply IH].
  apply cleared_at_trans with (invalidate store r); [| now apply IH].
  apply invalidate_cleared. now apply Hsp.
Qed.

Lemma resolve_side_cleared (store : list (option Candidate)) (side refs : list nat) :
  incl side refs -> cleared_at refs store (resolve_side store side).
Proof.
  intros Hincl. unfold resolve_side.
  destruct (1 <? length side)%nat; [| apply cleared_at_refl].
  apply resolve_side_loop_cleared; [exact Hincl | discriminate].
Qed.

Lemma resolve_side_small (store : list (option Candidate)) (side : list nat) :
  (length side <= 1)%nat -> resolve_side store side = store.
Proof.
  intros Hlen. unfold resolve_side.
  now replace (1 <? length side)%nat with false by (symmetry; now apply Nat.ltb_ge).
Qed.

(** X23: the resolver changes nothing but validity: the store keeps
    its length, every cell is left as it was or set to [None], and
    only cells that a group of [point_edges] refers to are set to
    [None]; where no group has more than one candidate on a side, the
    store is returned as it is. *)
Theorem resolver_only_invalidates
    (pe : list (StreetId * list (CandHash * (list nat * list nat))))
    (store : list (option Candidate)) :
  cleared_at (group_refs pe) store (resolve_candidates pe store)
  /\ ((forall street_segment_id streets key sides,
         In (street_segment_id, streets) pe -> In (key, sides) streets ->
         (length (fst sides) <= 1)%nat /\ (length (snd sides) <= 1)%nat) ->
      resolve_candidates pe store = store).
Proof.
  split.
  - revert store. unfold resolve_candidates.
    induction pe as [| [sid streets] rest IH]; intros store; cbn [fold_left];
      [apply cleared_at_refl|].
    apply cleared_at_trans with (resolve_streets store streets).
    + apply cleared_at_weaken with (flat_map (fun group => fst (snd group) ++ snd (snd group))
                                             streets).
      { unfold group_refs. cbn [flat_map snd]. apply incl_appl, incl_refl. }
      clear IH. revert store. unfold resolve_streets.
      induction streets as [| [key [s0 s1]] more IHs]; intros store; cbn [fold_left];
        [apply cleared_at_refl|].
      cbn [fst snd flat_map].
      apply cleared_at_trans with (resolve_side (resolve_side store s0) s1).
      * apply cleared_at_trans with (resolve_side store s0);
          apply resolve_side_cleared; intros x Hx; apply in_or_app; left;
          apply in_or_app; auto.
      * apply cleared_at_weaken with (flat_map (fun group => fst (snd group)
                                                             ++ snd (snd group)) more);
          [apply incl_appr, incl_refl | apply IHs].
    + apply cleared_at_weaken with (group_refs rest); [| apply IH].
      unfold group_refs. cbn [flat_map]. apply incl_appr, incl_refl.
  - revert store. unfold resolve_candidates.
    induction pe as [| [sid streets] rest IH]; intros store Hsmall; cbn [fold_left snd];
      [reflexivity|].
    assert (Hs : resolve_streets store streets = store).
    { assert (Hg : forall key sides, In (key, sides) streets ->
                     (length (fst sides) <= 1)%nat /\ (length (snd sides) <= 1)%nat)
        by (intros key sides Hin; apply (Hsmall sid streets key sides); [now left | exact Hin]).
      clear Hsmall IH. revert store. unfold resolve_streets.
      induction streets as [| [key [s0 s1]] more IHs]; intros store; cbn [fold_left];
        [reflexivity|].
      destruct (Hg key (s0, s1) (or_introl eq_refl)) as [H0 H1]. cbn [fst snd] in *.
      rewrite (resolve_side_small store s0 H0), (resolve_side_small store s1 H1).
      apply IHs. intros k s Hin. apply (Hg k s). now right. }
    rewrite Hs. apply IH. intros s st k sd Hin. apply (Hsmall s st k sd). now right.
Qed.

(** Once the shortest candidate is held, candidates that are not
    shorter leave the store alone. *)
Lemma resolve_side_loop_settled (side : list nat) (store : list (option Candidate))
    (sp : option nat) (m : R) :
  (forall r c, In r side -> nth_error store r = Some (Some c) ->
               m <= node_distance (fst c) (snd c)) ->
  resolve_side_loop side store sp m = store.
Proof.
  induction side as [| ref rest IH]; intros Hge; cbn [resolve_side_loop]; [reflexivity|].
  assert (Hrest : forall r c, In r rest -> nth_error store r = Some (Some c) ->
                              m <= node_distance (fst c) (snd c))
    by (intros r c Hin; apply Hge; now right).
  destruct (nth_error store ref) as [[cand |] |] eqn:Eref; try (now apply IH).
  rewrite (Rltb_ge _ _ (Hge ref cand (or_introl eq_refl) Eref)). now apply IH.
Qed.

Lemma resolve_side_loop_keeps_first_shortest (before after : list nat) (r : nat)
    (c : Candidate) :
  forall (store : list (option Candidate)) (sp : option nat) (sd : R),
    nth_error store r = Some (Some c) ->
    node_distance (fst c) (snd c) < sd ->
    sp <> Some r -> ~ In r before ->
    (forall r' c', In r' before -> nth_error store r' = Some (Some c') ->
                   node_distance (fst c) (snd c) < node_distance (fst c') (snd c')) ->
    (forall r' c', In r' after -> nth_error store r' = Some (Some c') ->
                   node_distance (fst c) (snd c) <= node_distance (fst c') (snd c')) ->
    nth_error (resolve_side_loop (before ++ r :: after) store sp sd) r = Some (Some c).
Proof.
  set (m := node_distance (fst c) (snd c)).
  assert (Hkeep : forall (store : list (option Candidate)) (sp : option nat),
             sp <> Some r -> nth_error store r = Some (Some c) ->
             nth_error (match sp with Some s => invalidate store s | None => store end) r
             = Some (Some c)).
  { intros store [s |] Hne Hr; [| exact Hr].
    rewrite (proj1 (proj2 (invalidate_at store s r))); [exact Hr | congruence]. }
  assert (Hvalid : forall (store : list (option Candidate)) (sp : option nat) r' c',
             nth_error (match sp with Some s => invalidate store s | None => store end) r'
             = Some (Some c') ->
             nth_error store r' = Some (Some c')).
  { intros store [s |] r' c' H; [| exact H]. now apply invalidate_only_invalidates in H. }
  induction before as [| x bs IH]; intros store sp sd Hr Hlt Hsp Hnin Hb Ha.
  - cbn [app resolve_side_loop]. rewrite Hr. fold m. rewrite (Rltb_lt _ _ Hlt).
    rewrite resolve_side_loop_settled.
    + now apply Hkeep.
    + intros r' c' Hin Hc'. apply (Ha r' c' Hin). now apply Hvalid in Hc'.
  - cbn [app resolve_side_loop].
    assert (Hnin' : ~ In r bs) by (intros H; apply Hnin; now right).
    assert (Hb' : forall r' c', In r' bs -> nth_error store r' = Some (Some c') ->
                                m < node_distance (fst c') (snd c'))
      by (intros r' c' Hin; apply Hb; now right).
    destruct (nth_error store x) as [[cx |] |] eqn:Ex; try (now apply IH).
    destruct (Rltb (node_distance (fst cx) (snd cx)) sd) eqn:Ecmp; [| now apply IH].
    apply IH.
    + now apply Hkeep.
    + apply (Hb x cx); [now left | exact Ex].
    + intros [= ->]. apply Hnin. now left.
    + exact Hnin'.
    + intros r' c' Hin Hc'. apply (Hb' r' c' Hin). now apply Hvalid in Hc'.
    + intros r' c' Hin Hc'. apply (Ha r' c' Hin). now apply Hvalid in Hc'.
Qed.

(** X24: on a side with several candidates, each in a cell of its own,
    the first candidate of the least distance stays valid, provided
    that this distance is below 1000000. *)
Theorem resolver_keeps_the_first_shortest (store : list (option Candidate))
    (before after : list nat) (r : nat) (c : Candidate) :
  nth_error store r = Some (Some c) ->
  node_distance (fst c) (snd c) < 1000000 ->
  ~ In r before ->
  (forall r' c', In r' before -> nth_error store r' = Some (Some c') ->
                 node_distance (fst c) (snd c) < node_distance (fst c') (snd c')) ->
  (forall r' c', In r' after -> nth_error store r' = Some (Some c') ->
                 node_distance (fst c) (snd c) <= node_distance (fst c') (snd c')) ->
  nth_error (resolve_side store (before ++ r :: after)) r = Some (Some c).
Proof.
  intros Hr Hlt Hnin Hb Ha. unfold resolve_side.
  destruct (1 <? length (before ++ r :: after))%nat; [| exact Hr].
  apply resolve_side_loop_keeps_first_shortest; try assumption. discriminate.
Qed.

Lemma resolver_keeps_the_first_shortest_witness :
  nth_error (resolve_side three_candidates ([0%nat] ++ 1%nat :: [2%nat])) 1
  = Some (Some cand_len2).
Proof.
  apply resolver_keeps_the_first_shortest.
  - reflexivity.
  - rewrite cand_len2_distance. lra.
  - intros [H | []]. discriminate.
  - intros r' c' [<- | []] [= <-]. rewrite cand_len2_distance, cand_len5_distance. lra.
  - intros r' c' [<- | []] [= <-]. rewrite cand_len2_distance, cand_len8_distance. lra.
Defined.

(** ** Merging into the road graph *)

Section SetDefault.
Context {K V : Type} (eqb : K -> K -> bool).
Hypothesis eqb_refl : forall k, eqb k k = true.
Hypothesis eqb_compat : forall a b c, eqb a b = true -> eqb a c = eqb b c.

Lemma setdefault_keeps (d : list (K * V)) (k n : K) (v data : V) :
  dict_get eqb d n = Some data -> dict_get eqb (setdefault eqb d k v) n = Some data.
Proof.
  intros Hn. unfold setdefault. destruct (dict_mem eqb d k) eqn:Em; [exact Hn|].
  rewrite (dict_get_set_other eqb eqb_compat); [exact Hn|].
  destruct (eqb k n) eqn:Ek; [| reflexivity].
  unfold dict_mem in Em. rewrite (dict_get_compat eqb eqb_refl eqb_compat d k n Ek), Hn in Em.
  discriminate.
Qed.

End SetDefault.

Lemma graph_kept_refl (g : TrenchGraph) : graph_kept g g.
Proof. repeat split; auto. Qed.

Lemma graph_kept_trans (g1 g2 g3 : TrenchGraph) :
  graph_kept g1 g2 -> graph_kept g2 g3 -> graph_kept g1 g3.
Proof.
  intros (N1 & M1 & E1) (N2 & M2 & E2). repeat split.
  - intros n data H. now apply N2, N1.
  - intros k H. now apply M2, M1.
  - intros u v key Hk. now rewrite E2, E1.
Qed.

Lemma add_edge_kept (g : TrenchGraph) (u v : NodeKey) (attr : EdgeAttrs) :
  graph_kept g (add_edge g u v 1 attr).
Proof.
  unfold add_edge. repeat split; cbn [tg_nodes tg_edges].
  - intros n data H.
    apply (setdefault_keeps NodeKey_eqb NodeKey_eqb_refl NodeKey_eqb_compat).
    now apply (setdefault_keeps NodeKey_eqb NodeKey_eqb_refl NodeKey_eqb_compat).
  - intros k H.
    rewrite (dict_mem_set EdgeKey_eqb EdgeKey_eqb_refl EdgeKey_eqb_compat), H.
    apply orb_true_r.
  - intros u' v' key Hk. apply (dict_get_set_other EdgeKey_eqb EdgeKey_eqb_compat).
    cbn [EdgeKey_eqb]. replace (1 =? key)%Z with false by (symmetry; apply Z.eqb_neq; lia).
    apply andb_false_r.
Qed.

Lemma add_straight_trenches_kept (store : list (option Candidate)) (g0 g1 : TrenchGraph) :
  add_straight_trenches store g0 = Ok g1 -> graph_kept g0 g1.
Proof.
  revert g0. induction store as [| [c |] rest IH]; intros g0; cbn [add_straight_trenches].
  - intros [= <-]. apply graph_kept_refl.
  - destruct (node_for_adding (fst c)) as [id0 |]; cbn [bind]; [| discriminate].
    destruct (node_for_adding (snd c)) as [id1 |]; cbn [bind]; [| discriminate].
    intros H. eapply graph_kept_trans; [apply add_edge_kept | apply IH, H].
  - apply IH.
Qed.

Lemma add_curved_trenches_kept (ts : list CurvedTrench) (g : TrenchGraph) :
  graph_kept g (add_curved_trenches ts g).
Proof.
  revert g. unfold add_curved_trenches. induction ts as [| t rest IH]; intros g;
    cbn [fold_left]; [apply graph_kept_refl|].
  eapply graph_kept_trans; [apply add_edge_kept | apply IH].
Qed.

Lemma add_crossings_kept (rc : list (StreetId * list (Z * Z))) (g : TrenchGraph) :
  graph_kept g (add_crossings rc g).
Proof.
  revert g. unfold add_crossings. induction rc as [| [sid crossings] rest IH]; intros g;
    cbn [fold_left]; [apply graph_kept_refl|].
  eapply graph_kept_trans; [| apply IH]. cbn [fst snd].
  clear IH. revert g. induction crossings as [| crossing more IHc]; intros g;
    cbn [fold_left]; [apply graph_kept_refl|].
  eapply graph_kept_trans; [apply add_edge_kept | apply IHc].
Qed.

(** X25: merging the straight trenches, the curved trenches and the
    crossings into a graph removes nothing and touches key 1 only:
    every node keeps its data, every edge stays an edge, and the edges
    with another key than 1 are the same as before, none added and none
    changed. *)
Theorem merging_keeps_the_graph (store : list (option Candidate))
    (ts : list CurvedTrench) (rc : list (StreetId * list (Z * Z)))
    (g0 g1 : TrenchGraph) :
  add_straight_trenches store g0 = Ok g1 ->
  graph_kept g0 (add_crossings rc (add_curved_trenches ts g1)).
Proof.
  intros H. apply graph_kept_trans with g1; [exact (add_straight_trenches_kept store g0 g1 H)|].
  apply graph_kept_trans with (add_curved_trenches ts g1);
    [apply add_curved_trenches_kept | apply add_crossings_kept].
Qed.

Lemma merging_keeps_the_graph_witness :
  exists g1,
    add_straight_trenches three_candidates (mkTrenchGraph [] []) = Ok g1
    /\ graph_kept (mkTrenchGraph [] [])
                  (add_crossings [(Sid 1 2, [(400000001, 400000002)%Z])]
                                 (add_curved_trenches [] g1)).
Proof.
  eexists. split; [reflexivity|].
  apply (merging_keeps_the_graph three_candidates). reflexivity.
Defined.

(** ** The corners as nodes of the graph *)

(** The body of the two loops of [add_corner_nodes] for one corner. *)
Lemma add_corner_nodes_flat (trench_corners : list (StreetId * list TrenchCorner))
    (acc : result (list (Z * Node))) :
  fold_left (fun acc entry =>
               fold_left (fun acc corner =>
                            ns <- acc ;;
                            id <- match tc_node_for_adding corner with
                                  | Some id => Ok id
                                  | None => Raise TypeError
                                  end ;;
                            Ok (dict_set Z.eqb ns id
                                  (mkNode (tc_x corner) (tc_y corner)
                                          (tc_street_count corner))))
                         (snd entry) acc)
            trench_corners acc
  = fold_left (fun acc corner =>
                 ns <- acc ;;
                 id <- match tc_node_for_adding corner with
                       | Some id => Ok id
                       | None => Raise TypeError
                       end ;;
                 Ok (dict_set Z.eqb ns id
                       (mkNode (tc_x corner) (tc_y corner) (tc_street_count corner))))
              (concat (map snd trench_corners)) acc.
Proof.
  revert acc. induction trench_corners as [| [sid corners] rest IH]; intros acc;
    cbn [fold_left map snd concat]; [reflexivity|].
  now rewrite fold_left_app, IH.
Qed.

Lemma Z_eqb_compat (a b c : Z) : (a =? b)%Z = true -> (a =? c)%Z = (b =? c)%Z.
Proof. intros H. apply Z.eqb_eq in H. now subst. Qed.

Lemma add_corners_flat_spec (l : list TrenchCorner) :
  forall ns : list (Z * Node),
    (forall c, In c l -> exists id, tc_node_for_adding c = Some id) ->
    exists ns',
      fold_left (fun acc corner =>
                   ns <- acc ;;
                   id <- match tc_node_for_adding corner with
                         | Some id => Ok id
                         | None => Raise TypeError
                         end ;;
                   Ok (dict_set Z.eqb ns id
                         (mkNode (tc_x corner) (tc_y corner) (tc_street_count corner))))
                l (Ok ns) = Ok ns'
      /\ (forall id, (forall c, In c l -> tc_node_for_adding c <> Some id) ->
                     dict_get Z.eqb ns' id = dict_get Z.eqb ns id)
      /\ (forall c, In c l ->
            exists id c', tc_node_for_adding c = Some id
                          /\ In c' l /\ tc_node_for_adding c' = Some id
                          /\ dict_get Z.eqb ns' id
                             = Some (mkNode (tc_x c') (tc_y c') (tc_street_count c'))).
Proof.
  induction l as [| x rest IH]; intros ns Hids.
  - exists ns. cbn [fold_left]. split; [reflexivity|]. split; [reflexivity | intros c []].
  - destruct (Hids x (or_introl eq_refl)) as (idx & Ex).
    cbn [fold_left bind]. rewrite Ex. cbn [bind].
    destruct (IH (dict_set Z.eqb ns idx (mkNode (tc_x x) (tc_y x) (tc_street_count x))))
      as (ns' & Hrun & Hother & Hcorner).
    { intros c Hin. apply Hids. now right. }
    exists ns'. split; [exact Hrun|]. split.
    + intros id Hno. rewrite Hother by (intros c Hin; apply Hno; now right).
      apply (dict_get_set_other Z.eqb Z_eqb_compat). apply Z.eqb_neq.
      intros ->. now apply (Hno x (or_introl eq_refl)).
    + assert (Hlater : forall c, In c rest ->
                 exists id c', tc_node_for_adding c = Some id
                               /\ In c' (x :: rest) /\ tc_node_for_adding c' = Some id
                               /\ dict_get Z.eqb ns' id
                                  = Some (mkNode (tc_x c') (tc_y c') (tc_street_count c'))).
      { intros c Hin. destruct (Hcorner c Hin) as (id & c' & E & Hin' & E' & Hget).
        exists id, c'. repeat split; try assumption. now right. }
      intros c [<- | Hin]; [| now apply Hlater].
      destruct (existsb (fun c => match tc_node_for_adding c with
                                  | Some id => (id =? idx)%Z
                                  | None => false
                                  end) rest) eqn:Ee.
      * apply existsb_exists in Ee. destruct Ee as (c2 & Hin2 & E2).
        destruct (tc_node_for_adding c2) as [id2 |] eqn:Eid2; [| discriminate].
        apply Z.eqb_eq in E2. subst id2.
        destruct (Hlater c2 Hin2) as (id & c' & E & Hin' & E' & Hget).
        exists idx, c'. rewrite Eid2 in E. injection E as <-. auto.
      * exists idx, x. repeat split; try assumption; [now left|].
        rewrite Hother.
        -- apply (dict_get_set_eqb Z.eqb Z.eqb_refl Z_eqb_compat). apply Z.eqb_refl.
        -- intros c Hin Hc.
           assert (Hex : exists c0, In c0 rest
                                    /\ match tc_node_for_adding c0 with
                                       | Some id => (id =? idx)%Z
                                       | None => false
                                       end = true).
           { exists c. split; [exact Hin|]. rewrite Hc. apply Z.eqb_refl. }
           apply existsb_exists in Hex. congruence.
Qed.

(** X26: the corners that [get_trench_corners] returns can always be
    added as nodes: [add_corner_nodes] does not fail on them; the
    identifier of every corner is then a node with the coordinates of a
    corner that has this identifier, and every node with an identifier
    of at most 400000000 is as it was. *)
Theorem synthesized_corners_become_nodes (network : Network)
    (trench_corners : list (StreetId * list TrenchCorner))
    (road_crossing : list (StreetId * list (Z * Z))) :
  get_trench_corners network = Ok (trench_corners, road_crossing) ->
  exists g_nodes,
    add_corner_nodes trench_corners (net_nodes network) = Ok g_nodes
    /\ (forall street_segment_id corners corner,
          In (street_segment_id, corners) trench_corners -> In corner corners ->
          exists id corner',
            tc_node_for_adding corner = Some id
            /\ In corner' (concat (map snd trench_corners))
            /\ tc_node_for_adding corner' = Some id
            /\ dict_get Z.eqb g_nodes id
               = Some (mkNode (tc_x corner') (tc_y corner') (tc_street_count corner')))
    /\ (forall id, (id <= 400000000)%Z ->
                   dict_get Z.eqb g_nodes id = dict_get Z.eqb (net_nodes network) id).
Proof.
  intros Hrun.
  assert (Hplaced : forall c, In c (concat (map snd trench_corners)) ->
                              placed network c).
  { unfold get_trench_corners, get_trench_corners_state in Hrun.
    destruct (process_intersections network (net_nodes network) corner_state_init)
      as [cs |] eqn:E; cbn [bind] in Hrun; [| discriminate].
    injection Hrun as <- _.
    assert (Hinit : placed_index network corner_state_init)
      by (constructor; cbn; try tauto; lia).
    now destruct (process_intersections_placed network _ _ _ (incl_refl _) Hinit E). }
  destruct (add_corners_flat_spec (concat (map snd trench_corners)) (net_nodes network))
    as (g_nodes & Hok & Hother & Hcorner).
  { intros c Hin. destruct (Hplaced c Hin) as [(id & E & _) _]. now exists id. }
  exists g_nodes. unfold add_corner_nodes. rewrite add_corner_nodes_flat.
  split; [exact Hok|]. split.
  - intros sid corners corner Hin Hc. apply Hcorner.
    apply in_concat. exists corners. split; [| exact Hc].
    apply in_map_iff. now exists (sid, corners).
  - intros id Hid. apply Hother. intros c Hin Hc.
    destruct (Hplaced c Hin) as [(id' & E & Hgt) _]. rewrite E in Hc.
    injection Hc as ->. lia.
Qed.

Lemma synthesized_corners_become_nodes_witness :
  exists g_nodes,
    add_corner_nodes (output_trench_corners twin_state) (net_nodes twin_network)
    = Ok g_nodes
    /\ dict_get Z.eqb g_nodes 3%Z = Some (mkNode 1 0 2).
Proof.
  destruct (synthesized_corners_become_nodes twin_network _ _ twin_network_corners)
    as (g_nodes & Hok & _ & Hroad).
  exists g_nodes. split; [exact Hok|]. rewrite Hroad by lia. reflexivity.
Defined.

(** ** The whole script *)

Lemma graph_of_nodes (g_nodes : list (Z * Node)) (edges : list ((Z * Z * Z) * EdgeAttrs))
    (id : Z) :
  dict_get NodeKey_eqb (tg_nodes (graph_of g_nodes edges)) (NodeId id)
  = option_map Some (dict_get Z.eqb g_nodes id).
Proof.
  unfold graph_of. cbn [tg_nodes].
  induction g_nodes as [| [k n] rest IH]; cbn [map dict_get fst snd NodeKey_eqb];
    [reflexivity|].
  destruct (k =? id)%Z; [reflexivity | exact IH].
Qed.

Lemma graph_of_edges (g_nodes : list (Z * Node)) (edges : list ((Z * Z * Z) * EdgeAttrs))
    (u v key : Z) :
  dict_get EdgeKey_eqb (tg_edges (graph_of g_nodes edges)) (NodeId u, NodeId v, key)
  = dict_get edge_key_eqb edges (u, v, key).
Proof.
  unfold graph_of. cbn [tg_edges].
  induction edges as [| [[[a b] k] attrs] rest IH];
    cbn [map dict_get EdgeKey_eqb edge_key_eqb NodeKey_eqb]; [reflexivity|].
  destruct ((a =? u)%Z && (b =? v)%Z && (k =? key)%Z); [reflexivity | exact IH].
Qed.

Lemma edgeless_corners (nodes0 ns : list (Z * Node)) (cs : CornerState) :
  process_intersections (mkNetwork nodes0 []) ns cs = Ok cs.
Proof.
  revert cs. induction ns as [| [u current_node] rest IH]; intros cs;
    cbn [process_intersections]; [reflexivity|].
  unfold process_intersection, neighbors_of.
  cbn [net_edges filter map nodup_Z collect_neighbors bind fst sort_R fold_right
       corner_loop length Nat.ltb Nat.leb Nat.eqb].
  apply IH.
Qed.

Lemma edgeless_network (g_nodes : list (Z * Node)) :
  trench_network (mkNetwork g_nodes []) = Ok (graph_of g_nodes []).
Proof.
  unfold trench_network, get_trench_corners, get_trench_corners_state.
  rewrite edgeless_corners. reflexivity.
Qed.

(** X27: the script keeps the road network.  When it runs through, every
    road node with an identifier of at most 400000000 is a node of the
    result with its data, and the edges of the result with another key
    than 1 are the road edges with their data: none is added, removed
    or changed. *)
Theorem script_keeps_the_roads (G_box : Network) (g : TrenchGraph) :
  trench_network G_box = Ok g ->
  (forall id node, (id <= 400000000)%Z ->
                   dict_get Z.eqb (net_nodes G_box) id = Some node ->
                   dict_get NodeKey_eqb (tg_nodes g) (NodeId id) = Some (Some node))
  /\ (forall u v key, key <> 1%Z ->
        dict_get EdgeKey_eqb (tg_edges g) (NodeId u, NodeId v, key)
        = dict_get edge_key_eqb (net_edges G_box) (u, v, key))
  /\ (forall u v key attrs, dict_get edge_key_eqb (net_edges G_box) (u, v, key) = Some attrs ->
        dict_mem EdgeKey_eqb (tg_edges g) (NodeId u, NodeId v, key) = true).
Proof.
  unfold trench_network. intros Hrun.
  destruct (get_trench_corners G_box) as [[trench_corners road_crossing] |] eqn:Ec;
    cbn [bind] in Hrun; [| discriminate].
  assert (Hplaced : forall c, In c (concat (map snd trench_corners)) ->
                              placed G_box c).
  { unfold get_trench_corners, get_trench_corners_state in Ec.
    destruct (process_intersections G_box (net_nodes G_box) corner_state_init)
      as [cs |] eqn:E; cbn [bind] in Ec; [| discriminate].
    injection Ec as <- _.
    assert (Hinit : placed_index G_box corner_state_init)
      by (constructor; cbn; try tauto; lia).
    now destruct (process_intersections_placed G_box _ _ _ (incl_refl _) Hinit E). }
  destruct (add_corners_flat_spec (concat (map snd trench_corners)) (net_nodes G_box))
    as (g_nodes & Hok & Hother & _).
  { intros c Hin. destruct (Hplaced c Hin) as [(id & E & _) _]. now exists id. }
  unfold add_corner_nodes in Hrun. rewrite add_corner_nodes_flat, Hok in Hrun.
  cbn [bind] in Hrun.
  destruct (process_edges g_nodes trench_corners (net_edges G_box) edge_loop_init)
    as [es |]; cbn [bind] in Hrun; [| discriminate].
  destruct (add_straight_trenches _ _) as [g1 |] eqn:Es; cbn [bind] in Hrun;
    [| discriminate].
  injection Hrun as <-.
  assert (Hkept : graph_kept (graph_of g_nodes (net_edges G_box))
                    (add_crossings road_crossing (add_curved_trenches (new_curved_pp es) g1))).
  { apply graph_kept_trans with g1; [exact (add_straight_trenches_kept _ _ _ Es)|].
    apply graph_kept_trans with (add_curved_trenches (new_curved_pp es) g1);
      [apply add_curved_trenches_kept | apply add_crossings_kept]. }
  destruct Hkept as (Hn & Hm & He). split; [| split].
  - intros id node Hid Hget. apply Hn. rewrite graph_of_nodes, Hother, Hget; [reflexivity|].
    intros c Hin Hc. destruct (Hplaced c Hin) as [(id' & E & Hgt) _].
    rewrite E in Hc. injection Hc as ->. lia.
  - intros u v key Hk. rewrite He by exact Hk. apply graph_of_edges.
  - intros u v key attrs Hget. apply Hm. unfold dict_mem.
    now rewrite graph_of_edges, Hget.
Qed.

(** X28: a network without streets gets no corner and no trench: the
    script runs through on it and returns the road graph as it was,
    whatever its nodes are. *)
Theorem network_without_streets (g_nodes : list (Z * Node)) :
  get_trench_corners (mkNetwork g_nodes []) = Ok ([], [])
  /\ trench_network (mkNetwork g_nodes []) = Ok (graph_of g_nodes []).
Proof.
  split; [| apply edgeless_network].
  unfold get_trench_corners, get_trench_corners_state.
  rewrite edgeless_corners. reflexivity.
Qed.

(** * The lengths of the merged edges *)










(** * A run of the script *)

(** The candidates of the edge loop join corners of the buckets. *)
Lemma process_edges_from_buckets (P : TrenchCorner -> Prop) (g_nodes : list (Z * Node))
    (trench_corners : list (StreetId * list TrenchCorner))
    (edges : list ((Z * Z * Z) * EdgeAttrs)) (es0 es : EdgeLoopState) :
  (forall street_segment_id corners corner,
     In (street_segment_id, corners) trench_corners -> In corner corners -> P corner) ->
  process_edges g_nodes trench_corners edges es0 = Ok es ->
  (forall c, In (Some c) (new_pp es0) -> P (fst c) /\ P (snd c)) ->
  forall c, In (Some c) (new_pp es) -> P (fst c) /\ P (snd c).
Proof.
  intros Hbuckets. revert es0. induction edges as [| [[[u v] key] street] rest IH];
    intros es0; cbn [process_edges].
  - now intros [= <-].
  - destruct (process_edge g_nodes trench_corners es0 (u, v, key, street)) as [es1 |] eqn:E1;
      cbn [bind]; [| discriminate].
    intros Hrun H0. apply (IH es1 Hrun). clear IH Hrun.
    unfold process_edge in E1.
    destruct (getitem Z.eqb g_nodes u) as [u_node |]; cbn [bind] in E1; [| discriminate].
    destruct (getitem Z.eqb g_nodes v) as [v_node |]; cbn [bind] in E1; [| discriminate].
    destruct (dict_get StreetId_eqb trench_corners (street_id_of u v)) as [corners |] eqn:Eb.
    + destruct (dict_get_value StreetId_eqb _ _ _ Eb) as (sid' & Hin).
      destruct (e_geometry street) as [curved_line |].
      * unfold curved_street in E1.
        destruct (index curved_line 0) as [c0 |]; cbn [bind] in E1; [| discriminate].
        destruct (if Reqb (fst c0) (node_x u_node) && Reqb (snd c0) (node_y u_node)
                  then _ else _) as [[first_segment last_segment] |]; cbn [bind] in E1;
          [| discriminate].
        destruct (curved_side _ _ curved_line es0 0) as [es' |] eqn:E0; cbn [bind] in E1;
          [| discriminate].
        destruct (curved_side_adds _ _ _ _ _ _ E0) as (_ & Hp0 & _).
        destruct (curved_side_adds _ _ _ _ _ _ E1) as (_ & Hp1 & _).
        intros c Hc. apply H0. now rewrite <- Hp0, <- Hp1.
      * injection E1 as <-.
        destruct (straight_street_added u v u_node v_node (street_id_of u v) corners es0)
          as (added & Hpp & _ & Hall & _).
        cbn zeta in Hpp, Hall. intros c Hc. rewrite Hpp, in_app_iff, in_map_iff in Hc.
        destruct Hc as [Hc | (c' & [= <-] & Hc)]; [now apply H0|].
        destruct (Hall c' Hc) as (Ha & Hb & _).
        split; eapply Hbuckets; eassumption.
    + injection E1 as <-. exact H0.
Qed.

Lemma resolve_candidates_subset
    (pe : list (StreetId * list (CandHash * (list nat * list nat))))
    (store : list (option Candidate)) (c : Candidate) :
  In (Some c) (resolve_candidates pe store) -> In (Some c) store.
Proof.
  intros Hin. apply In_nth_error in Hin. destruct Hin as [i Hi].
  apply resolve_candidates_only_invalidates in Hi. exact (nth_error_In _ _ Hi).
Qed.

Lemma add_straight_trenches_runs (store : list (option Candidate)) (g : TrenchGraph) :
  (forall c, In (Some c) store ->
     (exists id, tc_node_for_adding (fst c) = Some id)
     /\ (exists id, tc_node_for_adding (snd c) = Some id)) ->
  exists g1, add_straight_trenches store g = Ok g1.
Proof.
  revert g. induction store as [| [c |] rest IH]; intros g Hids; cbn [add_straight_trenches].
  - now exists g.
  - destruct (Hids c (or_introl eq_refl)) as [[id0 E0] [id1 E1]].
    unfold node_for_adding. rewrite E0, E1. cbn [bind].
    apply IH. intros c' Hin. apply Hids. now right.
  - apply IH. intros c' Hin. apply Hids. now right.
Qed.

(** Once the corners are there and the edge loop has run through, the
    rest of the script runs through. *)
Lemma script_runs_through (G_box : Network)
    (trench_corners : list (StreetId * list TrenchCorner))
    (road_crossing : list (StreetId * list (Z * Z)))
    (g_nodes : list (Z * Node)) (es : EdgeLoopState) :
  get_trench_corners G_box = Ok (trench_corners, road_crossing) ->
  add_corner_nodes trench_corners (net_nodes G_box) = Ok g_nodes ->
  process_edges g_nodes trench_corners (net_edges G_box) edge_loop_init = Ok es ->
  exists g1,
    trench_network G_box
    = Ok (add_crossings road_crossing (add_curved_trenches (new_curved_pp es) g1)).
Proof.
  intros Hc Hn He.
  assert (Hids : forall street_segment_id corners corner,
             In (street_segment_id, corners) trench_corners -> In corner corners ->
             exists id, tc_node_for_adding corner = Some id).
  { unfold get_trench_corners, get_trench_corners_state in Hc.
    destruct (process_intersections G_box (net_nodes G_box) corner_state_init)
      as [cs |] eqn:E; cbn [bind] in Hc; [| discriminate].
    injection Hc as <- _.
    assert (Hinit : placed_index G_box corner_state_init)
      by (constructor; cbn; try tauto; lia).
    destruct (process_intersections_placed G_box _ _ _ (incl_refl _) Hinit E)
      as [Hplaced _ _ _].
    intros sid corners corner Hin Hcorner.
    destruct (Hplaced corner) as [(id & Eid & _) _]; [| now exists id].
    unfold all_corners. apply in_concat. exists corners. split; [| exact Hcorner].
    apply in_map_iff. now exists (sid, corners). }
  destruct (add_straight_trenches_runs
              (resolve_candidates (point_edges es) (new_pp es))
              (graph_of g_nodes (net_edges G_box))) as [g1 Hg1].
  { intros c Hin. apply resolve_candidates_subset in Hin.
    apply (process_edges_from_buckets
             (fun corner => exists id, tc_node_for_adding corner = Some id)
             _ _ _ _ _ Hids He); [intros c' [] | exact Hin]. }
  exists g1. unfold trench_network. rewrite Hc. cbn [bind]. rewrite Hn. cbn [bind].
  rewrite He. cbn [bind]. rewrite Hg1. reflexivity.
Qed.

Lemma curved_side_none_v (us vs : list TrenchCorner * list TrenchCorner)
    (geometry : list (R * R)) (es : EdgeLoopState) (side_id : Z) :
  side_of vs side_id = [] -> curved_side us vs geometry es side_id = Ok es.
Proof.
  intros Ev. unfold curved_side. rewrite Ev. cbn [length Nat.ltb Nat.leb].
  now rewrite andb_false_r.
Qed.

(** The script on [twin_network]: it runs through and adds the
    crossing of intersection 1. *)
Lemma twin_network_runs :
  exists g,
    trench_network twin_network = Ok g
    /\ edge_length g (NodeId 400000001, NodeId 400000002, 1%Z) = Some (225493 / 1000).
Proof.
  destruct (add_corners_flat_spec
              (concat (map snd (output_trench_corners twin_state)))
              (net_nodes twin_network)) as (g_nodes & Hok & Hother & _).
  { intros c Hin. cbn in Hin.
    repeat (destruct Hin as [<- | Hin]; [eexists; reflexivity|]). destruct Hin. }
  assert (Hroad : forall id, (id <= 3)%Z ->
                    dict_get Z.eqb g_nodes id = dict_get Z.eqb (net_nodes twin_network) id).
  { intros id Hid. apply Hother. intros c Hin Hc. cbn in Hin.
    repeat (destruct Hin as [<- | Hin]; [cbn in Hc; injection Hc as <-; lia|]).
    destruct Hin. }
  assert (Hnodes : add_corner_nodes (output_trench_corners twin_state)
                                    (net_nodes twin_network) = Ok g_nodes).
  { unfold add_corner_nodes. rewrite add_corner_nodes_flat. exact Hok. }
  assert (Hloop : exists es,
             process_edges g_nodes (output_trench_corners twin_state)
                           (net_edges twin_network) edge_loop_init = Ok es).
  { cbn [process_edges twin_network net_edges process_edge].
    unfold getitem. rewrite !Hroad by lia.
    cbn [twin_network net_nodes dict_get Z.eqb Pos.eqb bind
         twin_state output_trench_corners street_id_of Z.min Z.max Z.compare Pos.compare
         Pos.compare_cont StreetId_eqb andb straight_street_data curved_street_data
         e_geometry].
    set (es1 := straight_street 1 3 _ _ _ _ edge_loop_init).
    assert (Hcurved : forall u v es,
               (u = 1%Z /\ v = 2%Z) \/ (u = 2%Z /\ v = 1%Z) ->
               curved_street u v (mkNode 0 0 2) (mkNode 0 0 2) [twin_corner_1; twin_corner_2]
                             stub_geometry es = Ok es).
    { intros u v es Huv. unfold curved_street, stub_geometry.
      cbn [index index_from_end nth_error length Nat.ltb Nat.leb Nat.sub bind fst snd
           node_x node_y].
      rewrite !Reqb_refl. cbn [andb bind].
      destruct Huv as [[-> ->] | [-> ->]].
      - rewrite curved_side_none_v by reflexivity. cbn [bind].
        now rewrite curved_side_none_v by reflexivity.
      - rewrite curved_side_none by reflexivity. cbn [bind].
        now rewrite curved_side_none by reflexivity. }
    rewrite (Hcurved 1%Z 2%Z es1) by (left; split; reflexivity). cbn [bind].
    rewrite Hcurved by (right; split; reflexivity). cbn [bind].
    eexists. reflexivity. }
  destruct Hloop as [es Hloop].
  destruct (script_runs_through twin_network _ _ g_nodes es twin_network_corners
              Hnodes Hloop) as [g1 Hrun].
  eexists. split; [exact Hrun|].
  fold trench_length.
  apply (crossings_set_length _ _ (Sid 1 2) [(400000001, 400000002)%Z]
                              (400000001, 400000002)%Z); cbn; tauto.
Qed.

Lemma script_keeps_the_roads_witness :
  exists g,
    trench_network twin_network = Ok g
    /\ edge_length g (NodeId 400000001, NodeId 400000002, 1%Z) = Some (225493 / 1000)
    /\ dict_get NodeKey_eqb (tg_nodes g) (NodeId 3) = Some (Some (mkNode 1 0 2))
    /\ dict_get EdgeKey_eqb (tg_edges g) (NodeId 1, NodeId 3, 0%Z)
       = Some straight_street_data.
Proof.
  destruct twin_network_runs as (g & Hrun & Hcrossing).
  exists g. split; [exact Hrun|]. split; [exact Hcrossing|].
  destruct (script_keeps_the_roads twin_network g Hrun) as (Hnode & Hedge & _).
  split.
  - apply Hnode; [lia | reflexivity].
  - rewrite Hedge by lia. reflexivity.
Defined.
